(** * Photoluminescence spectrum analysis engine

    A shallow embedding of the numerical engine of the repository (the
    two copies of the scientific utility module and the analysis page that
    calls them) and of the comparison page with its chart, the properties
    its specification states about the engine, and further properties of
    the code.

    Numbers are ECMAScript Numbers, that is IEEE 754 binary64 values with
    round-to-nearest-even arithmetic: they are modelled by Rocq's primitive
    [float], whose operations are exactly these, so that NaN, the
    infinities, signed zeros and rounding are those of the program.  Arrays
    are lists, held by value; an index read outside an array gives
    [undefined], which arithmetic turns into [NaN].  Loop counters, array
    lengths, and the window length and polynomial degree of the
    configuration (integers that the controls take from sliders) are
    natural numbers.

    Where a property bounds a rounding error, a finite Number is read as
    the real number it stands for: its mantissa times a power of two, as
    the IEEE decoding [Prim2SF] gives them. *)

From Stdlib Require Import Reals Lra.
From Stdlib Require Import ZArith List Bool Lia Floats Sorted.
From Stdlib Require Uint63.
Import ListNotations.

Set Warnings "-inexact-float".


(** ** The ECMAScript runtime *)

Module Js.

Local Open Scope float_scope.

Definition number := float.

(** [a > b] and [a >= b] are [b < a] and [b <= a], also on NaN. *)
Definition gtb (a b : number) : bool := b <? a.
Definition geb (a b : number) : bool := b <=? a.

(** [a === b] on Numbers: false on NaN, true on [+0] and [-0]. *)
Definition strict_eq (a b : number) : bool := a =? b.

(** An array length or a loop counter used as a Number. *)
Definition of_nat (n : nat) : number :=
  of_uint63 (Uint63.of_Z (Z.of_nat n)).

(** ECMAScript leaves the value of [Math.pow], [Math.exp] and [Math.log] outside
    their special cases to the implementation ("implementation-
    approximated"): that part is a parameter of the embedding. *)
Class PowApprox := pow_approx : number -> nat -> number.
Class ExpApprox := exp_approx : number -> number.
Class LogApprox := log_approx : number -> number.

(** [Math.pow(base, exponent)] for the exponents the engine uses, which
    are literals and loop counters: Number::exponentiate with a
    non-negative integral exponent. *)
Definition Math_pow {P : PowApprox} (base : number) (exponent : nat) : number :=
  match exponent with
  | O => 1
  | S _ =>
      match classify base with
      | NaN => nan
      | PInf => infinity
      | NInf => if Nat.odd exponent then neg_infinity else infinity
      | PZero => 0
      | NZero => if Nat.odd exponent then neg_zero else 0
      | _ => pow_approx base exponent
      end
  end.

Definition Math_exp {E : ExpApprox} (x : number) : number :=
  match classify x with
  | NaN => nan
  | PZero | NZero => 1
  | PInf => infinity
  | NInf => 0
  | _ => exp_approx x
  end.

Definition Math_log {L : LogApprox} (x : number) : number :=
  match classify x with
  | NaN | NInf | NNormal | NSubn => nan
  | PZero | NZero => neg_infinity
  | PInf => infinity
  | _ => if x =? 1 then 0 else log_approx x
  end.

(** [Math.sqrt] is the correctly rounded square root of binary64. *)
Definition Math_sqrt (x : number) : number := PrimFloat.sqrt x.

Definition Math_abs (x : number) : number := PrimFloat.abs x.

(** [Math.max(...values)] and [Math.min(...values)]. *)
Fixpoint max_from (highest : number) (values : list number) : number :=
  match values with
  | [] => highest
  | v :: rest =>
      if is_nan v then nan
      else
        let highest :=
          if Leibniz.eqb v 0 && Leibniz.eqb highest neg_zero then 0
          else highest in
        max_from (if gtb v highest then v else highest) rest
  end.

Definition Math_max (values : list number) : number :=
  max_from neg_infinity values.

Fixpoint min_from (lowest : number) (values : list number) : number :=
  match values with
  | [] => lowest
  | v :: rest =>
      if is_nan v then nan
      else
        let lowest :=
          if Leibniz.eqb v neg_zero && Leibniz.eqb lowest 0 then neg_zero
          else lowest in
        min_from (if v <? lowest then v else lowest) rest
  end.

Definition Math_min (values : list number) : number :=
  min_from infinity values.

(** A repeated-multiplication [Math.pow], one admissible implementation:
    it is used where a statement is evaluated on a concrete input. *)
Fixpoint pow_mul (base : number) (exponent : nat) : number :=
  match exponent with
  | O => 1
  | S O => base
  | S n => pow_mul base n * base
  end.

Definition by_multiplication : PowApprox := pow_mul.

(** A truncated-series [Math.exp], a crude implementation used in the same
    way: the exponential series in Horner form, [k] being the divisor of
    the next term. *)
Fixpoint exp_series (x : number) (k terms : nat) : number :=
  match terms with
  | O => 1
  | S terms' => 1 + x / of_nat k * exp_series x (S k) terms'
  end.

Definition by_series : ExpApprox := fun x => exp_series x 1 20.

(** [array[i]] read as a Number. *)
Definition get (a : list number) (i : nat) : number := nth i a nan.

(** [array.reduce((sum, val, i) => f(sum, val, i), init)]. *)
Fixpoint reduce_from {A B : Type} (f : B -> A -> nat -> B)
         (i : nat) (a : list A) (acc : B) : B :=
  match a with
  | [] => acc
  | v :: rest => reduce_from f (S i) rest (f acc v i)
  end.

Definition reduce {A B : Type} (f : B -> A -> nat -> B) (a : list A) (init : B) : B :=
  reduce_from f 0 a init.

(** [array.map((v, i) => f(v, i))]. *)
Fixpoint mapi_from {A B : Type} (f : A -> nat -> B) (i : nat) (a : list A) : list B :=
  match a with
  | [] => []
  | v :: rest => f v i :: mapi_from f (S i) rest
  end.

Definition mapi {A B : Type} (f : A -> nat -> B) (a : list A) : list B :=
  mapi_from f 0 a.

End Js.

Export Js.

(** ** Arithmetic the kernels run on

    The trapezoid rule and the normalisation stage use only the field
    operations, [===] and [Math.max].  They are written over these
    operations, which the engine takes from binary64. *)

Class Arith (N : Type) : Type := {
  lit0 : N;
  lit2 : N;
  n_add : N -> N -> N;
  n_sub : N -> N -> N;
  n_mul : N -> N -> N;
  n_div : N -> N -> N;
  is0 : N -> bool;             (* [x === 0] *)
  max_of : list N -> N         (* [Math.max(...values)] *)
}.

Declare Scope arith_scope.
Delimit Scope arith_scope with arith.
Infix "+" := n_add : arith_scope.
Infix "-" := n_sub : arith_scope.
Infix "*" := n_mul : arith_scope.
Infix "/" := n_div : arith_scope.

#[export] Instance binary64 : Arith float := {
  lit0 := 0%float;
  lit2 := 2%float;
  n_add := PrimFloat.add;
  n_sub := PrimFloat.sub;
  n_mul := PrimFloat.mul;
  n_div := PrimFloat.div;
  is0 := fun x => strict_eq x 0%float;
  max_of := Math_max
}.

(** ** Data model (types/spectrum.ts) *)

Module Types.

Record SpectralDataPoint (N : Type) : Type := mkPoint {
  wavelength : N;
  intensity : N
}.

Arguments mkPoint {N} _ _.
Arguments wavelength {N} _.
Arguments intensity {N} _.

Definition Spectrum := list (SpectralDataPoint float).

Record Peak : Type := mkPeak {
  position : float;
  amplitude : float;
  fwhm : float;
  area : float;
  prominence : float
}.

Inductive Model := gaussian_model | lorentzian_model | voigt_model.

Record FittingResult : Type := mkFittingResult {
  model : Model;
  peaks : list Peak;
  r_squared : float;
  rmse : float;
  fitted_data : Spectrum
}.

(** [method] is the constant ['savitzky-golay']. *)
Record NoiseReduction : Type := mkNoiseReduction {
  window_length : nat;
  polynomial_order : nat
}.

Inductive BaselineMethod := polynomial | als.

(** [polynomial_degree], [lambda] and [p] are optional fields. *)
Record BaselineCorrection : Type := mkBaselineCorrection {
  baseline_method : BaselineMethod;
  polynomial_degree : option nat;
  lambda : option float;
  als_p : option float
}.

Inductive NormalizationMethod := max_method | area_method.

Record OutlierRemoval : Type := mkOutlierRemoval {
  enabled : bool;
  threshold : float
}.

Record PreprocessingParams : Type := mkParams {
  noise_reduction : option NoiseReduction;
  baseline_correction : option BaselineCorrection;
  normalization : option NormalizationMethod;
  outlier_removal : option OutlierRemoval
}.

Record Statistics : Type := mkStatistics {
  mean_intensity : float;
  std_intensity : float;
  max_intensity : float;
  min_intensity : float;
  total_area : float
}.

End Types.

Export Types.

(** A point read at an index outside the array: never reached, every read
    of the engine is inside the loop bounds. *)
Definition no_point : SpectralDataPoint float := mkPoint nan nan.

Definition at_index (data : Spectrum) (i : nat) : SpectralDataPoint float :=
  nth i data no_point.

(** [a[i] = f(a[i])] on an array held by value. *)
Fixpoint update {A : Type} (i : nat) (f : A -> A) (a : list A) : list A :=
  match a, i with
  | [], _ => []
  | v :: rest, O => f v :: rest
  | v :: rest, S i' => v :: update i' f rest
  end.

(** ** The scientific utility module, revised copy (src/unnamed/part_002) *)

Module Part002.

(** *** Kernels over the arithmetic *)

Section Kernels.
Context {N : Type} {A : Arith N}.
Local Open Scope arith_scope.

(** The loop [for (i = 1; i < data.length; i++)], [prev] being
    [data[i - 1]] and [rest] the points from [data[i]] on. *)
Fixpoint trapezoid_loop (prev : SpectralDataPoint N)
         (rest : list (SpectralDataPoint N)) (area : N) : N :=
  match rest with
  | [] => area
  | cur :: rest' =>
      let dx := wavelength cur - wavelength prev in
      let avgY := (intensity cur + intensity prev) / lit2 in
      trapezoid_loop cur rest' (area + dx * avgY)
  end.

Definition trapezoidalIntegration (data : list (SpectralDataPoint N)) : N :=
  match data with
  | [] => lit0
  | first :: rest => trapezoid_loop first rest lit0
  end.

Definition normalizeSpectrum (data : list (SpectralDataPoint N))
           (method : NormalizationMethod) : list (SpectralDataPoint N) :=
  match data with
  | [] => data
  | _ :: _ =>
      match method with
      | max_method =>
          let maxIntensity := max_of (map intensity data) in
          if is0 maxIntensity then data
          else map (fun d => mkPoint (wavelength d) (intensity d / maxIntensity)) data
      | area_method =>
          let area := trapezoidalIntegration data in
          if is0 area then data
          else map (fun d => mkPoint (wavelength d) (intensity d / area)) data
      end
  end.

End Kernels.

(** *** The engine on binary64 *)

Section Engine.
Context {P : PowApprox} {E : ExpApprox}.
Local Open Scope float_scope.

(** The offsets [j = -halfWindow .. halfWindow] of the inner loop. *)
Definition offsets (halfWindow : nat) : list Z :=
  map (fun k => (Z.of_nat k - Z.of_nat halfWindow)%Z) (seq 0 (2 * halfWindow + 1)).

Definition savitzkyGolayFilter (data : Spectrum)
           (windowLength _polynomialOrder : nat) : Spectrum :=
  let windowLength :=
    if Nat.eqb (windowLength mod 2) 0 then (windowLength + 1)%nat else windowLength in
  let halfWindow := Nat.div windowLength 2 in
  mapi (fun d i =>
          let '(sum, count) :=
            fold_left
              (fun '(sum, count) j =>
                 let ij := (Z.of_nat i + j)%Z in
                 if ((0 <=? ij)%Z && (ij <? Z.of_nat (length data))%Z)%bool
                 then (sum + intensity (at_index data (Z.to_nat ij)), S count)
                 else (sum, count))
              (offsets halfWindow) (0, O) in
          mkPoint (wavelength d) (sum / of_nat count))
       data.

(** **** Polynomial least squares *)

Definition row (A : list (list float)) (r : nat) : list float := nth r A [].
Definition entry (A : list (list float)) (r c : nat) : float := get (row A r) c.
Definition set_entry (A : list (list float)) (r c : nat) (v : float) :=
  update r (update c (fun _ => v)) A.

(** Pivot selection: the row at or below [i] with the largest absolute
    entry in column [i], the first such row on ties. *)
Definition select_pivot (A : list (list float)) (n i : nat) : nat :=
  snd (fold_left
         (fun '(maxEl, maxRow) k =>
            if gtb (Math_abs (entry A k i)) maxEl
            then (Math_abs (entry A k i), k)
            else (maxEl, maxRow))
         (seq (S i) (n - S i))
         (Math_abs (entry A i i), i)).

Definition swap_rows (A : list (list float)) (n i maxRow : nat) :=
  fold_left
    (fun A k =>
       let tmp := entry A maxRow k in
       let A := set_entry A maxRow k (entry A i k) in
       set_entry A i k tmp)
    (seq i (n - i)) A.

Definition swap_cells (B : list float) (i maxRow : nat) : list float :=
  let tmp := get B maxRow in
  let B := update maxRow (fun _ => get B i) B in
  update i (fun _ => tmp) B.

Definition eliminate_below (A : list (list float)) (B : list float) (n i : nat) :=
  fold_left
    (fun '(A, B) k =>
       let c := - entry A k i / entry A i i in
       let A :=
         fold_left
           (fun A j =>
              if Nat.eqb i j then set_entry A k j 0
              else set_entry A k j (entry A k j + c * entry A i j))
           (seq i (n - i)) A in
       (A, update k (fun b => b + c * get B i) B))
    (seq (S i) (n - S i)) (A, B).

Definition back_substitution (A : list (list float)) (B : list float) (n : nat) :=
  fold_left
    (fun x i =>
       let sum :=
         fold_left (fun sum j => sum + entry A i j * get x j)
                   (seq (S i) (n - S i)) 0 in
       update i (fun _ => (get B i - sum) / entry A i i) x)
    (rev (seq 0 n)) (repeat 0 n).

Definition gaussianElimination (A : list (list float)) (B : list float) : list float :=
  let n := length B in
  let '(A, B) :=
    fold_left
      (fun '(A, B) i =>
         let maxRow := select_pivot A n i in
         let A := swap_rows A n i maxRow in
         let B := swap_cells B i maxRow in
         eliminate_below A B n i)
      (seq 0 n) (A, B) in
  back_substitution A B n.

Definition polyfit (x y : list float) (degree : nat) : list float :=
  let n := length x in
  let k := (degree + 1)%nat in
  let '(A, B) :=
    fold_left
      (fun AB i =>
         let valX := get x i in
         let valY := get y i in
         fold_left
           (fun '(A, B) r =>
              let B := update r (fun b => b + valY * Math_pow valX r) B in
              let A :=
                fold_left
                  (fun A c => set_entry A r c (entry A r c + Math_pow valX (r + c)))
                  (seq 0 k) A in
              (A, B))
           (seq 0 k) AB)
      (seq 0 n) (repeat (repeat 0 k) k, repeat 0 k) in
  gaussianElimination A B.

Definition polynomialBaselineCorrection (data : Spectrum) (degree : nat) : Spectrum :=
  match data with
  | [] => data
  | _ :: _ =>
      let x := mapi (fun _ i => of_nat i) data in
      let y := map intensity data in
      let coeffs := polyfit x y degree in
      let baseline :=
        map (fun xi =>
               fold_left (fun val i => val + get coeffs i * Math_pow xi i)
                         (seq 0 (length coeffs)) 0)
            x in
      mapi (fun d i =>
              mkPoint (wavelength d)
                      (Math_max [0; intensity d - get baseline i]))
           data
  end.

(** **** Outliers *)

(** The mean and the variance of the intensities, as [removeOutliers] and
    [calculateStatistics] both compute them: [values.reduce((a, b) => a +
    b, 0) / values.length] and [values.reduce((sum, val) => sum +
    Math.pow(val - mean, 2), 0) / values.length]. *)
Definition sum_of (values : list float) : float :=
  reduce (fun a b _ => a + b) values 0.

Definition mean_of (values : list float) : float :=
  sum_of values / of_nat (length values).

Definition variance_of (values : list float) : float :=
  let mean := mean_of values in
  reduce (fun sum val _ => sum + Math_pow (val - mean) 2) values 0
  / of_nat (length values).

Definition removeOutliers (data : Spectrum) (threshold : float) : Spectrum :=
  match data with
  | [] => data
  | _ :: _ =>
      let intensities := map intensity data in
      let mean := mean_of intensities in
      let variance := variance_of intensities in
      let std := Math_sqrt variance in
      if strict_eq std 0 then data
      else filter (fun d => Math_abs (intensity d - mean) <=? threshold * std) data
  end.

(** **** Peak detection *)

(** [while (leftIdx > 0 && data[leftIdx].intensity > halfMax) leftIdx--] *)
Fixpoint walk_left (data : Spectrum) (halfMax : float) (leftIdx : nat) : nat :=
  match leftIdx with
  | O => O
  | S below =>
      if gtb (intensity (at_index data leftIdx)) halfMax
      then walk_left data halfMax below
      else leftIdx
  end.

(** [while (rightIdx < data.length - 1 && data[rightIdx].intensity > halfMax)
    rightIdx++], [room] being [data.length - 1 - rightIdx]. *)
Fixpoint walk_right (data : Spectrum) (halfMax : float) (rightIdx room : nat) : nat :=
  match room with
  | O => rightIdx
  | S room' =>
      if gtb (intensity (at_index data rightIdx)) halfMax
      then walk_right data halfMax (S rightIdx) room'
      else rightIdx
  end.

Definition calculateFWHM (data : Spectrum) (peakIndex : nat) : float :=
  let peakIntensity := intensity (at_index data peakIndex) in
  let halfMax := peakIntensity / 2 in
  let leftIdx := walk_left data halfMax peakIndex in
  let rightIdx := walk_right data halfMax peakIndex (length data - 1 - peakIndex) in
  wavelength (at_index data rightIdx) - wavelength (at_index data leftIdx).

Definition calculatePeakArea (data : Spectrum) (peakIndex : nat) (fwhm : float) : float :=
  let currentWavelength := wavelength (at_index data peakIndex) in
  let leftWavelength := currentWavelength - fwhm in
  let rightWavelength := currentWavelength + fwhm in
  let peakData :=
    filter (fun d => geb (wavelength d) leftWavelength
                     && (wavelength d <=? rightWavelength))
           data in
  trapezoidalIntegration peakData.

(** The body of the scan at index [i]: the candidate pushed, if any. *)
Definition candidate (data : Spectrum) (minHeight : float) (i : nat) : list Peak :=
  let prev := intensity (at_index data (i - 1)) in
  let curr := intensity (at_index data i) in
  let next := intensity (at_index data (i + 1)) in
  if gtb curr prev && gtb curr next && geb curr minHeight then
    let fwhm := calculateFWHM data i in
    let area := calculatePeakArea data i fwhm in
    let simpleProminence := curr - Math_min [prev; next] in
    [mkPeak (wavelength (at_index data i)) curr fwhm area simpleProminence]
  else [].

(** [for (i = 1; i < data.length - 1; i++)], then the prominence filter. *)
Definition detectPeaks (data : Spectrum) (prominence minHeight : float) : list Peak :=
  let peaks := flat_map (candidate data minHeight) (seq 1 (length data - 2)) in
  filter (fun p => geb (Types.prominence p) prominence) peaks.

(** **** Peak models and curve synthesis *)

Definition gaussian (x amplitude center width : float) : float :=
  if strict_eq width 0 then 0
  else amplitude * Math_exp (- Math_pow (x - center) 2 / (2 * Math_pow width 2)).

Definition lorentzian (x amplitude center width : float) : float :=
  if strict_eq width 0 then 0
  else amplitude / (1 + Math_pow ((x - center) / width) 2).

Definition fitGaussian (data : Spectrum) (peaks : list Peak) : Spectrum :=
  map (fun point =>
         let intensity :=
           fold_left
             (fun intensity peak =>
                let sigma := fwhm peak / 2.355 in
                intensity + gaussian (wavelength point) (amplitude peak) (position peak) sigma)
             peaks 0 in
         mkPoint (wavelength point) intensity)
      data.

Definition fitLorentzian (data : Spectrum) (peaks : list Peak) : Spectrum :=
  map (fun point =>
         let intensity :=
           fold_left
             (fun intensity peak =>
                let halfWidth := fwhm peak / 2 in
                intensity + lorentzian (wavelength point) (amplitude peak) (position peak) halfWidth)
             peaks 0 in
         mkPoint (wavelength point) intensity)
      data.

(** **** Goodness of fit *)

(** [ssTotal] and [ssResidual] of [calculateRSquared]; [calculateRMSE]
    computes the second again for its mean squared error. *)
Definition ss_total (observed : list float) : float :=
  let mean := mean_of observed in
  reduce (fun sum val _ => sum + Math_pow (val - mean) 2) observed 0.

Definition ss_residual (observed predicted : list float) : float :=
  reduce (fun sum val i => sum + Math_pow (val - get predicted i) 2) observed 0.

Definition calculateRSquared (observed predicted : list float) : float :=
  match observed with
  | [] => 0
  | _ :: _ =>
      let ssTotal := ss_total observed in
      let ssResidual := ss_residual observed predicted in
      if strict_eq ssTotal 0 then 0
      else 1 - ssResidual / ssTotal
  end.

Definition calculateRMSE (observed predicted : list float) : float :=
  match observed with
  | [] => 0
  | _ :: _ =>
      let mse := ss_residual observed predicted / of_nat (length observed) in
      Math_sqrt mse
  end.

(** **** The preprocessing pipeline *)

(** [polynomial_degree || 2]: an absent degree and the degree 0 are falsy. *)
Definition degree_or_2 (polynomial_degree : option nat) : nat :=
  match polynomial_degree with
  | None | Some O => 2
  | Some d => d
  end.

Definition preprocessSpectrum (data : Spectrum) (params : PreprocessingParams) : Spectrum :=
  let processed := data in
  (* 1. Remove outliers *)
  let processed :=
    match outlier_removal params with
    | Some o =>
        if enabled o then removeOutliers processed (threshold o) else processed
    | None => processed
    end in
  (* 2. Noise reduction *)
  let processed :=
    match noise_reduction params with
    | Some nr =>
        savitzkyGolayFilter processed (window_length nr) (polynomial_order nr)
    | None => processed
    end in
  (* 3. Baseline correction *)
  let processed :=
    match baseline_correction params with
    | Some bc =>
        match baseline_method bc with
        | polynomial =>
            polynomialBaselineCorrection processed (degree_or_2 (polynomial_degree bc))
        | als => processed
        end
    | None => processed
    end in
  (* 4. Normalization *)
  let processed :=
    match normalization params with
    | Some method => normalizeSpectrum processed method
    | None => processed
    end in
  processed.

(** **** Statistics *)

Definition calculateStatistics (data : Spectrum) : Statistics :=
  match data with
  | [] => mkStatistics 0 0 0 0 0
  | _ :: _ =>
      let intensities := map intensity data in
      let mean := mean_of intensities in
      let variance := variance_of intensities in
      let std := Math_sqrt variance in
      mkStatistics mean std (Math_max intensities) (Math_min intensities)
                   (trapezoidalIntegration data)
  end.

End Engine.

End Part002.

(** ** The scientific utility module, first copy (src/src/utils/scientific.ts) *)

Module ScientificTs.

Section Engine.
Context {P : PowApprox} {E : ExpApprox} {L : LogApprox}.
Local Open Scope float_scope.

Definition polynomialSmooth (values : list float) (order : nat) : list float :=
  let n := length values in
  let sum := reduce (fun a b _ => a + b) values 0 in
  let avg := sum / of_nat n in
  map (fun _ => avg) values.

(** [data.slice(start, end)] for [0 <= start <= end <= data.length]. *)
Definition slice (data : Spectrum) (start stop : nat) : Spectrum :=
  firstn (stop - start) (skipn start data).

Definition savitzkyGolayFilter (data : Spectrum)
           (windowLength polynomialOrder : nat) : Spectrum :=
  let windowLength :=
    if Nat.eqb (windowLength mod 2) 0 then (windowLength + 1)%nat else windowLength in
  let halfWindow := Nat.div windowLength 2 in
  mapi (fun d i =>
          if ((i <? halfWindow)%nat
              || (Z.of_nat (length data) - Z.of_nat halfWindow <=? Z.of_nat i)%Z)%bool
          then d
          else
            let window := slice data (i - halfWindow) (i + halfWindow + 1) in
            let smoothed := polynomialSmooth (map intensity window) polynomialOrder in
            mkPoint (wavelength d) (get smoothed halfWindow))
       data.

(** The design matrix is built and dropped; only the mean is fitted. *)
Definition polyfit (x y : list float) (degree : nat) : list float :=
  let n := length x in
  let m := (degree + 1)%nat in
  let coeffs := repeat 0 m in
  update 0 (fun _ => reduce (fun a b _ => a + b) y 0 / of_nat n) coeffs.

Definition polynomialBaselineCorrection (data : Spectrum) (degree : nat) : Spectrum :=
  let x := mapi (fun _ i => of_nat i) data in
  let y := map intensity data in
  let coeffs := polyfit x y degree in
  let baseline :=
    map (fun xi =>
           fold_left (fun val i => val + get coeffs i * Math_pow xi i)
                     (seq 0 (degree + 1)) 0)
        x in
  mapi (fun d i =>
          mkPoint (wavelength d) (Math_max [0; intensity d - get baseline i]))
       data.

Fixpoint trapezoid_loop (prev : SpectralDataPoint float) (rest : Spectrum)
         (area : float) : float :=
  match rest with
  | [] => area
  | cur :: rest' =>
      let dx := wavelength cur - wavelength prev in
      let avgY := (intensity cur + intensity prev) / 2 in
      trapezoid_loop cur rest' (area + dx * avgY)
  end.

Definition trapezoidalIntegration (data : Spectrum) : float :=
  match data with
  | [] => 0
  | first :: rest => trapezoid_loop first rest 0
  end.

Definition normalizeSpectrum (data : Spectrum) (method : NormalizationMethod) : Spectrum :=
  match method with
  | max_method =>
      let maxIntensity := Math_max (map intensity data) in
      map (fun d => mkPoint (wavelength d) (intensity d / maxIntensity)) data
  | area_method =>
      let area := trapezoidalIntegration data in
      map (fun d => mkPoint (wavelength d) (intensity d / area)) data
  end.

Definition removeOutliers (data : Spectrum) (threshold : float) : Spectrum :=
  let intensities := map intensity data in
  let mean := reduce (fun a b _ => a + b) intensities 0 / of_nat (length intensities) in
  let std :=
    Math_sqrt
      (reduce (fun sum val _ => sum + Math_pow (val - mean) 2) intensities 0
       / of_nat (length intensities)) in
  filter (fun d => Math_abs (intensity d - mean) <=? threshold * std) data.

Fixpoint walk_left (data : Spectrum) (halfMax : float) (leftIdx : nat) : nat :=
  match leftIdx with
  | O => O
  | S below =>
      if gtb (intensity (at_index data leftIdx)) halfMax
      then walk_left data halfMax below
      else leftIdx
  end.

Fixpoint walk_right (data : Spectrum) (halfMax : float) (rightIdx room : nat) : nat :=
  match room with
  | O => rightIdx
  | S room' =>
      if gtb (intensity (at_index data rightIdx)) halfMax
      then walk_right data halfMax (S rightIdx) room'
      else rightIdx
  end.

Definition calculateFWHM (data : Spectrum) (peakIndex : nat) : float :=
  let halfMax := intensity (at_index data peakIndex) / 2 in
  let leftIdx := walk_left data halfMax peakIndex in
  let rightIdx := walk_right data halfMax peakIndex (length data - 1 - peakIndex) in
  wavelength (at_index data rightIdx) - wavelength (at_index data leftIdx).

Definition calculatePeakArea (data : Spectrum) (peakIndex : nat) (fwhm : float) : float :=
  let leftWavelength := wavelength (at_index data peakIndex) - fwhm in
  let rightWavelength := wavelength (at_index data peakIndex) + fwhm in
  let peakData :=
    filter (fun d => geb (wavelength d) leftWavelength
                     && (wavelength d <=? rightWavelength))
           data in
  trapezoidalIntegration peakData.

Definition candidate (data : Spectrum) (minHeight : float) (i : nat) : list Peak :=
  let prev := intensity (at_index data (i - 1)) in
  let curr := intensity (at_index data i) in
  let next := intensity (at_index data (i + 1)) in
  if gtb curr prev && gtb curr next && gtb curr minHeight then
    let fwhm := calculateFWHM data i in
    let area := calculatePeakArea data i fwhm in
    [mkPeak (wavelength (at_index data i)) curr fwhm area
            (curr - Math_min [prev; next])]
  else [].

Definition detectPeaks (data : Spectrum) (prominence minHeight : float) : list Peak :=
  let peaks := flat_map (candidate data minHeight) (seq 1 (length data - 2)) in
  filter (fun p => geb (Types.prominence p) prominence) peaks.

Definition gaussian (x amplitude center width : float) : float :=
  amplitude * Math_exp (- Math_pow (x - center) 2 / (2 * Math_pow width 2)).

Definition lorentzian (x amplitude center width : float) : float :=
  amplitude / (1 + Math_pow ((x - center) / width) 2).

Definition fitGaussian (data : Spectrum) (peaks : list Peak) : Spectrum :=
  map (fun point =>
         let intensity :=
           fold_left
             (fun intensity peak =>
                let width := fwhm peak / (2 * Math_sqrt (2 * Math_log 2)) in
                intensity + gaussian (wavelength point) (amplitude peak) (position peak) width)
             peaks 0 in
         mkPoint (wavelength point) intensity)
      data.

Definition fitLorentzian (data : Spectrum) (peaks : list Peak) : Spectrum :=
  map (fun point =>
         let intensity :=
           fold_left
             (fun intensity peak =>
                let width := fwhm peak / 2 in
                intensity + lorentzian (wavelength point) (amplitude peak) (position peak) width)
             peaks 0 in
         mkPoint (wavelength point) intensity)
      data.

Definition calculateRSquared (observed predicted : list float) : float :=
  let mean := reduce (fun a b _ => a + b) observed 0 / of_nat (length observed) in
  let ssTotal := reduce (fun sum val _ => sum + Math_pow (val - mean) 2) observed 0 in
  let ssResidual :=
    reduce (fun sum val i => sum + Math_pow (val - get predicted i) 2) observed 0 in
  1 - ssResidual / ssTotal.

Definition calculateRMSE (observed predicted : list float) : float :=
  let mse :=
    reduce (fun sum val i => sum + Math_pow (val - get predicted i) 2) observed 0
    / of_nat (length observed) in
  Math_sqrt mse.

Definition degree_or_2 (polynomial_degree : option nat) : nat :=
  match polynomial_degree with
  | None | Some O => 2
  | Some d => d
  end.

Definition preprocessSpectrum (data : Spectrum) (params : PreprocessingParams) : Spectrum :=
  let processed := data in
  let processed :=
    match outlier_removal params with
    | Some o =>
        if enabled o then removeOutliers processed (threshold o) else processed
    | None => processed
    end in
  let processed :=
    match noise_reduction params with
    | Some nr =>
        savitzkyGolayFilter processed (window_length nr) (polynomial_order nr)
    | None => processed
    end in
  let processed :=
    match baseline_correction params with
    | Some bc =>
        match baseline_method bc with
        | polynomial =>
            polynomialBaselineCorrection processed (degree_or_2 (polynomial_degree bc))
        | als => processed
        end
    | None => processed
    end in
  let processed :=
    match normalization params with
    | Some method => normalizeSpectrum processed method
    | None => processed
    end in
  processed.

Definition calculateStatistics (data : Spectrum) : Statistics :=
  let intensities := map intensity data in
  let mean := reduce (fun a b _ => a + b) intensities 0 / of_nat (length intensities) in
  let variance :=
    reduce (fun sum val _ => sum + Math_pow (val - mean) 2) intensities 0
    / of_nat (length intensities) in
  mkStatistics mean (Math_sqrt variance) (Math_max intensities) (Math_min intensities)
               (trapezoidalIntegration data).

End Engine.

End ScientificTs.

(** ** The analysis page (src/unnamed/part_001)

    [handleAnalyze] of [AnalysisPage], over the functions the page imports
    from ['@/utils/scientific'].  Toasts, React state and the save to the
    database are left out: the outcome records what was computed. *)

Section AnalysisPage.

Variable detectPeaks : Spectrum -> float -> float -> list Peak.
Variables fitGaussian fitLorentzian : Spectrum -> list Peak -> Spectrum.
Variables calculateRSquared calculateRMSE : list float -> list float -> float.
Variable calculateStatistics : Spectrum -> Statistics.

Inductive Outcome :=
| NothingToAnalyze
| NoPeaksDetected
| AnalysisComplete (detectedPeaks : list Peak) (result : FittingResult)
                   (statistics : Statistics).

Definition handleAnalyze (data : Spectrum) (model : Model)
           (prominence minHeight : float) : Outcome :=
  match data with
  | [] => NothingToAnalyze
  | _ :: _ =>
      let detectedPeaks := detectPeaks data prominence minHeight in
      match detectedPeaks with
      | [] => NoPeaksDetected
      | _ :: _ =>
          let fittedData :=
            match model with
            | gaussian_model => fitGaussian data detectedPeaks
            | lorentzian_model => fitLorentzian data detectedPeaks
            | voigt_model =>
                (* Voigt is approximated as Gaussian for now *)
                fitGaussian data detectedPeaks
            end in
          let observed := map intensity data in
          let predicted := map intensity fittedData in
          let rSquared := calculateRSquared observed predicted in
          let rmse := calculateRMSE observed predicted in
          let result := mkFittingResult model detectedPeaks rSquared rmse fittedData in
          let statistics := calculateStatistics data in
          AnalysisComplete detectedPeaks result statistics
      end
  end.

End AnalysisPage.

(** * What the specification states

    The inputs of its scenarios, and its descriptions of the engine that a
    claim compares with the code. *)

Open Scope float_scope.

(** ** The end-to-end scenario of the specification *)

Definition scenario : Spectrum :=
  [mkPoint 500 0.1; mkPoint 502 0.3; mkPoint 504 0.9; mkPoint 506 0.3; mkPoint 508 0.1].

(** The claim as the specification words it. *)
Definition scenario_as_specified : Prop :=
  exists pk,
    Part002.detectPeaks scenario 0.1 0.05 = [pk]
    /\ position pk = 504 /\ amplitude pk = 0.9
    /\ fwhm pk = 8 /\ prominence pk = 0.6.

Definition two_points : Spectrum := [mkPoint 500 0.1; mkPoint 502 0.3].

(** ** The pipeline as the specification describes it

    Four optional stages in a fixed order; an absent stage hands the
    spectrum on unchanged, an applied stage consumes what the stage before
    it produced. *)

Definition Stage := Spectrum -> Spectrum.

Definition run_in_order (stages : list (option Stage)) (data : Spectrum) : Spectrum :=
  fold_left (fun processed stage =>
               match stage with
               | Some apply => apply processed
               | None => processed
               end)
            stages data.

Section Stages.

Variable removeOutliers : Spectrum -> float -> Spectrum.
Variable savitzkyGolayFilter : Spectrum -> nat -> nat -> Spectrum.
Variable polynomialBaselineCorrection : Spectrum -> nat -> Spectrum.
Variable normalizeSpectrum : Spectrum -> NormalizationMethod -> Spectrum.

Definition outlier_stage (params : PreprocessingParams) : option Stage :=
  match outlier_removal params with
  | Some o =>
      if enabled o then Some (fun s => removeOutliers s (threshold o)) else None
  | None => None
  end.

Definition noise_stage (params : PreprocessingParams) : option Stage :=
  match noise_reduction params with
  | Some nr => Some (fun s => savitzkyGolayFilter s (window_length nr) (polynomial_order nr))
  | None => None
  end.

Definition default_degree (degree : option nat) : nat :=
  match degree with
  | Some (S d) => S d
  | _ => 2%nat
  end.

Definition baseline_stage (params : PreprocessingParams) : option Stage :=
  match baseline_correction params with
  | Some bc =>
      match baseline_method bc with
      | polynomial =>
          Some (fun s => polynomialBaselineCorrection s (default_degree (polynomial_degree bc)))
      | als => None
      end
  | None => None
  end.

Definition normalization_stage (params : PreprocessingParams) : option Stage :=
  match normalization params with
  | Some method => Some (fun s => normalizeSpectrum s method)
  | None => None
  end.

Definition pipeline (params : PreprocessingParams) : list (option Stage) :=
  [outlier_stage params; noise_stage params; baseline_stage params;
   normalization_stage params].

End Stages.

(** ** The model requested of the analysis page *)

Definition fitted (o : Outcome) : option Spectrum :=
  match o with
  | AnalysisComplete _ result _ => Some (fitted_data result)
  | _ => None
  end.

Definition scores (o : Outcome) : option (float * float) :=
  match o with
  | AnalysisComplete _ result _ => Some (r_squared result, rmse result)
  | _ => None
  end.

(** ** Goodness of fit of a sequence against itself *)

Definition finite_numbers (values : list float) : Prop :=
  Forall (fun v => is_finite v = true) values.

(** The claim as the specification words it, for some implementation of
    [Math.pow]. *)
Definition perfect_fit_as_specified : Prop :=
  exists P : PowApprox,
  forall observed,
    observed <> [] ->
    Part002.calculateRSquared observed observed = 1
    /\ Part002.calculateRMSE observed observed = 0.

(** ** Normalization *)

Definition integers_1_1_4 : Spectrum :=
  [mkPoint 1 1; mkPoint 2 1; mkPoint 3 4]%float.

(** The claim as the specification words it, on binary64: after "area"
    normalization the area is 1.0 within a tolerance, and a tolerance
    that says anything is below 1. *)
Definition unit_area_as_specified : Prop :=
  (exists eps : float,
      (eps <? 1) = true
      /\ forall data : Spectrum,
        strict_eq (Part002.trapezoidalIntegration data) 0 = false ->
        (Math_abs (Part002.trapezoidalIntegration
                     (Part002.normalizeSpectrum data area_method) - 1) <=? eps) = true)
  /\ (forall data : Spectrum,
         strict_eq (Math_max (map intensity data)) 0 = true ->
         Part002.normalizeSpectrum data max_method = data)
  /\ (forall data : Spectrum,
         strict_eq (Part002.trapezoidalIntegration data) 0 = true ->
         Part002.normalizeSpectrum data area_method = data).

Definition flat_zero : Spectrum := [mkPoint 500 0; mkPoint 501 0]%float.

(** Three spectra of nonzero area: intensities of both signs whose
    trapezoids nearly cancel, intensities near the largest Number, and
    intensities at the smallest one. *)
Definition cancelling : Spectrum :=
  [mkPoint 505 (-1.7); mkPoint 514 1.8; mkPoint 517 (-2.1)].

Definition overflowing : Spectrum := [mkPoint 0 1e308; mkPoint 10 1e308].

Definition underflowing : Spectrum := [mkPoint 500 5e-324; mkPoint 500.75 5e-324].

(** *** Numbers as real numbers

    The real number a finite Number stands for, by its IEEE decoding:
    the signed mantissa times two to the exponent.  (Zeros stand for 0;
    the value given to an infinity or a NaN is never used: the statements
    that mention [value] say the Number is finite.) *)

Definition pow2 (e : Z) : R := powerRZ 2 e.

Definition SF2R (x : spec_float) : R :=
  match x with
  | S754_finite s m e => (IZR (cond_Zopp s (Z.pos m)) * pow2 e)%R
  | _ => 0%R
  end.

Definition value (x : float) : R := SF2R (Prim2SF x).

(** *** The spectra a bound on the rounding error is proved for *)

(** A Number of moderate size: between [1e-60] and [1e60]. *)
Definition moderate (x : float) : bool := (1e-60 <=? x) && (x <=? 1e60).

(** The steps [data[i].wavelength - data[i - 1].wavelength], as the loop
    of [trapezoidalIntegration] computes them, are all moderate: the
    wavelengths increase. *)
Fixpoint moderate_steps (prev : SpectralDataPoint float) (rest : Spectrum) : Prop :=
  match rest with
  | [] => True
  | cur :: rest' =>
      moderate (wavelength cur - wavelength prev) = true /\ moderate_steps cur rest'
  end.

(** At most [2^20] points, every intensity zero or moderate, every
    wavelength step moderate. *)
Definition well_scaled (data : Spectrum) : Prop :=
  (Z.of_nat (length data) <= 2 ^ 20)%Z
  /\ Forall (fun d => strict_eq (intensity d) 0 || moderate (intensity d) = true) data
  /\ match data with
     | [] => True
     | first :: rest => moderate_steps first rest
     end.

(** ** Outlier removal as the specification describes it *)

Section ZScore.
Context {P : PowApprox}.

(** The sum of a sequence, added left to right from 0. *)
Definition total (values : list float) : float :=
  fold_left PrimFloat.add values 0.

Definition population_mean (values : list float) : float :=
  total values / of_nat (length values).

Definition population_std (values : list float) : float :=
  let mean := population_mean values in
  Math_sqrt (total (map (fun x => Math_pow (x - mean) 2) values) / of_nat (length values)).

(** [|intensity - mean| <= threshold * std] *)
Definition within (threshold mean std : float) (d : SpectralDataPoint float) : bool :=
  Math_abs (intensity d - mean) <=? threshold * std.

End ZScore.

Inductive subsequence {A : Type} : list A -> list A -> Prop :=
| subsequence_nil : subsequence [] []
| subsequence_keep x l l' : subsequence l l' -> subsequence (x :: l) (x :: l')
| subsequence_drop x l l' : subsequence l l' -> subsequence l (x :: l').

Definition with_spike : Spectrum :=
  [mkPoint 500 1; mkPoint 501 1; mkPoint 502 1; mkPoint 503 1; mkPoint 504 1;
   mkPoint 505 1; mkPoint 506 1; mkPoint 507 1; mkPoint 508 1; mkPoint 509 1;
   mkPoint 510 100].

(** Two intensities so close that the squares of their deviations from
    the mean underflow to 0. *)
Definition tiny_step : Spectrum := [mkPoint 500 0; mkPoint 501 1e-200].

(** ** Spectra sorted by wavelength *)

Definition wavelength_le (a b : SpectralDataPoint float) : Prop :=
  (wavelength a <=? wavelength b) = true.

Definition ascending (data : Spectrum) : Prop := Sorted wavelength_le data.

Definition finite_wavelengths (data : Spectrum) : Prop :=
  Forall (fun d => is_finite (wavelength d) = true) data.

(** The claim as the specification words it. *)
Definition peaks_within_as_specified : Prop :=
  forall data prominence minHeight pk,
    ascending data ->
    In pk (Part002.detectPeaks data prominence minHeight) ->
    (0 <=? fwhm pk) = true
    /\ (Math_min (map wavelength data) <=? position pk) = true
    /\ (position pk <=? Math_max (map wavelength data)) = true.

Definition at_infinity : Spectrum :=
  [mkPoint infinity 0; mkPoint infinity 1; mkPoint infinity 0].

(** ** The two copies of the utility module *)

(** The claim as stated: some runtime makes the two copies agree on every
    function of the list. *)
Definition copies_agree_as_specified : Prop :=
  exists (P : PowApprox) (E : ExpApprox),
    (forall data prominence minHeight,
        Part002.detectPeaks data prominence minHeight
        = ScientificTs.detectPeaks data prominence minHeight)
    /\ (forall data windowLength order,
           Part002.savitzkyGolayFilter data windowLength order
           = ScientificTs.savitzkyGolayFilter data windowLength order)
    /\ (forall x y degree, Part002.polyfit x y degree = ScientificTs.polyfit x y degree)
    /\ (forall data degree,
           Part002.polynomialBaselineCorrection data degree
           = ScientificTs.polynomialBaselineCorrection data degree)
    /\ (forall data method,
           Part002.normalizeSpectrum data method = ScientificTs.normalizeSpectrum data method)
    /\ (forall x amplitude center width,
           Part002.gaussian x amplitude center width
           = ScientificTs.gaussian x amplitude center width)
    /\ (forall x amplitude center width,
           Part002.lorentzian x amplitude center width
           = ScientificTs.lorentzian x amplitude center width)
    /\ (forall observed predicted,
           Part002.calculateRSquared observed predicted
           = ScientificTs.calculateRSquared observed predicted)
    /\ (forall observed predicted,
           Part002.calculateRMSE observed predicted
           = ScientificTs.calculateRMSE observed predicted)
    /\ (forall data, Part002.calculateStatistics data = ScientificTs.calculateStatistics data).

Definition one_peak : Spectrum := [mkPoint 1 0; mkPoint 2 1; mkPoint 3 0].

Definition ramp : Spectrum := [mkPoint 1 1; mkPoint 2 2; mkPoint 3 3].

(** ** Smoothing windows *)

(** The half window of [savitzkyGolayFilter]: an even [windowLength] is
    raised by one, then [Math.floor(windowLength / 2)]. *)
Definition half_window (windowLength : nat) : nat :=
  let windowLength :=
    if Nat.eqb (windowLength mod 2) 0 then (windowLength + 1)%nat else windowLength in
  Nat.div windowLength 2.

Definition ramp5 : Spectrum :=
  [mkPoint 500 1; mkPoint 501 2; mkPoint 502 4; mkPoint 503 8; mkPoint 504 16].

(** ** Numbers that are not negative *)

(** NaN, or at least 0. *)
Definition never_negative (x : float) : Prop :=
  is_nan x = true \/ (0 <=? x) = true.

Definition peak_650 : Spectrum := [mkPoint 640 0.2; mkPoint 650 0.8; mkPoint 660 0.4].

(** ** Monotone spectra *)

Definition never_falls (data : Spectrum) : Prop :=
  forall i, (i + 1 < length data)%nat ->
            (intensity (at_index data i) <=? intensity (at_index data (i + 1))) = true.

Definition never_rises (data : Spectrum) : Prop :=
  forall i, (i + 1 < length data)%nat ->
            (intensity (at_index data (i + 1)) <=? intensity (at_index data i)) = true.

(** ** A spectrum with a missing reading *)

Definition with_gap : Spectrum := [mkPoint 500 1; mkPoint 501 nan; mkPoint 502 2].

(** ** The trapezoid rule in real numbers *)

(** The area under the straight line between two points, every
    coordinate read as the real number it stands for. *)
Definition real_trapezoid (prev cur : SpectralDataPoint float) : R :=
  ((value (wavelength cur) - value (wavelength prev))
   * ((value (intensity cur) + value (intensity prev)) / 2))%R.

Fixpoint real_area_from (prev : SpectralDataPoint float) (rest : Spectrum) : R :=
  match rest with
  | [] => 0%R
  | cur :: rest' => (real_trapezoid prev cur + real_area_from cur rest')%R
  end.

Definition real_area (data : Spectrum) : R :=
  match data with
  | [] => 0%R
  | first :: rest => real_area_from first rest
  end.

Definition moderate_wavelengths (data : Spectrum) : Prop :=
  Forall (fun d => moderate (wavelength d) = true) data.

Definition visible_band : Spectrum :=
  [mkPoint 400 0.1; mkPoint 450.5 0.7; mkPoint 500 0; mkPoint 650.25 1.3; mkPoint 700 0.2].

(** ** The comparison page (src/src/pages/Dashboard.tsx, [ComparePage])

    [calculateComparison] over the spectra of the samples held for
    comparison, and the label the page shows for the intensity ratio. *)

Module ComparePage.

Record Comparison : Type := mkComparison {
  spectralShift : float;
  intensityRatio : float;
  peak1Wavelength : float;
  peak2Wavelength : float
}.

(** [value || 0] on a Number or [undefined]: NaN and both zeros are
    falsy. *)
Definition or_0 (v : option float) : float :=
  match v with
  | Some w => if is_nan w || strict_eq w 0 then 0 else w
  | None => 0
  end.

(** [data.find(d => d.intensity === peak)?.wavelength || 0] *)
Definition peakWavelength (data : Spectrum) (peak : float) : float :=
  or_0 (option_map wavelength (find (fun d => strict_eq (intensity d) peak) data)).

Definition calculateComparison (comparisonData : list Spectrum) : option Comparison :=
  match comparisonData with
  | sample1 :: sample2 :: _ =>
      let peak1 := Math_max (map intensity sample1) in
      let peak2 := Math_max (map intensity sample2) in
      let peak1Wavelength := peakWavelength sample1 peak1 in
      let peak2Wavelength := peakWavelength sample2 peak2 in
      let spectralShift := peak2Wavelength - peak1Wavelength in
      let intensityRatio := peak2 / peak1 in
      Some (mkComparison spectralShift intensityRatio peak1Wavelength peak2Wavelength)
  | _ => None
  end.

Inductive Change := LuminescenceEnhancement | LuminescenceQuenching | NoChange.

(** [ratio > 1 ? 'Luminescence Enhancement' : ratio < 1 ? 'Luminescence
    Quenching' : 'No Change'] *)
Definition change (intensityRatio : float) : Change :=
  if gtb intensityRatio 1 then LuminescenceEnhancement
  else if intensityRatio <? 1 then LuminescenceQuenching
  else NoChange.

End ComparePage.

(** ** The comparison chart (src/unnamed/part_006, [ComparisonChart])

    The unified dataset of the chart: from the smallest to the largest
    wavelength of all samples in 500 steps, each row holding, for every
    sample, the intensity of its point closest to the row's wavelength.
    The loop is run on fuel; the drawing itself is left out. *)

Module ComparisonChart.

(** [{ wavelength: wl, sample_0: ..., sample_1: ... }] *)
Record DataPoint : Type := mkDataPoint {
  row_wavelength : float;
  sample_intensities : list float
}.

Inductive Chart :=
| NoSamplesToCompare
| Rendered (chartData : list DataPoint)
| TypeError                     (* reduce of an empty array with no initial value *)
| StillRunning.                 (* out of fuel *)

(** [sample.data.reduce((prev, curr) => Math.abs(curr.wavelength - wl) <
    Math.abs(prev.wavelength - wl) ? curr : prev)] *)
Definition closest (data : Spectrum) (wl : float) : option (SpectralDataPoint float) :=
  match data with
  | [] => None
  | first :: rest =>
      Some (fold_left
              (fun prev curr =>
                 if Math_abs (wavelength curr - wl) <? Math_abs (wavelength prev - wl)
                 then curr else prev)
              rest first)
  end.

(** [samples.forEach((sample, idx) => ...)] for one row. *)
Fixpoint closest_intensities (samples : list Spectrum) (wl : float) : option (list float) :=
  match samples with
  | [] => Some []
  | sample :: others =>
      match closest sample wl with
      | None => None
      | Some c =>
          match closest_intensities others wl with
          | None => None
          | Some values => Some (intensity c :: values)
          end
      end
  end.

(** [for (let wl = minWavelength; wl <= maxWavelength; wl += step)] *)
Fixpoint loop (fuel : nat) (samples : list Spectrum) (wl maxWavelength step : float)
         (chartData : list DataPoint) : Chart :=
  match fuel with
  | O => StillRunning
  | S fuel' =>
      if wl <=? maxWavelength then
        match closest_intensities samples wl with
        | None => TypeError
        | Some values =>
            loop fuel' samples (wl + step) maxWavelength step
                 (chartData ++ [mkDataPoint wl values])
        end
      else Rendered chartData
  end.

Definition chartData (fuel : nat) (samples : list Spectrum) : Chart :=
  match samples with
  | [] => NoSamplesToCompare
  | _ :: _ =>
      let allWavelengths := flat_map (map wavelength) samples in
      let minWavelength := Math_min allWavelengths in
      let maxWavelength := Math_max allWavelengths in
      let step := (maxWavelength - minWavelength) / 500 in
      loop fuel samples minWavelength maxWavelength step []
  end.

End ComparisonChart.


Definition one_without_data : list Spectrum := [peak_650; []].

(** ** The analysis page with the functions it imports

    [AnalysisPage] imports from ['@/utils/scientific'], the first copy. *)

Definition analyze {P : PowApprox} {E : ExpApprox} {L : LogApprox} :
  Spectrum -> Model -> float -> float -> Outcome :=
  handleAnalyze ScientificTs.detectPeaks ScientificTs.fitGaussian ScientificTs.fitLorentzian
                ScientificTs.calculateRSquared ScientificTs.calculateRMSE
                ScientificTs.calculateStatistics.

Definition two_bands : list Spectrum :=
  [peak_650; [mkPoint 645 0.3; mkPoint 655 0.5]].

(** * Properties

    ** Rounding in the IEEE specification

    Facts about [SpecFloat]'s rounding that the arithmetic lemmas below
    rest on: a right shift divides the mantissa, and rounding a positive
    mantissa keeps its sign and, above the underflow threshold, does not
    reach zero. *)

Module Rounding.
Local Open Scope Z_scope.

Lemma digits2_pos_size m : digits2_pos m = Pos.size m.
Proof. induction m; simpl; congruence. Qed.

Lemma Zdigits2_log2 m : 0 < m -> Zdigits2 m = Z.log2 m + 1.
Proof.
  destruct m as [|m|m]; try lia. intros _. simpl.
  rewrite digits2_pos_size. destruct m; simpl; lia.
Qed.

Lemma shr_1_m r : 0 <= shr_m r -> shr_m (shr_1 r) = shr_m r / 2.
Proof.
  destruct r as [m r s]. simpl. intros H.
  destruct m as [|m|m]; try lia.
  - reflexivity.
  - destruct m; simpl.
    + rewrite Pos2Z.inj_xI. apply Z.div_unique with 1; lia.
    + rewrite Pos2Z.inj_xO. apply Z.div_unique with 0; lia.
    + reflexivity.
Qed.

Lemma iter_shr_m n : forall r,
    0 <= shr_m r -> shr_m (SpecFloat.iter_pos shr_1 n r) = shr_m r / 2 ^ Zpos n.
Proof.
  assert (Hnn: forall a b, 0 <= a -> 0 < b -> 0 <= a / b)
    by (intros; apply Z.div_pos; lia).
  induction n as [n IH|n IH|]; intros r Hr; simpl SpecFloat.iter_pos.
  - assert (Hq: 0 < 2 ^ Zpos n) by (apply Z.pow_pos_nonneg; lia).
    assert (H1: 0 <= shr_m (shr_1 r)) by (rewrite shr_1_m by lia; apply Hnn; lia).
    assert (H2: 0 <= shr_m (SpecFloat.iter_pos shr_1 n (shr_1 r)))
      by (rewrite IH by assumption; apply Hnn; assumption).
    rewrite IH, IH, shr_1_m by assumption.
    rewrite !Z.div_div by lia.
    f_equal. replace (Zpos n~1) with (1 + Zpos n + Zpos n) by lia.
    rewrite !Z.pow_add_r by lia. change (2 ^ 1) with 2. ring.
  - assert (Hq: 0 < 2 ^ Zpos n) by (apply Z.pow_pos_nonneg; lia).
    assert (H2: 0 <= shr_m (SpecFloat.iter_pos shr_1 n r))
      by (rewrite IH by assumption; apply Hnn; assumption).
    rewrite IH, IH by assumption.
    rewrite !Z.div_div by lia.
    f_equal. replace (Zpos n~0) with (Zpos n + Zpos n) by lia.
    rewrite Z.pow_add_r by lia. reflexivity.
  - rewrite shr_1_m by assumption. reflexivity.
Qed.

Lemma shr_record_of_loc_m m l : shr_m (shr_record_of_loc m l) = m.
Proof. destruct l as [|[]]; reflexivity. Qed.

(** A right shift of a non-negative mantissa by [n] places. *)
Lemma shr_spec m l e n :
  0 <= m ->
  shr_m (fst (shr (shr_record_of_loc m l) e n)) = m / 2 ^ Z.max 0 n
  /\ snd (shr (shr_record_of_loc m l) e n) = e + Z.max 0 n.
Proof.
  intros Hm. destruct n as [|n|n]; simpl.
  - rewrite shr_record_of_loc_m, Z.div_1_r. lia.
  - rewrite iter_shr_m by (rewrite shr_record_of_loc_m; assumption).
    rewrite shr_record_of_loc_m. split; reflexivity.
  - rewrite shr_record_of_loc_m, Z.div_1_r. lia.
Qed.

Lemma round_nearest_even_bounds m l :
  m <= round_nearest_even m l <= m + 1.
Proof.
  destruct l as [|[]]; simpl; try lia. destruct (Z.even m); lia.
Qed.

Section Format.
Variables prec emax : Z.
Hypothesis prec_pos : 0 < prec.

Let emin := SpecFloat.emin prec emax.

(** Rounding a non-negative mantissa never changes the sign and never
    gives NaN. *)
Lemma binary_round_aux_sign sx mx ex lx :
  0 <= mx ->
  match binary_round_aux prec emax sx mx ex lx with
  | S754_nan => False
  | S754_zero s | S754_infinity s | S754_finite s _ _ => s = sx
  end.
Proof.
  intros Hm. unfold binary_round_aux, shr_fexp.
  set (n1 := fexp prec emax (Zdigits2 mx + ex) - ex).
  destruct (shr_spec mx lx ex n1 Hm) as [H1 _].
  destruct (shr (shr_record_of_loc mx lx) ex n1) as [r1 e1]. simpl in H1.
  set (m2 := round_nearest_even (shr_m r1) (loc_of_shr_record r1)).
  assert (Hm2: 0 <= m2).
  { pose proof (round_nearest_even_bounds (shr_m r1) (loc_of_shr_record r1)).
    assert (0 <= shr_m r1) by (rewrite H1; apply Z.div_pos; lia). subst m2. lia. }
  set (n2 := fexp prec emax (Zdigits2 m2 + e1) - e1).
  destruct (shr_spec m2 loc_Exact e1 n2 Hm2) as [H2 _].
  destruct (shr (shr_record_of_loc m2 loc_Exact) e1 n2) as [r2 e2]. simpl in H2.
  assert (0 <= shr_m r2) by (rewrite H2; apply Z.div_pos; lia).
  destruct (shr_m r2) as [|q|q]; try lia; try reflexivity.
  destruct (e2 <=? emax - prec); reflexivity.
Qed.

(** A positive mantissa above the underflow threshold does not round
    to zero. *)
Lemma shift_keeps_positive m e :
  0 < m -> emin < Zdigits2 m + e ->
  let n := fexp prec emax (Zdigits2 m + e) - e in
  0 < m / 2 ^ Z.max 0 n
  /\ Zdigits2 m + e <= Zdigits2 (m / 2 ^ Z.max 0 n) + (e + Z.max 0 n).
Proof.
  intros Hm He n.
  assert (Hn: Z.max 0 n <= Z.log2 m).
  { subst n. unfold fexp. unfold emin in He. rewrite Zdigits2_log2 in * by assumption.
    pose proof (Z.log2_nonneg m). lia. }
  assert (Hp: 2 ^ Z.max 0 n <= m).
  { apply Z.log2_le_pow2; [assumption|exact Hn]. }
  assert (Hq: 0 < m / 2 ^ Z.max 0 n).
  { apply Z.div_str_pos. lia. }
  split; [exact Hq|].
  rewrite !Zdigits2_log2 by assumption.
  rewrite <- Z.shiftr_div_pow2 by lia.
  rewrite Z.log2_shiftr by assumption. lia.
Qed.

Lemma Zdigits2_mono a b : 0 < a -> a <= b -> Zdigits2 a <= Zdigits2 b.
Proof.
  intros Ha Hab. rewrite !Zdigits2_log2 by lia.
  pose proof (Z.log2_le_mono a b Hab). lia.
Qed.

Lemma binary_round_aux_pos sx mx ex lx :
  0 < mx -> emin < Zdigits2 mx + ex ->
  match binary_round_aux prec emax sx mx ex lx with
  | S754_nan | S754_zero _ => False
  | S754_infinity s | S754_finite s _ _ => s = sx
  end.
Proof.
  intros Hm He. unfold binary_round_aux, shr_fexp.
  destruct (shift_keeps_positive mx ex Hm He) as [Hq Hd].
  set (n1 := fexp prec emax (Zdigits2 mx + ex) - ex) in *.
  destruct (shr_spec mx lx ex n1) as [H1 H1e]; [lia|].
  destruct (shr (shr_record_of_loc mx lx) ex n1) as [r1 e1].
  simpl in H1, H1e. rewrite <- H1, <- H1e in *.
  set (m2 := round_nearest_even (shr_m r1) (loc_of_shr_record r1)).
  pose proof (round_nearest_even_bounds (shr_m r1) (loc_of_shr_record r1)) as Hb.
  fold m2 in Hb.
  assert (Hm2: 0 < m2) by lia.
  assert (He2: emin < Zdigits2 m2 + e1).
  { pose proof (Zdigits2_mono (shr_m r1) m2 Hq (proj1 Hb)). lia. }
  destruct (shift_keeps_positive m2 e1 Hm2 He2) as [Hq2 _].
  set (n2 := fexp prec emax (Zdigits2 m2 + e1) - e1) in *.
  destruct (shr_spec m2 loc_Exact e1 n2) as [H2 _]; [lia|].
  destruct (shr (shr_record_of_loc m2 loc_Exact) e1 n2) as [r2 e2]. simpl in H2.
  rewrite <- H2 in Hq2.
  destruct (shr_m r2) as [|q|q]; try lia.
  destruct (e2 <=? emax - prec); reflexivity.
Qed.
End Format.
End Rounding.

(** ** The order of binary64 values *)

Module Order.
Local Open Scope Z_scope.

(** The order of non-NaN values, as a lexicographic key. *)
Definition key (x : spec_float) : Z * Z * Z :=
  match x with
  | S754_zero _ | S754_nan => (0, 0, 0)
  | S754_infinity false => (2, 0, 0)
  | S754_infinity true => (-2, 0, 0)
  | S754_finite false m e => (1, e, Zpos m)
  | S754_finite true m e => (-1, - e, Zneg m)
  end.

Definition lex_le (a b : Z * Z * Z) : Prop :=
  let '(a1, a2, a3) := a in
  let '(b1, b2, b3) := b in
  a1 < b1 \/ (a1 = b1 /\ (a2 < b2 \/ (a2 = b2 /\ a3 <= b3))).

Definition lex_lt (a b : Z * Z * Z) : Prop :=
  let '(a1, a2, a3) := a in
  let '(b1, b2, b3) := b in
  a1 < b1 \/ (a1 = b1 /\ (a2 < b2 \/ (a2 = b2 /\ a3 < b3))).

Ltac cmp_cases :=
  repeat match goal with
    | |- context [Z.compare ?a ?b] => destruct (Z.compare_spec a b)
    | |- context [PosDef.Pos.compare_cont Eq ?a ?b] =>
        change (PosDef.Pos.compare_cont Eq a b) with (Pos.compare a b);
        destruct (Pos.compare_spec a b)
    end.

Lemma SFleb_key a b :
  a <> S754_nan -> b <> S754_nan ->
  (SFleb a b = true <-> lex_le (key a) (key b)).
Proof.
  intros Ha Hb. unfold SFleb.
  destruct a as [sa|sa| |sa ma ea]; try congruence;
    destruct b as [sb|sb| |sb mb eb]; try congruence;
    try destruct sa; try destruct sb; simpl; cmp_cases; simpl;
    split; intros Hle; try reflexivity; try discriminate; try lia.
Qed.

Lemma SFltb_key a b :
  a <> S754_nan -> b <> S754_nan ->
  (SFltb a b = true <-> lex_lt (key a) (key b)).
Proof.
  intros Ha Hb. unfold SFltb.
  destruct a as [sa|sa| |sa ma ea]; try congruence;
    destruct b as [sb|sb| |sb mb eb]; try congruence;
    try destruct sa; try destruct sb; simpl; cmp_cases; simpl;
    split; intros Hle; try reflexivity; try discriminate; try lia.
Qed.

Lemma SFleb_not_nan a b : SFleb a b = true -> a <> S754_nan /\ b <> S754_nan.
Proof.
  unfold SFleb. destruct a, b; simpl; intros H; split; congruence.
Qed.

Lemma SFltb_not_nan a b : SFltb a b = true -> a <> S754_nan /\ b <> S754_nan.
Proof.
  unfold SFltb. destruct a, b; simpl; intros H; split; congruence.
Qed.
Lemma SFcompare_Eq_sym x y : SFcompare x y = Some Eq -> SFcompare y x = Some Eq.
Proof.
  destruct x as [sx|sx| |sx mx ex], y as [sy|sy| |sy my ey]; simpl;
    try destruct sx; try destruct sy; try discriminate; try reflexivity.
  - destruct (Z.compare_spec ex ey); try discriminate. subst.
    change (PosDef.Pos.compare_cont Eq mx my) with (Pos.compare mx my).
    destruct (Pos.compare_spec mx my); try discriminate. subst.
    rewrite Z.compare_refl.
    change (PosDef.Pos.compare_cont Eq my my) with (Pos.compare my my).
    rewrite Pos.compare_refl. reflexivity.
  - destruct (Z.compare_spec ex ey); try discriminate. subst.
    change (PosDef.Pos.compare_cont Eq mx my) with (Pos.compare mx my).
    destruct (Pos.compare_spec mx my); try discriminate. subst.
    rewrite Z.compare_refl.
    change (PosDef.Pos.compare_cont Eq my my) with (Pos.compare my my).
    rewrite Pos.compare_refl. reflexivity.
Qed.

End Order.

(** ** binary64 arithmetic *)

Module Binary64.
Import Rounding Order.
Local Open Scope float_scope.

(** What a Number is, read through its IEEE decoding. *)
Lemma Prim2SF_zero : Prim2SF 0 = S754_zero false.
Proof. reflexivity. Qed.

Lemma SFcompare_refl x : x <> S754_nan -> SFcompare x x = Some Eq.
Proof.
  destruct x as [s|s| |s m e]; intros H; try congruence; simpl.
  - reflexivity.
  - destruct s; reflexivity.
  - rewrite Z.compare_refl.
    change (PosDef.Pos.compare_cont Eq m m) with (Pos.compare m m).
    rewrite Pos.compare_refl. destruct s; reflexivity.
Qed.

Lemma is_nan_spec x : is_nan x = true <-> Prim2SF x = S754_nan.
Proof.
  unfold is_nan. rewrite FloatAxioms.eqb_spec. unfold SFeqb. split.
  - intros H. destruct (Prim2SF x) eqn:Hx; try reflexivity;
      rewrite SFcompare_refl in H by discriminate; discriminate H.
  - intros ->. reflexivity.
Qed.

Lemma is_finite_spec x :
  is_finite x = true ->
  (exists s, Prim2SF x = S754_zero s) \/ (exists s m e, Prim2SF x = S754_finite s m e).
Proof.
  unfold is_finite. intros H. apply negb_true_iff, orb_false_iff in H.
  destruct H as [Hn Hi].
  unfold is_infinity in Hi. rewrite FloatAxioms.eqb_spec, abs_spec in Hi.
  destruct (Prim2SF x) as [s|s| |s m e] eqn:Hx.
  - left; eauto.
  - discriminate Hi.
  - assert (is_nan x = true) by (apply is_nan_spec; assumption). congruence.
  - right; eauto.
Qed.

Lemma sub_diag x : is_finite x = true -> x - x = 0.
Proof.
  intros H. apply Prim2SF_inj. rewrite sub_spec, Prim2SF_zero.
  destruct (is_finite_spec x H) as [[s ->]|[s [m [e ->]]]].
  - destruct s; reflexivity.
  - unfold SF64sub, SFsub. rewrite Z.sub_diag. reflexivity.
Qed.

Lemma zero_div_pos y : (0 <? y) = true -> 0 / y = 0.
Proof.
  rewrite ltb_spec. intros H. apply Prim2SF_inj.
  rewrite div_spec, Prim2SF_zero in *.
  destruct (Prim2SF y) as [s|s| |s m e]; simpl in *; try discriminate.
  - destruct s; [discriminate|reflexivity].
  - destruct s; [discriminate|reflexivity].
Qed.


Lemma is_nan_false x : is_nan x = false <-> Prim2SF x <> S754_nan.
Proof.
  rewrite <- is_nan_spec. destruct (is_nan x); split; congruence.
Qed.

Lemma is_finite_not_nan x : is_finite x = true -> is_nan x = false.
Proof.
  unfold is_finite. intros H. apply negb_true_iff, orb_false_iff in H. tauto.
Qed.

Lemma leb_not_nan a b : (a <=? b) = true -> is_nan a = false /\ is_nan b = false.
Proof.
  rewrite leb_spec, !is_nan_false. apply SFleb_not_nan.
Qed.

Lemma ltb_not_nan a b : (a <? b) = true -> is_nan a = false /\ is_nan b = false.
Proof.
  rewrite ltb_spec, !is_nan_false. apply SFltb_not_nan.
Qed.

Lemma leb_key a b :
  is_nan a = false -> is_nan b = false ->
  ((a <=? b) = true <-> lex_le (key (Prim2SF a)) (key (Prim2SF b))).
Proof.
  rewrite !is_nan_false, leb_spec. apply SFleb_key.
Qed.

Lemma ltb_key a b :
  is_nan a = false -> is_nan b = false ->
  ((a <? b) = true <-> lex_lt (key (Prim2SF a)) (key (Prim2SF b))).
Proof.
  rewrite !is_nan_false, ltb_spec. apply SFltb_key.
Qed.

Ltac by_keys :=
  repeat match goal with
    | H : (_ <=? _) = true |- _ => apply leb_key in H; [|assumption|assumption]
    | H : (_ <? _) = true |- _ => apply ltb_key in H; [|assumption|assumption]
    | |- (_ <=? _) = true => apply leb_key; [assumption|assumption|]
    | |- (_ <? _) = true => apply ltb_key; [assumption|assumption|]
    end;
  repeat match goal with
    | |- context [key ?x] => destruct (key x) as [[? ?] ?]
    | H : context [key ?x] |- _ => destruct (key x) as [[? ?] ?]
    end;
  unfold lex_le, lex_lt in *; lia.

Lemma leb_refl a : is_nan a = false -> (a <=? a) = true.
Proof. intros Ha. by_keys. Qed.

Lemma leb_trans a b c : (a <=? b) = true -> (b <=? c) = true -> (a <=? c) = true.
Proof.
  intros H1 H2.
  destruct (leb_not_nan _ _ H1) as [Ha Hb], (leb_not_nan _ _ H2) as [_ Hc].
  by_keys.
Qed.

Lemma ltb_leb a b : (a <? b) = true -> (a <=? b) = true.
Proof.
  intros H. destruct (ltb_not_nan _ _ H) as [Ha Hb]. by_keys.
Qed.

Lemma not_ltb_leb a b :
  is_nan a = false -> is_nan b = false -> (a <? b) = false -> (b <=? a) = true.
Proof.
  intros Ha Hb H.
  assert (Hn: ~ lex_lt (key (Prim2SF a)) (key (Prim2SF b))).
  { intros Hlt. apply ltb_key in Hlt; congruence. }
  apply leb_key; try assumption.
  destruct (key (Prim2SF a)) as [[? ?] ?], (key (Prim2SF b)) as [[? ?] ?].
  unfold lex_le, lex_lt in *. lia.
Qed.

(** An array length is a positive Number. *)
Lemma of_nat_pos n :
  (0 < n)%nat -> (Z.of_nat n < 2 ^ 63)%Z -> (0 <? of_nat n) = true.
Proof.
  intros Hn Hb. rewrite ltb_spec, Prim2SF_zero. unfold of_nat.
  rewrite of_uint63_spec, Uint63.of_Z_spec.
  rewrite Z.mod_small by (change Uint63.wB with (2 ^ 63)%Z; lia).
  destruct (Z.of_nat n) as [|q|q] eqn:Hq; try lia.
  unfold binary_normalize, binary_round.
  destruct (shl_align q 0 (fexp prec emax (Z.pos (digits2_pos q) + 0))) as [mz ez] eqn:Hs.
  assert (He: (SpecFloat.emin prec emax < Zdigits2 (Z.pos mz) + ez)%Z).
  { unfold shl_align in Hs. simpl Zdigits2.
    pose proof (Pos2Z.is_pos (digits2_pos mz)).
    destruct (fexp prec emax (Z.pos (digits2_pos q) + 0) - 0)%Z eqn:Hd;
      inversion Hs; subst; clear Hs.
    - pose proof (Pos2Z.is_pos (digits2_pos mz)). unfold SpecFloat.emin, prec, emax. lia.
    - pose proof (Pos2Z.is_pos (digits2_pos mz)). unfold SpecFloat.emin, prec, emax. lia.
    - unfold fexp. unfold SpecFloat.emin, prec, emax in *. lia. }
  pose proof (binary_round_aux_pos prec emax (eq_refl : (0 < prec)%Z)
                false (Z.pos mz) ez loc_Exact (Pos2Z.is_pos mz) He) as Hr.
  destruct (binary_round_aux prec emax false (Z.pos mz) ez loc_Exact);
    try contradiction; subst; reflexivity.
Qed.

Lemma zero_div_length n :
  (0 < n)%nat -> (Z.of_nat n < 2 ^ 63)%Z -> 0 / of_nat n = 0.
Proof. intros. apply zero_div_pos, of_nat_pos; assumption. Qed.


(** A finite binary64 value has at most 53 mantissa bits, and exactly 53
    above the smallest exponent. *)
Lemma canonical x s m e :
  Prim2SF x = S754_finite s m e ->
  (Z.log2 (Z.pos m) <= 52 /\ -1074 <= e /\ (-1074 < e -> Z.log2 (Z.pos m) = 52))%Z.
Proof.
  intros Hx. pose proof (Prim2SF_valid x) as Hv. rewrite Hx in Hv.
  unfold SpecFloat.valid_binary, bounded, canonical_mantissa in Hv.
  apply andb_true_iff in Hv. destruct Hv as [Hc _].
  apply Z.eqb_eq in Hc. unfold fexp, SpecFloat.emin, prec, emax in Hc.
  change (Z.pos (digits2_pos m)) with (Zdigits2 (Z.pos m)) in Hc.
  rewrite Zdigits2_log2 in Hc by lia. lia.
Qed.

Lemma shl_align_value m e ez :
  (ez <= e)%Z -> Z.pos (fst (shl_align m e ez)) = (Z.pos m * 2 ^ (e - ez))%Z.
Proof.
  intros H. unfold shl_align.
  destruct (ez - e)%Z as [|d|d] eqn:Hd; try lia; simpl fst.
  - replace (e - ez)%Z with 0%Z by lia. lia.
  - replace (e - ez)%Z with (Z.pos d) by lia.
    change (Pos.iter xO m d) with (shift_pos d m).
    rewrite shift_pos_correct. change (Z.pow_pos 2 d) with (2 ^ Z.pos d)%Z. lia.
Qed.

Definition nonneg (x : spec_float) : Prop :=
  match x with
  | S754_zero _ | S754_finite false _ _ | S754_infinity false => True
  | _ => False
  end.

Lemma nonneg_leb x : nonneg (Prim2SF x) -> (0 <=? x) = true.
Proof.
  rewrite leb_spec, Prim2SF_zero.
  destruct (Prim2SF x) as [s|[]| |[] m e]; simpl; intros H; try contradiction; reflexivity.
Qed.

Lemma binary_normalize_nonneg z e :
  (0 <= z)%Z -> nonneg (binary_normalize prec emax z e false).
Proof.
  intros Hz. destruct z as [|q|q]; try lia; simpl; [exact I|].
  unfold binary_round.
  destruct (shl_align q e (fexp prec emax (Z.pos (digits2_pos q) + e))) as [mz ez].
  pose proof (binary_round_aux_sign prec emax false (Z.pos mz) ez loc_Exact
                (Pos2Z.is_nonneg mz)) as Hr.
  destruct (binary_round_aux prec emax false (Z.pos mz) ez loc_Exact);
    try contradiction; subst; exact I.
Qed.

(** Two finite values of increasing exponent, by their aligned mantissas. *)
Lemma aligned_lt ma ea mb eb :
  (Z.log2 (Z.pos ma) <= 52)%Z -> (Z.log2 (Z.pos mb) = 52)%Z -> (ea < eb)%Z ->
  (Z.pos ma < Z.pos mb * 2 ^ (eb - ea))%Z.
Proof.
  intros Ha Hb He.
  assert (H1: (Z.pos ma < 2 ^ 53)%Z) by (apply Z.log2_lt_pow2; lia).
  assert (H2: (2 ^ 52 <= Z.pos mb)%Z) by (apply Z.log2_le_pow2; lia).
  assert (H3: (2 ^ 1 <= 2 ^ (eb - ea))%Z) by (apply Z.pow_le_mono_r; lia).
  change (2 ^ 1)%Z with 2%Z in H3.
  assert (H4: (2 ^ 52 * 2 <= Z.pos mb * 2 ^ (eb - ea))%Z)
    by (apply Z.mul_le_mono_nonneg; lia).
  change (2 ^ 52 * 2)%Z with (2 ^ 53)%Z in H4. lia.
Qed.

(** The difference of two ordered finite Numbers is not negative. *)
Lemma sub_nonneg a b :
  is_finite a = true -> is_finite b = true -> (a <=? b) = true -> (0 <=? b - a) = true.
Proof.
  intros Fa Fb Hab. apply nonneg_leb. rewrite sub_spec.
  pose proof (is_finite_not_nan a Fa) as Na.
  pose proof (is_finite_not_nan b Fb) as Nb.
  apply leb_key in Hab; try assumption.
  destruct (is_finite_spec a Fa) as [[sa Ha]|[sa [ma [ea Ha]]]];
    destruct (is_finite_spec b Fb) as [[sb Hb]|[sb [mb [eb Hb]]]];
    rewrite Ha, Hb in *; simpl in Hab.
  - destruct sa, sb; exact I.
  - destruct sb; simpl in Hab; [lia|exact I].
  - destruct sa; simpl in Hab; [|lia]. destruct sb; exact I.
  - clear Na Nb Fa Fb. destruct (canonical a _ _ _ Ha) as [La [Ea Ca]].
    destruct (canonical b _ _ _ Hb) as [Lb [Eb Cb]].
    unfold SF64sub, SFsub. apply binary_normalize_nonneg.
    rewrite !shl_align_value by lia.
    assert (P1: (0 < Z.pos ma * 2 ^ (ea - Z.min eb ea))%Z)
      by (apply Z.mul_pos_pos; [lia|apply Z.pow_pos_nonneg; lia]).
    assert (P2: (0 < Z.pos mb * 2 ^ (eb - Z.min eb ea))%Z)
      by (apply Z.mul_pos_pos; [lia|apply Z.pow_pos_nonneg; lia]).
    destruct sa, sb; simpl in Hab; cbv [cond_Zopp].
    + (* both negative *)
      destruct (Z.compare_spec ea eb) as [He|He|He]; try lia.
      * subst eb. rewrite Z.min_id, Z.sub_diag, Z.pow_0_r in *. lia.
      * rewrite Z.min_l, Z.sub_diag, Z.pow_0_r in * by lia.
        pose proof (aligned_lt mb eb ma ea Lb (Ca ltac:(lia)) He). lia.
    + lia.
    + lia.
    + (* both positive *)
      destruct (Z.compare_spec ea eb) as [He|He|He]; try lia.
      * subst eb. rewrite Z.min_id, Z.sub_diag, Z.pow_0_r in *. lia.
      * rewrite Z.min_r, Z.sub_diag, Z.pow_0_r in * by lia.
        pose proof (aligned_lt ma ea mb eb La (Cb ltac:(lia)) He). lia.
Qed.


Definition numbers (values : list float) : Prop :=
  Forall (fun v => is_nan v = false) values.

Lemma max_from_spec values : forall highest,
    is_nan highest = false -> numbers values ->
    is_nan (max_from highest values) = false
    /\ (highest <=? max_from highest values) = true
    /\ Forall (fun v => (v <=? max_from highest values) = true) values.
Proof.
  induction values as [|v rest IH]; intros highest Hh Hv; simpl.
  - repeat split; [assumption|apply leb_refl; assumption|constructor].
  - inversion Hv as [|? ? Nv Nrest]; subst. rewrite Nv.
    set (h1 := if Leibniz.eqb v 0 && Leibniz.eqb highest neg_zero then 0 else highest).
    assert (H1: is_nan h1 = false /\ (highest <=? h1) = true).
    { subst h1. destruct (Leibniz.eqb v 0 && Leibniz.eqb highest neg_zero) eqn:Hz.
      - apply andb_true_iff in Hz. destruct Hz as [_ Hz].
        apply Leibniz.eqb_spec in Hz. subst highest. split; reflexivity.
      - split; [assumption|apply leb_refl; assumption]. }
    destruct H1 as [N1 L1].
    set (h2 := if gtb v h1 then v else h1).
    assert (H2: is_nan h2 = false /\ (h1 <=? h2) = true /\ (v <=? h2) = true).
    { subst h2. unfold gtb. destruct (h1 <? v) eqn:Hc.
      - repeat split; [assumption|apply ltb_leb; assumption|apply leb_refl; assumption].
      - repeat split; [assumption|apply leb_refl; assumption|].
        apply not_ltb_leb; assumption. }
    destruct H2 as [N2 [L2 L3]].
    destruct (IH h2 N2 Nrest) as [N3 [L4 L5]].
    repeat split; try assumption.
    + eapply leb_trans; [exact L1|]. eapply leb_trans; [exact L2|exact L4].
    + constructor; [eapply leb_trans; [exact L3|exact L4]|assumption].
Qed.

Lemma min_from_spec values : forall lowest,
    is_nan lowest = false -> numbers values ->
    is_nan (min_from lowest values) = false
    /\ (min_from lowest values <=? lowest) = true
    /\ Forall (fun v => (min_from lowest values <=? v) = true) values.
Proof.
  induction values as [|v rest IH]; intros lowest Hh Hv; simpl.
  - repeat split; [assumption|apply leb_refl; assumption|constructor].
  - inversion Hv as [|? ? Nv Nrest]; subst. rewrite Nv.
    set (l1 := if Leibniz.eqb v neg_zero && Leibniz.eqb lowest 0 then neg_zero else lowest).
    assert (H1: is_nan l1 = false /\ (l1 <=? lowest) = true).
    { subst l1. destruct (Leibniz.eqb v neg_zero && Leibniz.eqb lowest 0) eqn:Hz.
      - apply andb_true_iff in Hz. destruct Hz as [_ Hz].
        apply Leibniz.eqb_spec in Hz. subst lowest. split; reflexivity.
      - split; [assumption|apply leb_refl; assumption]. }
    destruct H1 as [N1 L1].
    set (l2 := if v <? l1 then v else l1).
    assert (H2: is_nan l2 = false /\ (l2 <=? l1) = true /\ (l2 <=? v) = true).
    { subst l2. destruct (v <? l1) eqn:Hc.
      - repeat split; [assumption|apply ltb_leb; assumption|apply leb_refl; assumption].
      - repeat split; [assumption|apply leb_refl; assumption|].
        apply not_ltb_leb; assumption. }
    destruct H2 as [N2 [L2 L3]].
    destruct (IH l2 N2 Nrest) as [N3 [L4 L5]].
    repeat split; try assumption.
    + eapply leb_trans; [exact L4|]. eapply leb_trans; [exact L2|exact L1].
    + constructor; [eapply leb_trans; [exact L4|exact L3]|assumption].
Qed.

(** Every number of a NaN-free list lies between its [Math.min] and its
    [Math.max]. *)
Lemma Math_min_max_bounds values v :
  numbers values -> In v values ->
  (Math_min values <=? v) = true /\ (v <=? Math_max values) = true.
Proof.
  intros Hn Hin. unfold Math_min, Math_max.
  destruct (min_from_spec values infinity eq_refl Hn) as [_ [_ Hmin]].
  destruct (max_from_spec values neg_infinity eq_refl Hn) as [_ [_ Hmax]].
  rewrite Forall_forall in Hmin, Hmax. split; auto.
Qed.

(** Two Numbers that [===] tells apart are different. *)
Lemma strict_eq_false_neq (a b : float) :
  strict_eq a a = true -> strict_eq a b = false -> a <> b.
Proof. intros Ha Hab Heq. subst b. congruence. Qed.

Lemma positive_not_zero y : (0 <? y) = true -> strict_eq y 0 = false.
Proof.
  unfold strict_eq. rewrite ltb_spec, FloatAxioms.eqb_spec, Prim2SF_zero.
  unfold SFltb, SFeqb.
  destruct (Prim2SF y) as [s|[]| |[] m e]; simpl; intros H; try discriminate; reflexivity.
Qed.

Lemma strict_eq_sym a b : strict_eq a b = strict_eq b a.
Proof.
  unfold strict_eq. rewrite !FloatAxioms.eqb_spec. unfold SFeqb.
  destruct (SFcompare (Prim2SF a) (Prim2SF b)) as [[]|] eqn:H1;
    destruct (SFcompare (Prim2SF b) (Prim2SF a)) as [[]|] eqn:H2; try reflexivity;
    try (apply SFcompare_Eq_sym in H1; congruence);
    try (apply SFcompare_Eq_sym in H2; congruence).
Qed.

(** [a >= b] is [a > b || a === b]. *)
Lemma geb_gtb_or_eq a b : geb a b = gtb a b || strict_eq a b.
Proof.
  rewrite (strict_eq_sym a b). unfold geb, gtb, strict_eq.
  rewrite leb_spec, ltb_spec, FloatAxioms.eqb_spec. unfold SFleb, SFltb, SFeqb.
  destruct (SFcompare (Prim2SF b) (Prim2SF a)) as [[]|]; reflexivity.
Qed.

End Binary64.

(** ** Arrays *)

Module Arrays.

Lemma subsequence_refl {A : Type} (l : list A) : subsequence l l.
Proof. induction l; constructor; assumption. Qed.

Lemma filter_subsequence {A : Type} (keep : A -> bool) (l : list A) :
  subsequence (filter keep l) l.
Proof.
  induction l as [|x l IH]; simpl; [constructor|].
  destruct (keep x); constructor; exact IH.
Qed.

Lemma subsequence_length {A : Type} (l l' : list A) :
  subsequence l l' -> (length l <= length l')%nat.
Proof. induction 1; simpl; lia. Qed.

Lemma subsequence_incl {A : Type} (l l' : list A) :
  subsequence l l' -> incl l l'.
Proof.
  induction 1 as [|x l l' _ IH|x l l' _ IH]; intros y Hy.
  - exact Hy.
  - destruct Hy as [->|Hy]; [left; reflexivity|right; apply IH, Hy].
  - right. apply IH, Hy.
Qed.

Section Reduce.
Context {A B : Type}.

(** A [reduce] whose callback ignores the index is a left fold. *)
Lemma reduce_from_fold (f : B -> A -> B) (a : list A) : forall i acc,
    reduce_from (fun acc v _ => f acc v) i a acc = fold_left f a acc.
Proof.
  induction a as [|v rest IH]; intros i acc; simpl; [reflexivity|apply IH].
Qed.

Lemma fold_left_map_sum (g : A -> float) (a : list A) : forall acc,
    fold_left PrimFloat.add (map g a) acc = fold_left (fun s v => s + g v) a acc.
Proof.
  induction a as [|v rest IH]; intros acc; simpl; [reflexivity|apply IH].
Qed.
End Reduce.

Lemma get_middle before v rest : get (before ++ v :: rest) (length before) = v.
Proof.
  unfold get. rewrite app_nth2, Nat.sub_diag by lia. reflexivity.
Qed.

End Arrays.

(** ** Rounding errors

    Every operation of binary64 on Numbers in the normal range returns
    the exact result times a factor between [1 - 2^-52] and [1 + 2^-52]
    (the rounding is to nearest, which is within [2^-53]; the bound used
    here needs no case on the rounding direction).  The lemmas follow the
    loop of [trapezoidalIntegration] with these factors. *)

Module Reals64.
Import Binary64.
Local Open Scope R_scope.

(** *** Powers of two *)

Lemma pow2_pos e : 0 < pow2 e.
Proof. apply powerRZ_lt. lra. Qed.

Lemma pow2_add a b : pow2 (a + b) = pow2 a * pow2 b.
Proof. apply powerRZ_add. lra. Qed.

Lemma pow2_IZR k : (0 <= k)%Z -> pow2 k = IZR (2 ^ k).
Proof.
  intros Hk. unfold pow2. rewrite <- (Z2Nat.id k Hk) at 1.
  rewrite <- pow_powerRZ. rewrite pow_IZR, Z2Nat.id by exact Hk. reflexivity.
Qed.

Lemma pow2_ge_1 k : (0 <= k)%Z -> 1 <= pow2 k.
Proof.
  intros Hk. rewrite pow2_IZR by exact Hk. apply IZR_le.
  pose proof (Z.pow_pos_nonneg 2 k ltac:(lia) Hk). lia.
Qed.

Lemma pow2_le a b : (a <= b)%Z -> pow2 a <= pow2 b.
Proof.
  intros H. replace b with (a + (b - a))%Z by lia. rewrite pow2_add.
  pose proof (pow2_pos a). pose proof (pow2_ge_1 (b - a) ltac:(lia)). nra.
Qed.

Lemma pow2_1 : pow2 1 = 2.
Proof. unfold pow2. simpl. lra. Qed.

Lemma pow2_lt a b : (a < b)%Z -> pow2 a < pow2 b.
Proof.
  intros H. replace b with (a + 1 + (b - a - 1))%Z by lia. rewrite !pow2_add.
  pose proof (pow2_pos a). pose proof (pow2_ge_1 (b - a - 1) ltac:(lia)).
  rewrite pow2_1. nra.
Qed.

Lemma pow2_lt_inv a b : pow2 a < pow2 b -> (a < b)%Z.
Proof.
  intros H. destruct (Z_lt_le_dec a b) as [?|Hle]; [assumption|].
  pose proof (pow2_le b a Hle). lra.
Qed.

Lemma pow2_le_inv a b : pow2 a <= pow2 b -> (a <= b)%Z.
Proof.
  intros H. destruct (Z_le_gt_dec a b) as [?|Hgt]; [assumption|].
  pose proof (pow2_lt b a ltac:(lia)). lra.
Qed.

(** A mantissa of [d] binary digits lies in [[2^(d-1), 2^d)]. *)
Lemma digits_bounds m : (0 < m)%Z -> (2 ^ (Zdigits2 m - 1) <= m < 2 ^ Zdigits2 m)%Z.
Proof.
  intros Hm. rewrite Rounding.Zdigits2_log2 by exact Hm.
  replace (Z.log2 m + 1 - 1)%Z with (Z.log2 m) by lia.
  pose proof (Z.log2_spec m Hm) as H. unfold Z.succ in H. exact H.
Qed.

Lemma digits_unique m d : (2 ^ (d - 1) <= m < 2 ^ d)%Z -> (0 < d)%Z -> Zdigits2 m = d.
Proof.
  intros H Hd.
  assert (Hm: (0 < m)%Z) by (pose proof (Z.pow_pos_nonneg 2 (d - 1) ltac:(lia) ltac:(lia)); lia).
  rewrite Rounding.Zdigits2_log2 by exact Hm.
  assert (Z.log2 m = d - 1)%Z; [|lia].
  apply Z.log2_unique; [lia|]. replace (Z.succ (d - 1)) with d by lia. exact H.
Qed.

(** *** One rounding *)

(** Rounding a mantissa of at least 53 digits whose value is in the
    normal range: the result is the mantissa cut to 53 digits, or the
    next one up. *)
Lemma binary_round_aux_normal s mx ex lx :
  (2 ^ 52 <= mx)%Z ->
  (-1020 <= Zdigits2 mx + ex <= 1023)%Z ->
  let N := (Zdigits2 mx - 53)%Z in
  let m1 := (mx / 2 ^ N)%Z in
  exists m2 m3 e3,
    binary_round_aux prec emax s mx ex lx = S754_finite s m3 e3
    /\ (m1 <= m2 <= m1 + 1)%Z
    /\ (2 ^ 52 <= m1 < 2 ^ 53)%Z
    /\ (0 <= N)%Z
    /\ (-1074 < e3)%Z
    /\ ((Z.pos m3 = m2 /\ e3 = ex + N) \/ (2 * Z.pos m3 = m2 /\ e3 = ex + N + 1))%Z.
Proof.
  intros Hmx Hr N m1.
  assert (Hpos: (0 < mx)%Z) by (change (2 ^ 52)%Z with 4503599627370496%Z in Hmx; lia).
  pose proof (digits_bounds mx Hpos) as Hd.
  assert (HN: (0 <= N)%Z).
  { subst N. assert (52 < Zdigits2 mx)%Z; [|lia].
    apply (Z.pow_lt_mono_r_iff 2); [lia| |lia].
    pose proof (Pos2Z.is_nonneg 1). destruct (Zdigits2 mx) eqn:E; simpl in *; lia. }
  assert (Hm1: (2 ^ 52 <= m1 < 2 ^ 53)%Z).
  { subst m1. assert (Hp: (0 < 2 ^ N)%Z) by (apply Z.pow_pos_nonneg; lia). split.
    - apply Z.div_le_lower_bound; [exact Hp|].
      rewrite <- Z.pow_add_r by lia.
      replace (N + 52)%Z with (Zdigits2 mx - 1)%Z by (subst N; lia). lia.
    - apply Z.div_lt_upper_bound; [exact Hp|].
      rewrite <- Z.pow_add_r by lia.
      replace (N + 53)%Z with (Zdigits2 mx) by (subst N; lia). lia. }
  unfold binary_round_aux, shr_fexp.
  set (n1 := (fexp prec emax (Zdigits2 mx + ex) - ex)%Z).
  assert (Hn1: n1 = N) by (subst n1 N; unfold fexp, SpecFloat.emin, prec, emax; lia).
  destruct (Rounding.shr_spec mx lx ex n1 ltac:(lia)) as [H1 H1e].
  destruct (shr (shr_record_of_loc mx lx) ex n1) as [r1 e1]. simpl in H1, H1e.
  rewrite Hn1, Z.max_r in H1, H1e by lia. fold m1 in H1.
  set (m2 := round_nearest_even (shr_m r1) (loc_of_shr_record r1)).
  pose proof (Rounding.round_nearest_even_bounds (shr_m r1) (loc_of_shr_record r1)) as Hb.
  fold m2 in Hb. rewrite H1 in Hb.
  set (n2 := (fexp prec emax (Zdigits2 m2 + e1) - e1)%Z).
  destruct (Rounding.shr_spec m2 loc_Exact e1 n2) as [H2 H2e].
  { change (2 ^ 52)%Z with 4503599627370496%Z in Hm1. lia. }
  destruct (shr (shr_record_of_loc m2 loc_Exact) e1 n2) as [r2 e2]. simpl in H2, H2e.
  assert (He1: (-1073 <= e1 <= 970)%Z) by (subst e1 N; lia).
  destruct (Z.eq_dec m2 (2 ^ 53)) as [Htop|Hbelow].
  - (* the mantissa carried into a 54th digit *)
    assert (Hdig: Zdigits2 m2 = 54%Z) by (rewrite Htop; reflexivity).
    assert (Hn2: n2 = 1%Z) by (subst n2; rewrite Hdig; unfold fexp, SpecFloat.emin, prec, emax; lia).
    rewrite Hn2 in H2, H2e. rewrite Htop in H2.
    change (2 ^ 53 / 2 ^ Z.max 0 1)%Z with 4503599627370496%Z in H2.
    change (Z.max 0 1) with 1%Z in H2e.
    rewrite H2.
    replace (e2 <=? emax - prec)%Z with true
      by (symmetry; apply Z.leb_le; unfold emax, prec; lia).
    exists m2, 4503599627370496%positive, e2.
    repeat split; try assumption; try lia.
  - assert (Hdig: Zdigits2 m2 = 53%Z).
    { apply digits_unique; [|lia]. change (53 - 1)%Z with 52%Z. lia. }
    assert (Hn2: n2 = 0%Z) by (subst n2; rewrite Hdig; unfold fexp, SpecFloat.emin, prec, emax; lia).
    rewrite Hn2 in H2, H2e. change (Z.max 0 0) with 0%Z in H2, H2e.
    rewrite Z.pow_0_r, Z.div_1_r in H2.
    assert (Hm2: (0 < m2)%Z) by (change (2 ^ 52)%Z with 4503599627370496%Z in Hm1; lia).
    rewrite H2. destruct m2 as [|p|p]; try lia.
    replace (e2 <=? emax - prec)%Z with true
      by (symmetry; apply Z.leb_le; unfold emax, prec; lia).
    exists (Z.pos p), p, e2.
    repeat split; try assumption; try lia.
Qed.

(** The relative error of one operation is at most [u52]. *)
Definition u52 : R := pow2 (-52).

Lemma u52_pos : 0 < u52.
Proof. apply pow2_pos. Qed.

Lemma u52_mantissa m : (2 ^ 52 <= m)%Z -> 1 <= IZR m * u52.
Proof.
  intros H. apply IZR_le in H. rewrite <- pow2_IZR in H by lia.
  unfold u52. pose proof (pow2_add 52 (-52)) as Ha. simpl Z.add in Ha.
  change (pow2 0) with 1 in Ha. pose proof (pow2_pos (-52)). nra.
Qed.

(** In real numbers: what is rounded lies between [mx * 2^ex] and
    [(mx + 1) * 2^ex], and the result is within the factor [1 +- u52] of
    it. *)
Lemma round_rel s mx ex lx (x : R) :
  (2 ^ 52 <= mx)%Z ->
  IZR mx * pow2 ex <= x <= IZR (mx + 1) * pow2 ex ->
  pow2 (-1020) <= x <= pow2 1022 ->
  exists m e,
    binary_round_aux prec emax s mx ex lx = S754_finite s m e
    /\ (-1074 < e)%Z
    /\ x * (1 - u52) <= IZR (Z.pos m) * pow2 e <= x * (1 + u52).
Proof.
  intros Hmx Hx Hrange.
  assert (Hpos: (0 < mx)%Z) by (change (2 ^ 52)%Z with 4503599627370496%Z in Hmx; lia).
  pose proof (digits_bounds mx Hpos) as Hd.
  set (d := Zdigits2 mx) in *.
  assert (Hd0: (0 < d)%Z).
  { destruct (Z_lt_le_dec 0 d) as [?|Hle]; [assumption|exfalso].
    assert (2 ^ d <= 2 ^ 0)%Z by (apply Z.pow_le_mono_r; lia). simpl in *. lia. }
  assert (Hlow: (-1020 <= d + ex)%Z).
  { apply pow2_le_inv. rewrite pow2_add, (pow2_IZR d) by lia.
    assert (IZR (mx + 1) <= IZR (2 ^ d)) by (apply IZR_le; lia).
    pose proof (pow2_pos ex). nra. }
  assert (Hhigh: (d + ex <= 1023)%Z).
  { assert (d - 1 + ex <= 1022)%Z; [|lia].
    apply pow2_le_inv. rewrite pow2_add, (pow2_IZR (d - 1)) by lia.
    assert (IZR (2 ^ (d - 1)) <= IZR mx) by (apply IZR_le; lia).
    pose proof (pow2_pos ex). nra. }
  destruct (binary_round_aux_normal s mx ex lx Hmx (conj Hlow Hhigh))
    as [m2 [m3 [e3 [Hres [Hm2 [Hm1 [HN [He3 Hval]]]]]]]].
  fold d in Hres, Hm2, Hm1, HN, Hval.
  set (N := (d - 53)%Z) in *. set (m1 := (mx / 2 ^ N)%Z) in *.
  exists m3, e3. split; [exact Hres|]. split; [exact He3|].
  set (E := pow2 (ex + N)).
  assert (HE: 0 < E) by apply pow2_pos.
  assert (Hr: IZR (Z.pos m3) * pow2 e3 = IZR m2 * E).
  { destruct Hval as [[H1 H2]|[H1 H2]]; subst e3.
    - rewrite H1. reflexivity.
    - rewrite <- H1, mult_IZR. replace (ex + N + 1)%Z with (1 + (ex + N))%Z by lia.
      rewrite pow2_add, pow2_1. fold E. lra. }
  rewrite Hr.
  assert (Hp: (0 < 2 ^ N)%Z) by (apply Z.pow_pos_nonneg; lia).
  assert (Hdiv: (m1 * 2 ^ N <= mx /\ mx + 1 <= (m1 + 1) * 2 ^ N)%Z).
  { subst m1. pose proof (Z.div_mod mx (2 ^ N) ltac:(lia)) as Hdm.
    pose proof (Z.mod_pos_bound mx (2 ^ N) Hp). nia. }
  assert (HEN: E = pow2 ex * IZR (2 ^ N)).
  { subst E. rewrite pow2_add, (pow2_IZR N) by lia. reflexivity. }
  assert (Hxlo: IZR m1 * E <= x).
  { destruct Hdiv as [Hdl _]. apply IZR_le in Hdl. rewrite mult_IZR in Hdl.
    rewrite HEN. pose proof (pow2_pos ex). nra. }
  assert (Hxhi: x <= IZR (m1 + 1) * E).
  { destruct Hdiv as [_ Hdh]. apply IZR_le in Hdh. rewrite mult_IZR in Hdh.
    rewrite HEN. pose proof (pow2_pos ex). nra. }
  rewrite plus_IZR in Hxhi.
  assert (Hb1: IZR m1 <= IZR m2) by (apply IZR_le; lia).
  assert (Hb2: IZR m2 <= IZR m1 + 1) by (rewrite <- plus_IZR; apply IZR_le; lia).
  pose proof (u52_mantissa m1 (proj1 Hm1)) as Hu.
  pose proof u52_pos as Hup.
  assert (HEx: E <= u52 * x) by nra.
  split; nra.
Qed.

(** *** The operations on tame Numbers *)

(** Zero, or a positive Number in the normal range. *)
Definition tame (x : float) : Prop :=
  (exists s, Prim2SF x = S754_zero s)
  \/ (exists m e, Prim2SF x = S754_finite false m e /\ (-1074 < e)%Z).

Lemma normal_mantissa x m e :
  Prim2SF x = S754_finite false m e -> (-1074 < e)%Z ->
  (2 ^ 52 <= Z.pos m < 2 ^ 53)%Z /\ Zdigits2 (Z.pos m) = 53%Z /\ (e <= 971)%Z.
Proof.
  intros Hx He. destruct (canonical x _ _ _ Hx) as [_ [_ Hc]]. specialize (Hc He).
  pose proof (Z.log2_spec (Z.pos m) ltac:(lia)) as Hs. rewrite Hc in Hs.
  change (Z.succ 52) with 53%Z in Hs. split; [exact Hs|]. split.
  - rewrite Rounding.Zdigits2_log2 by lia. lia.
  - pose proof (Prim2SF_valid x) as Hv. rewrite Hx in Hv.
    unfold SpecFloat.valid_binary, bounded in Hv.
    apply andb_true_iff in Hv. destruct Hv as [_ Hv]. apply Z.leb_le in Hv.
    unfold emax, prec in Hv. lia.
Qed.

Lemma tame_value_zero x s : Prim2SF x = S754_zero s -> value x = 0.
Proof. intros H. unfold value. rewrite H. reflexivity. Qed.

Lemma tame_value_normal x m e :
  Prim2SF x = S754_finite false m e -> (-1074 < e)%Z ->
  value x = IZR (Z.pos m) * pow2 e /\ pow2 (-1021) <= value x < pow2 1024.
Proof.
  intros Hx He. destruct (normal_mantissa x m e Hx He) as [Hm [_ Hhi]].
  unfold value. rewrite Hx. simpl SF2R. split; [reflexivity|].
  destruct Hm as [Hm1 Hm2]. apply IZR_le in Hm1. apply IZR_lt in Hm2.
  rewrite <- pow2_IZR in Hm1, Hm2 by lia.
  pose proof (pow2_pos e). split.
  - replace (-1021)%Z with (52 + -1073)%Z by lia. rewrite pow2_add.
    pose proof (pow2_le (-1073) e ltac:(lia)). pose proof (pow2_pos 52).
    pose proof (pow2_pos (-1073)). nra.
  - replace 1024%Z with (53 + 971)%Z by lia. rewrite pow2_add.
    pose proof (pow2_le e 971 ltac:(lia)). pose proof (pow2_pos 53). nra.
Qed.

Lemma tame_nonneg x : tame x -> 0 <= value x.
Proof.
  intros [[s H]|[m [e [H He]]]].
  - rewrite (tame_value_zero x s H). lra.
  - destruct (tame_value_normal x m e H He) as [_ [Hl _]].
    pose proof (pow2_pos (-1021)). lra.
Qed.

Lemma tame_finite x : tame x -> is_finite x = true.
Proof.
  intros Hx. unfold is_finite, is_nan, is_infinity.
  rewrite !FloatAxioms.eqb_spec, abs_spec. unfold SFeqb.
  destruct Hx as [[s H]|[m [e [H He]]]]; rewrite H;
    rewrite SFcompare_refl by discriminate; reflexivity.
Qed.

(** The rounded sum of two tame Numbers. *)
Lemma add_tame x y :
  tame x -> tame y -> value x + value y <= pow2 1022 ->
  tame (x + y)
  /\ (value x + value y) * (1 - u52) <= value (x + y) <= (value x + value y) * (1 + u52).
Proof.
  intros Hx Hy Hsum. pose proof u52_pos as Hu.
  pose proof (tame_nonneg x Hx) as Px. pose proof (tame_nonneg y Hy) as Py.
  assert (Hexact: forall z, tame z -> Prim2SF (x + y) = Prim2SF z ->
                            value z = value x + value y ->
                            tame (x + y)
                            /\ (value x + value y) * (1 - u52) <= value (x + y)
                               <= (value x + value y) * (1 + u52)).
  { intros z Hz Heq Hv. apply Prim2SF_inj in Heq. rewrite Heq, Hv.
    split; [exact Hz|]. split; nra. }
  destruct Hx as [[sx Hx]|[mx [ex [Hx Hex]]]];
    destruct Hy as [[sy Hy]|[my [ey [Hy Hey]]]].
  - (* zero + zero *)
    assert (Hz: exists s, Prim2SF (x + y) = S754_zero s).
    { rewrite add_spec, Hx, Hy. destruct sx, sy; simpl; eauto. }
    destruct Hz as [s Hz]. split; [left; eauto|].
    rewrite (tame_value_zero _ _ Hz), (tame_value_zero _ _ Hx), (tame_value_zero _ _ Hy).
    split; lra.
  - apply (Hexact y); [right; eauto|rewrite add_spec, Hx, Hy; reflexivity|].
    rewrite (tame_value_zero _ _ Hx). lra.
  - apply (Hexact x); [right; eauto|rewrite add_spec, Hx, Hy; reflexivity|].
    rewrite (tame_value_zero _ _ Hy). lra.
  - clear Hexact.
    destruct (normal_mantissa x mx ex Hx Hex) as [Mx [Dx _]].
    destruct (normal_mantissa y my ey Hy Hey) as [My [Dy _]].
    destruct (tame_value_normal x mx ex Hx Hex) as [Vx [Lx _]].
    destruct (tame_value_normal y my ey Hy Hey) as [Vy [Ly _]].
    assert (Hadd: Prim2SF (x + y)
                  = binary_normalize prec emax
                      (Z.pos mx * 2 ^ (ex - Z.min ex ey) + Z.pos my * 2 ^ (ey - Z.min ex ey))
                      (Z.min ex ey) false).
    { rewrite add_spec, Hx, Hy. unfold SF64add, SFadd. cbv [cond_Zopp].
      rewrite !shl_align_value by lia. reflexivity. }
    set (ez := Z.min ex ey) in *.
    set (z := (Z.pos mx * 2 ^ (ex - ez) + Z.pos my * 2 ^ (ey - ez))%Z) in *.
    assert (Hpx: (1 <= 2 ^ (ex - ez))%Z)
      by (pose proof (Z.pow_pos_nonneg 2 (ex - ez) ltac:(lia) ltac:(lia)); lia).
    assert (Hpy: (1 <= 2 ^ (ey - ez))%Z)
      by (pose proof (Z.pow_pos_nonneg 2 (ey - ez) ltac:(lia) ltac:(lia)); lia).
    assert (Hz52: (2 ^ 52 <= z)%Z) by (subst z; nia).
    assert (Hzv: IZR z * pow2 ez = value x + value y).
    { subst z. rewrite plus_IZR, !mult_IZR, Vx, Vy.
      rewrite <- !pow2_IZR by lia.
      replace ex with ((ex - ez) + ez)%Z at 2 by lia.
      replace ey with ((ey - ez) + ez)%Z at 2 by lia.
      rewrite !pow2_add. ring. }
    destruct z as [|pz|pz] eqn:Ez; try (change (2 ^ 52)%Z with 4503599627370496%Z in Hz52; lia).
    simpl binary_normalize in Hadd. unfold binary_round in Hadd.
    assert (Hsh: shl_align pz ez (fexp prec emax (Z.pos (digits2_pos pz) + ez)) = (pz, ez)).
    { unfold shl_align.
      change (Z.pos (digits2_pos pz)) with (Zdigits2 (Z.pos pz)).
      pose proof (digits_bounds (Z.pos pz) ltac:(lia)) as Hd.
      assert (52 < Zdigits2 (Z.pos pz))%Z.
      { apply (Z.pow_lt_mono_r_iff 2); [lia| |lia].
        destruct (Zdigits2 (Z.pos pz)); simpl in *; lia. }
      destruct (fexp prec emax (Zdigits2 (Z.pos pz) + ez) - ez)%Z eqn:E; try reflexivity.
      unfold fexp, SpecFloat.emin, prec, emax in E. lia. }
    rewrite Hsh in Hadd.
    destruct (round_rel false (Z.pos pz) ez loc_Exact (value x + value y) Hz52)
      as [m [e [Hres [He Hb]]]].
    + rewrite <- Hzv. rewrite plus_IZR. pose proof (pow2_pos ez). split; nra.
    + split; [|exact Hsum].
      replace (-1020)%Z with (1 + -1021)%Z by lia. rewrite pow2_add, pow2_1. lra.
    + rewrite Hres in Hadd. split; [right; exists m, e; split; assumption|].
      assert (Hv: value (x + y) = IZR (Z.pos m) * pow2 e)
        by (unfold value; rewrite Hadd; reflexivity).
      rewrite Hv. exact Hb.
Qed.

(** A positive Number in the normal range. *)
Definition normal (x : float) : Prop :=
  exists m e, Prim2SF x = S754_finite false m e /\ (-1074 < e)%Z.

Lemma normal_tame x : normal x -> tame x.
Proof. intros H. right. exact H. Qed.

Lemma normal_positive x : normal x -> pow2 (-1021) <= value x.
Proof.
  intros [m [e [H He]]]. destruct (tame_value_normal x m e H He) as [_ [Hl _]]. exact Hl.
Qed.

Lemma tame_cases x : tame x -> value x = 0 \/ normal x.
Proof.
  intros [[s H]|H]; [left; apply (tame_value_zero x s H)|right; exact H].
Qed.

(** The rounded product of two tame Numbers. *)
Lemma mul_tame x y :
  tame x -> tame y ->
  (value x * value y = 0 \/ pow2 (-1020) <= value x * value y <= pow2 1022) ->
  tame (x * y)
  /\ (value x * value y) * (1 - u52) <= value (x * y) <= (value x * value y) * (1 + u52).
Proof.
  intros Hx Hy Hr. pose proof u52_pos as Hu.
  assert (Hzero: forall s, Prim2SF (x * y) = S754_zero s -> value x * value y = 0 ->
                           tame (x * y)
                           /\ (value x * value y) * (1 - u52) <= value (x * y)
                              <= (value x * value y) * (1 + u52)).
  { intros s Hz Hp. split; [left; eauto|]. rewrite (tame_value_zero _ _ Hz), Hp. split; lra. }
  destruct Hx as [[sx Hx]|[mx [ex [Hx Hex]]]];
    destruct Hy as [[sy Hy]|[my [ey [Hy Hey]]]].
  - apply (Hzero (xorb sx sy)); [rewrite mul_spec, Hx, Hy; reflexivity|].
    rewrite (tame_value_zero _ _ Hx). lra.
  - apply (Hzero (xorb sx false)); [rewrite mul_spec, Hx, Hy; reflexivity|].
    rewrite (tame_value_zero _ _ Hx). lra.
  - apply (Hzero (xorb false sy)); [rewrite mul_spec, Hx, Hy; reflexivity|].
    rewrite (tame_value_zero _ _ Hy). lra.
  - clear Hzero.
    destruct (normal_mantissa x mx ex Hx Hex) as [Mx _].
    destruct (normal_mantissa y my ey Hy Hey) as [My _].
    destruct (tame_value_normal x mx ex Hx Hex) as [Vx [Lx _]].
    destruct (tame_value_normal y my ey Hy Hey) as [Vy [Ly _]].
    pose proof (pow2_pos (-1021)) as Hp.
    destruct Hr as [Hr|Hr]; [exfalso; nra|].
    assert (Hmul: Prim2SF (x * y)
                  = binary_round_aux prec emax false (Z.pos (mx * my)) (ex + ey) loc_Exact).
    { rewrite mul_spec, Hx, Hy. reflexivity. }
    assert (Hval: IZR (Z.pos (mx * my)) * pow2 (ex + ey) = value x * value y).
    { rewrite Pos2Z.inj_mul, mult_IZR, pow2_add, Vx, Vy. ring. }
    destruct (round_rel false (Z.pos (mx * my)) (ex + ey) loc_Exact (value x * value y))
      as [m [e [Hres [He Hb]]]].
    + rewrite Pos2Z.inj_mul. change (2 ^ 52)%Z with 4503599627370496%Z in *. nia.
    + rewrite <- Hval, plus_IZR. pose proof (pow2_pos (ex + ey)). split; nra.
    + exact Hr.
    + rewrite Hres in Hmul. split; [right; exists m, e; split; assumption|].
      assert (Hv: value (x * y) = IZR (Z.pos m) * pow2 e)
        by (unfold value; rewrite Hmul; reflexivity).
      rewrite Hv. exact Hb.
Qed.

(** The rounded quotient of a tame Number by a normal one. *)
Lemma div_tame x y :
  tame x -> normal y ->
  (value x = 0 \/ pow2 (-1020) <= value x / value y <= pow2 1022) ->
  tame (x / y)
  /\ (value x / value y) * (1 - u52) <= value (x / y) <= (value x / value y) * (1 + u52).
Proof.
  intros Hx [my [ey [Hy Hey]]] Hr. pose proof u52_pos as Hu.
  destruct (normal_mantissa y my ey Hy Hey) as [My [Dy _]].
  destruct (tame_value_normal y my ey Hy Hey) as [Vy [Ly _]].
  pose proof (pow2_pos (-1021)) as Hp.
  destruct Hx as [[sx Hx]|[mx [ex [Hx Hex]]]].
  - assert (Hz: Prim2SF (x / y) = S754_zero (xorb sx false))
      by (rewrite div_spec, Hx, Hy; reflexivity).
    split; [left; eauto|].
    rewrite (tame_value_zero _ _ Hz), (tame_value_zero _ _ Hx).
    unfold Rdiv. rewrite Rmult_0_l. split; lra.
  - destruct (normal_mantissa x mx ex Hx Hex) as [Mx [Dx _]].
    destruct (tame_value_normal x mx ex Hx Hex) as [Vx [Lx _]].
    destruct Hr as [Hr|Hr]; [exfalso; lra|].
    set (q := value x / value y) in *.
    pose proof (pow2_pos ex) as Pex. pose proof (pow2_pos ey) as Pey.
    assert (Hmy: 0 < IZR (Z.pos my)) by (apply IZR_lt; lia).
    assert (Hmx: 0 < IZR (Z.pos mx)) by (apply IZR_lt; lia).
    assert (Hq: q = IZR (Z.pos mx) / IZR (Z.pos my) * pow2 (ex - ey)).
    { subst q. rewrite Vx, Vy. replace ex with ((ex - ey) + ey)%Z at 1 by lia.
      rewrite pow2_add. field. split; lra. }
    (* the quotient of the mantissas is between 1/2 and 2 *)
    assert (Hmm: / 2 < IZR (Z.pos mx) / IZR (Z.pos my) < 2).
    { destruct Mx as [Mx1 Mx2], My as [My1 My2].
      apply IZR_le in Mx1, My1. apply IZR_lt in Mx2, My2.
      rewrite <- pow2_IZR in * by lia.
      replace 53%Z with (1 + 52)%Z in Mx2, My2 by lia.
      rewrite pow2_add, pow2_1 in Mx2, My2. pose proof (pow2_pos 52).
      split.
      - apply (Rmult_lt_reg_r (IZR (Z.pos my))); [exact Hmy|].
        unfold Rdiv. rewrite Rmult_assoc, Rinv_l by lra. lra.
      - apply (Rmult_lt_reg_r (IZR (Z.pos my))); [exact Hmy|].
        unfold Rdiv. rewrite Rmult_assoc, Rinv_l by lra. lra. }
    assert (Hee: (-1021 <= ex - ey)%Z).
    { assert (-1020 < ex - ey + 1)%Z; [|lia]. apply pow2_lt_inv.
      rewrite pow2_add, pow2_1. pose proof (pow2_pos (ex - ey)). nra. }
    assert (Hcore: SFdiv_core_binary prec emax (Z.pos mx) ex (Z.pos my) ey
                   = (Z.pos mx * 2 ^ 53 / Z.pos my, ex - ey - 53,
                      new_location (Z.pos my) ((Z.pos mx * 2 ^ 53) mod Z.pos my))%Z).
    { unfold SFdiv_core_binary. rewrite Dx, Dy.
      replace (53 + ex - (53 + ey))%Z with (ex - ey)%Z by lia.
      assert (He': Z.min (fexp prec emax (ex - ey)) (ex - ey) = (ex - ey - 53)%Z)
        by (unfold fexp, SpecFloat.emin, prec, emax; lia).
      rewrite He'. replace (ex - ey - (ex - ey - 53))%Z with 53%Z by lia.
      cbv iota. rewrite Z.shiftl_mul_pow2 by lia.
      unfold Z.div, Z.modulo.
      destruct (Z.div_eucl (Z.pos mx * 2 ^ 53) (Z.pos my)) as [q0 r0]. reflexivity. }
    assert (Hdiv: Prim2SF (x / y)
                  = binary_round_aux prec emax false (Z.pos mx * 2 ^ 53 / Z.pos my)
                      (ex - ey - 53)
                      (new_location (Z.pos my) ((Z.pos mx * 2 ^ 53) mod Z.pos my))).
    { rewrite div_spec, Hx, Hy. unfold SF64div, SFdiv. rewrite Hcore. reflexivity. }
    set (qz := (Z.pos mx * 2 ^ 53 / Z.pos my)%Z) in *.
    assert (Hqz: (qz * Z.pos my <= Z.pos mx * 2 ^ 53 < (qz + 1) * Z.pos my)%Z).
    { subst qz. pose proof (Z.div_mod (Z.pos mx * 2 ^ 53) (Z.pos my) ltac:(lia)).
      pose proof (Z.mod_pos_bound (Z.pos mx * 2 ^ 53) (Z.pos my) ltac:(lia)). nia. }
    assert (Hq52: (2 ^ 52 <= qz)%Z).
    { change (2 ^ 52)%Z with 4503599627370496%Z in *.
      change (2 ^ 53)%Z with 9007199254740992%Z in *. nia. }
    assert (Hqr: IZR qz * pow2 (ex - ey - 53) <= q <= IZR (qz + 1) * pow2 (ex - ey - 53)).
    { destruct Hqz as [H1 H2]. apply IZR_le in H1. apply IZR_lt in H2.
      rewrite !mult_IZR in H1, H2. rewrite <- pow2_IZR in H1, H2 by lia.
      rewrite Hq. replace (ex - ey)%Z with (53 + (ex - ey - 53))%Z at 2 3 by lia.
      rewrite pow2_add. pose proof (pow2_pos (ex - ey - 53)) as Pe.
      pose proof (pow2_pos 53) as P53.
      assert (Hm: IZR qz <= IZR (Z.pos mx) / IZR (Z.pos my) * pow2 53 <= IZR (qz + 1)).
      { split.
        - apply (Rmult_le_reg_r (IZR (Z.pos my))); [exact Hmy|].
          replace (IZR (Z.pos mx) / IZR (Z.pos my) * pow2 53 * IZR (Z.pos my))
            with (IZR (Z.pos mx) * pow2 53) by (field; lra). exact H1.
        - apply (Rmult_le_reg_r (IZR (Z.pos my))); [exact Hmy|].
          replace (IZR (Z.pos mx) / IZR (Z.pos my) * pow2 53 * IZR (Z.pos my))
            with (IZR (Z.pos mx) * pow2 53) by (field; lra). lra. }
      split; nra. }
    destruct (round_rel false qz (ex - ey - 53)
                (new_location (Z.pos my) ((Z.pos mx * 2 ^ 53) mod Z.pos my)) q Hq52 Hqr Hr)
      as [m [e [Hres [He Hb]]]].
    rewrite Hres in Hdiv. split; [right; exists m, e; split; assumption|].
    assert (Hv: value (x / y) = IZR (Z.pos m) * pow2 e)
      by (unfold value; rewrite Hdiv; reflexivity).
    rewrite Hv. exact Hb.
Qed.

(** *** Moderate Numbers *)

Lemma moderate_normal x :
  moderate x = true -> normal x /\ pow2 (-200) <= value x <= pow2 200.
Proof.
  unfold moderate. intros H. apply andb_true_iff in H. destruct H as [Hlo Hhi].
  rewrite leb_spec in Hlo, Hhi.
  change (Prim2SF 1e-60) with (S754_finite false 7237005577332262 (-252)) in Hlo.
  change (Prim2SF 1e60) with (S754_finite false 5605193857299268 147) in Hhi.
  destruct (Prim2SF x) as [s|s| |s m e] eqn:Hx; try discriminate;
    try (destruct s; discriminate).
  destruct s; [discriminate|].
  unfold SFleb, SFcompare in Hlo, Hhi.
  assert (He: (-252 <= e <= 147)%Z).
  { destruct (Z.compare_spec (-252) e); destruct (Z.compare_spec e 147);
      try discriminate; lia. }
  assert (Hn: (-1074 < e)%Z) by lia.
  split; [exists m, e; split; [exact Hx|exact Hn]|].
  destruct (normal_mantissa x m e Hx Hn) as [[M1 M2] _].
  destruct (tame_value_normal x m e Hx Hn) as [-> _].
  apply IZR_le in M1. apply IZR_lt in M2. rewrite <- pow2_IZR in M1, M2 by lia.
  pose proof (pow2_pos e). pose proof (pow2_pos 52). pose proof (pow2_pos 53). split.
  - replace (-200)%Z with (52 + -252)%Z by lia. rewrite pow2_add.
    pose proof (pow2_le (-252) e ltac:(lia)). pose proof (pow2_pos (-252)). nra.
  - replace 200%Z with (53 + 147)%Z by lia. rewrite pow2_add.
    pose proof (pow2_le e 147 ltac:(lia)). nra.
Qed.

Lemma strict_eq_zero x : strict_eq x 0%float = true -> exists s, Prim2SF x = S754_zero s.
Proof.
  unfold strict_eq. rewrite FloatAxioms.eqb_spec, Prim2SF_zero. unfold SFeqb, SFcompare.
  destruct (Prim2SF x) as [s|s| |s m e]; try discriminate; [eauto| |];
    destruct s; discriminate.
Qed.

Lemma tame_not_zero x : tame x -> strict_eq x 0%float = false -> normal x.
Proof.
  intros [[s H]|H] Hz; [|exact H]. exfalso.
  unfold strict_eq in Hz. rewrite FloatAxioms.eqb_spec, Prim2SF_zero, H in Hz.
  discriminate Hz.
Qed.

Lemma normal_two : normal 2%float /\ value 2%float = 2.
Proof.
  split; [exists 4503599627370496%positive, (-51)%Z; split; [reflexivity|lia]|].
  unfold value. change (Prim2SF 2%float) with (S754_finite false 4503599627370496 (-51)).
  unfold SF2R. cbv [cond_Zopp].
  replace (IZR (Z.pos 4503599627370496)) with (pow2 52)
    by (rewrite pow2_IZR by lia; reflexivity).
  rewrite <- pow2_add. exact pow2_1.
Qed.

Lemma tame_zero : tame 0%float /\ value 0%float = 0.
Proof. split; [left; exists false; reflexivity|reflexivity]. Qed.

(** *** Accumulated rounding *)

(** [v] is [r] up to [k] roundings. *)
Definition approx (k : nat) (v r : R) : Prop :=
  r * (1 - u52) ^ k <= v <= r * (1 + u52) ^ k.

Lemma u52_small : u52 = / 4503599627370496.
Proof.
  unfold u52. pose proof (pow2_add 52 (-52)) as H. simpl Z.add in H.
  change (pow2 0) with 1 in H. rewrite (pow2_IZR 52) in H by lia.
  change (2 ^ 52)%Z with 4503599627370496%Z in H.
  apply (Rmult_eq_reg_l 4503599627370496); [|lra].
  rewrite <- H. field.
Qed.

Lemma down_pos : 0 < 1 - u52 < 1.
Proof. rewrite u52_small. lra. Qed.

Lemma up_pos : 1 < 1 + u52.
Proof. rewrite u52_small. lra. Qed.

Lemma approx_refl r : approx 0 r r.
Proof. unfold approx. simpl. lra. Qed.

Lemma pow_down_le k j : (k <= j)%nat -> (1 - u52) ^ j <= (1 - u52) ^ k.
Proof.
  intros H. pose proof down_pos as Hd.
  induction H as [|j H IH]; [lra|]. simpl.
  assert (0 < (1 - u52) ^ j) by (apply pow_lt; lra). nra.
Qed.

Lemma pow_up_le k j : (k <= j)%nat -> (1 + u52) ^ k <= (1 + u52) ^ j.
Proof.
  intros H. apply Rle_pow; [pose proof up_pos; lra|exact H].
Qed.

Lemma approx_weaken k j v r : 0 <= r -> (k <= j)%nat -> approx k v r -> approx j v r.
Proof.
  unfold approx. intros Hr Hk [H1 H2].
  pose proof (pow_down_le k j Hk). pose proof (pow_up_le k j Hk). split; nra.
Qed.

Lemma approx_round k v v' r :
  0 <= r -> approx k v r -> v * (1 - u52) <= v' <= v * (1 + u52) -> approx (S k) v' r.
Proof.
  unfold approx. intros Hr [H1 H2] [H3 H4]. simpl.
  pose proof down_pos. pose proof up_pos.
  assert (0 < (1 - u52) ^ k) by (apply pow_lt; lra).
  assert (0 < (1 + u52) ^ k) by (apply pow_lt; lra).
  split; nra.
Qed.

Lemma approx_add k a b r s : approx k a r -> approx k b s -> approx k (a + b) (r + s).
Proof. unfold approx. intros [H1 H2] [H3 H4]. split; nra. Qed.

Lemma approx_scale k c a r : 0 <= c -> approx k a r -> approx k (c * a) (c * r).
Proof. unfold approx. intros Hc [H1 H2]. split; nra. Qed.

Lemma approx_nonneg k v r : 0 <= r -> approx k v r -> 0 <= v.
Proof.
  unfold approx. intros Hr [H1 _]. pose proof down_pos.
  assert (0 < (1 - u52) ^ k) by (apply pow_lt; lra). nra.
Qed.

(** Bernoulli's bounds on the accumulated factors. *)
Lemma pow_down_bound k : 1 - INR k * u52 <= (1 - u52) ^ k.
Proof.
  pose proof down_pos as Hd. pose proof u52_pos as Hu.
  induction k as [|k IH]; [simpl; lra|]. rewrite S_INR. simpl.
  pose proof (pos_INR k).
  assert (0 < (1 - u52) ^ k) by (apply pow_lt; lra). nra.
Qed.

Lemma pow_up_bound k : 2 * INR k * u52 <= 1 -> (1 + u52) ^ k <= 1 + 2 * INR k * u52.
Proof.
  pose proof u52_pos as Hu.
  induction k as [|k IH]; intros Hk; [simpl; lra|]. rewrite S_INR in *. simpl.
  pose proof (pos_INR k). specialize (IH ltac:(nra)). nra.
Qed.

(** *** Magnitudes *)

(** A real number between two powers of two; such a number or zero. *)
Definition inside (a b : Z) (v : R) : Prop := pow2 a <= v <= pow2 b.

Definition mag (a b : Z) (v : R) : Prop := v = 0 \/ inside a b v.

Lemma pow2_double e : pow2 (e + 1) = 2 * pow2 e.
Proof. rewrite pow2_add, pow2_1. ring. Qed.

Lemma pow2_half e : pow2 (e - 1) = pow2 e / 2.
Proof.
  pose proof (pow2_double (e - 1)) as H. replace (e - 1 + 1)%Z with e in H by lia. lra.
Qed.

Lemma inside_weaken a b a' b' v :
  (a' <= a)%Z -> (b <= b')%Z -> inside a b v -> inside a' b' v.
Proof.
  unfold inside. intros Ha Hb [H1 H2].
  pose proof (pow2_le a' a Ha). pose proof (pow2_le b b' Hb). split; lra.
Qed.

Lemma mag_weaken a b a' b' v : (a' <= a)%Z -> (b <= b')%Z -> mag a b v -> mag a' b' v.
Proof. intros Ha Hb [H|H]; [left; exact H|right; eapply inside_weaken; eassumption]. Qed.

Lemma inside_round a b r v :
  inside a b r -> r * (1 - u52) <= v <= r * (1 + u52) -> inside (a - 1) (b + 1) v.
Proof.
  unfold inside. intros [H1 H2] [H3 H4]. rewrite pow2_half, pow2_double.
  pose proof (pow2_pos a). pose proof down_pos. pose proof up_pos.
  rewrite u52_small in *. split; nra.
Qed.

Lemma mag_round a b r v :
  mag a b r -> r * (1 - u52) <= v <= r * (1 + u52) -> mag (a - 1) (b + 1) v.
Proof.
  intros [->|H] Hv; [left; lra|right; eapply inside_round; eassumption].
Qed.

Lemma mag_add a b x y : mag a b x -> mag a b y -> mag a (b + 1) (x + y).
Proof.
  unfold mag, inside. rewrite pow2_double. pose proof (pow2_pos a).
  intros [->|[H1 H2]] [->|[H3 H4]]; [left; lra|right|right|right]; split; lra.
Qed.

Lemma mag_half a b x : mag a b x -> mag (a - 1) (b - 1) (x / 2).
Proof.
  unfold mag, inside. rewrite !pow2_half.
  intros [->|[H1 H2]]; [left; lra|right; split; lra].
Qed.

Lemma mag_mul a b c d x y : inside a b x -> mag c d y -> mag (a + c) (b + d) (x * y).
Proof.
  unfold mag, inside. rewrite !pow2_add.
  pose proof (pow2_pos a). pose proof (pow2_pos c).
  intros [H1 H2] [->|[H3 H4]]; [left; lra|right; split; nra].
Qed.

Lemma mag_div a b c d x y : mag a b x -> inside c d y -> mag (a - d) (b - c) (x / y).
Proof.
  unfold mag, inside. intros Hx [H3 H4].
  pose proof (pow2_pos a) as Pa. pose proof (pow2_pos c) as Pc. pose proof (pow2_pos d) as Pd.
  destruct Hx as [->|[H1 H2]]; [left; unfold Rdiv; lra|right].
  replace (a - d)%Z with (a + - d)%Z by lia. replace (b - c)%Z with (b + - c)%Z by lia.
  rewrite !pow2_add.
  assert (Hd: pow2 (- d) = / pow2 d).
  { pose proof (pow2_add d (- d)) as E. rewrite Z.add_opp_diag_r in E.
    change (pow2 0) with 1 in E. apply (Rmult_eq_reg_l (pow2 d)); [|lra].
    rewrite <- E. field. lra. }
  assert (Hc: pow2 (- c) = / pow2 c).
  { pose proof (pow2_add c (- c)) as E. rewrite Z.add_opp_diag_r in E.
    change (pow2 0) with 1 in E. apply (Rmult_eq_reg_l (pow2 c)); [|lra].
    rewrite <- E. field. lra. }
  rewrite Hd, Hc. unfold Rdiv.
  assert (Hy: 0 < y) by lra.
  assert (Hi1: / pow2 d <= / y) by (apply Rinv_le_contravar; lra).
  assert (Hi2: / y <= / pow2 c) by (apply Rinv_le_contravar; lra).
  assert (0 < / pow2 d) by (apply Rinv_0_lt_compat; lra).
  assert (0 < / y) by (apply Rinv_0_lt_compat; lra).
  split; nra.
Qed.

Lemma mag_range a b v :
  (-1020 <= a)%Z -> (b <= 1022)%Z -> mag a b v ->
  v = 0 \/ pow2 (-1020) <= v <= pow2 1022.
Proof.
  intros Ha Hb [H|H]; [left; exact H|right].
  apply (inside_weaken a b); assumption.
Qed.

Lemma mag_nonneg a b v : mag a b v -> 0 <= v.
Proof. intros [->|[H _]]; [lra|]. pose proof (pow2_pos a). lra. Qed.

Lemma mag_upper a b v : mag a b v -> v <= pow2 b.
Proof. intros [->|[_ H]]; [|exact H]. pose proof (pow2_pos b). lra. Qed.

(** A tame Number of a known magnitude. *)
Definition level (a b : Z) (x : float) : Prop := tame x /\ mag a b (value x).

(** *** One trapezoid *)

(** The exact area of the trapezoid between two points, over the step the
    loop computes. *)
Definition trapezoid (prev cur : SpectralDataPoint float) : R :=
  value (wavelength cur - wavelength prev)
  * ((value (intensity cur) + value (intensity prev)) / 2).

Lemma term_error prev cur :
  level (-700) 700 (intensity prev) -> level (-700) 700 (intensity cur) ->
  moderate (wavelength cur - wavelength prev) = true ->
  let t := ((wavelength cur - wavelength prev)
            * ((intensity cur + intensity prev) / 2))%float in
  tame t /\ approx 3 (value t) (trapezoid prev cur)
  /\ mag (-904) 903 (value t) /\ mag (-902) 901 (trapezoid prev cur).
Proof.
  intros [Tp Mp] [Tc Mc] Hdx t. unfold trapezoid.
  destruct (moderate_normal _ Hdx) as [Ndx Rdx].
  set (dx := (wavelength cur - wavelength prev)%float) in *.
  set (S := value (intensity cur) + value (intensity prev)) in *.
  assert (MS: mag (-700) 701 S) by (apply (mag_add (-700) 700); assumption).
  (* the sum *)
  destruct (add_tame (intensity cur) (intensity prev) Tc Tp) as [Ts Bs].
  { fold S. pose proof (mag_upper _ _ _ MS). pose proof (pow2_le 701 1022 ltac:(lia)). lra. }
  fold S in Bs.
  set (s1 := (intensity cur + intensity prev)%float) in *.
  assert (Ms: mag (-701) 702 (value s1)) by (apply (mag_round (-700) 701 S); assumption).
  (* the half *)
  destruct normal_two as [N2 V2].
  assert (Mh0: mag (-702) 701 (value s1 / 2)) by (apply (mag_half (-701) 702); assumption).
  destruct (div_tame s1 2%float Ts N2) as [Th Bh].
  { rewrite V2. destruct Mh0 as [H0|H0]; [left; lra|right].
    apply (inside_weaken (-702) 701); try lia. exact H0. }
  rewrite V2 in Bh.
  set (h := (s1 / 2)%float) in *.
  assert (Mh: mag (-703) 702 (value h)) by (apply (mag_round (-702) 701 (value s1 / 2)); assumption).
  (* the product *)
  assert (Mt0: mag (-903) 902 (value dx * value h))
    by (apply (mag_mul (-200) 200 (-703) 702); assumption).
  destruct (mul_tame dx h (normal_tame _ Ndx) Th) as [Tt Bt].
  { apply (mag_range (-903) 902); try lia. exact Mt0. }
  assert (Mt: mag (-904) 903 (value (dx * h)%float))
    by (apply (mag_round (-903) 902 (value dx * value h)); assumption).
  split; [exact Tt|].
  assert (HS: 0 <= S) by (apply (mag_nonneg _ _ _ MS)).
  assert (Hdx0: 0 <= value dx) by (destruct Rdx; pose proof (pow2_pos (-200)); lra).
  split; [|split; [exact Mt|]].
  - (* three roundings *)
    assert (A1: approx 1 (value s1) S)
      by (apply (approx_round 0 S); [exact HS|apply approx_refl|exact Bs]).
    assert (A1': approx 1 (value s1 / 2) (S / 2)).
    { unfold Rdiv. rewrite !(Rmult_comm _ (/ 2)). apply approx_scale; [lra|exact A1]. }
    assert (HS2: 0 <= S / 2) by lra.
    assert (A2: approx 2 (value h) (S / 2))
      by (apply (approx_round 1 (value s1 / 2) (value h) (S / 2) HS2 A1' Bh)).
    assert (A2': approx 2 (value dx * value h) (value dx * (S / 2)))
      by (apply approx_scale; assumption).
    assert (HT: 0 <= value dx * (S / 2)) by nra.
    apply (approx_round 2 (value dx * value h) _ (value dx * (S / 2)) HT A2' Bt).
  - assert (MS2: mag (-701) 700 (S / 2)) by (apply (mag_half (-700) 701); assumption).
    apply (mag_weaken (-901) 900); [lia|lia|].
    apply (mag_mul (-200) 200 (-701) 700); assumption.
Qed.

(** *** The loop *)

(** The exact trapezoid sum, over the steps the loop computes. *)
Fixpoint exact_area (prev : SpectralDataPoint float) (rest : Spectrum) : R :=
  match rest with
  | [] => 0
  | cur :: rest' => trapezoid prev cur + exact_area cur rest'
  end.

Definition levels (a b : Z) (data : Spectrum) : Prop :=
  Forall (fun d => level a b (intensity d)) data.

Lemma trapezoid_mag a b prev cur :
  level a b (intensity prev) -> level a b (intensity cur) ->
  moderate (wavelength cur - wavelength prev) = true ->
  mag (a - 201) (b + 200) (trapezoid prev cur).
Proof.
  intros [_ Mp] [_ Mc] Hdx. unfold trapezoid.
  destruct (moderate_normal _ Hdx) as [_ Rdx].
  pose proof (mag_half _ _ _ (mag_add _ _ _ _ Mc Mp)) as MS.
  pose proof (mag_mul _ _ _ _ _ _ Rdx MS) as MT.
  eapply mag_weaken; [| |exact MT]; lia.
Qed.

Lemma exact_area_mag a b rest : forall prev,
    levels a b (prev :: rest) -> moderate_steps prev rest ->
    (exact_area prev rest = 0 \/ pow2 (a - 201) <= exact_area prev rest)
    /\ 0 <= exact_area prev rest <= INR (length rest) * pow2 (b + 200).
Proof.
  induction rest as [|cur rest IH]; intros prev Hl Hs.
  - simpl. split; [left; reflexivity|lra].
  - inversion Hl as [|? ? Lp Lrest]; subst. inversion Lrest as [|? ? Lc _]; subst.
    destruct Hs as [Hdx Hs].
    destruct (IH cur Lrest Hs) as [Hlow [Hnn Hup]].
    pose proof (trapezoid_mag a b prev cur Lp Lc Hdx) as MT.
    pose proof (mag_nonneg _ _ _ MT) as Tnn. pose proof (mag_upper _ _ _ MT) as Tup.
    cbn [exact_area length]. rewrite S_INR. split; [|split; nra].
    destruct MT as [MT|[MT _]].
    + rewrite MT, Rplus_0_l. destruct Hlow as [Hlow|Hlow]; [left|right]; lra.
    + right. lra.
Qed.

Lemma count_small k : (Z.of_nat k <= 2 ^ 21)%Z -> INR k * u52 <= / 2147483648.
Proof.
  intros H. rewrite INR_IZR_INZ. apply IZR_le in H.
  change (2 ^ 21)%Z with 2097152%Z in H. rewrite u52_small. lra.
Qed.

Lemma factors_small k :
  (Z.of_nat k <= 2 ^ 21)%Z -> / 2 <= (1 - u52) ^ k /\ (1 + u52) ^ k <= 2.
Proof.
  intros H. pose proof (count_small k H) as Hk.
  pose proof (pow_down_bound k). pose proof (pow_up_bound k ltac:(lra)). split; lra.
Qed.

(** The loop of [trapezoidalIntegration] on tame intensities and moderate
    steps: every operation rounds once, and the running sum stays within
    one more rounding of the exact sum per point. *)
Lemma loop_error rest : forall prev acc k racc,
    levels (-700) 700 (prev :: rest) -> moderate_steps prev rest ->
    tame acc -> 0 <= racc -> approx k (value acc) racc ->
    racc + exact_area prev rest <= pow2 950 ->
    (3 <= k)%nat -> (Z.of_nat (k + length rest) <= 2 ^ 21)%Z ->
    tame (Part002.trapezoid_loop prev rest acc)
    /\ approx (k + length rest) (value (Part002.trapezoid_loop prev rest acc))
              (racc + exact_area prev rest).
Proof.
  induction rest as [|cur rest IH]; intros prev acc k racc Hl Hs Ta Hr Ha Htot Hk Hn.
  - simpl. rewrite Nat.add_0_r, Rplus_0_r. split; assumption.
  - inversion Hl as [|? ? Lp Lrest]; subst. inversion Lrest as [|? ? Lc _]; subst.
    destruct Hs as [Hdx Hs].
    destruct (term_error prev cur Lp Lc Hdx) as [Tt [At [Mt MT]]].
    destruct (exact_area_mag (-700) 700 rest cur Lrest Hs) as [_ [Enn _]].
    pose proof (mag_nonneg _ _ _ MT) as Tnn.
    cbn [Part002.trapezoid_loop exact_area length] in *.
    change (@n_add float binary64) with PrimFloat.add.
    change (@n_sub float binary64) with PrimFloat.sub.
    change (@n_mul float binary64) with PrimFloat.mul.
    change (@n_div float binary64) with PrimFloat.div.
    change (@lit2 float binary64) with 2%float.
    set (t := ((wavelength cur - wavelength prev)
               * ((intensity cur + intensity prev) / 2))%float) in *.
    destruct (factors_small k ltac:(lia)) as [_ Fk].
    destruct (add_tame acc t Ta Tt) as [Ta' Ba'].
    { destruct Ha as [_ Ha]. pose proof (mag_upper _ _ _ Mt).
      pose proof (pow2_le 903 950 ltac:(lia)).
      pose proof (pow2_double 950). pose proof (pow2_double 951).
      pose proof (pow2_le 952 1022 ltac:(lia)). simpl Z.add in *. nra. }
    assert (Asum: approx k (value acc + value t) (racc + trapezoid prev cur)).
    { apply approx_add; [exact Ha|]. apply (approx_weaken 3); assumption. }
    assert (A': approx (S k) (value (acc + t)%float) (racc + trapezoid prev cur))
      by (apply (approx_round k (value acc + value t)); [lra|exact Asum|exact Ba']).
    destruct (IH cur (acc + t)%float (S k) (racc + trapezoid prev cur) Lrest Hs Ta')
      as [Tres Ares]; try assumption; try lra; try lia.
    split; [exact Tres|].
    replace (k + S (length rest))%nat with (S k + length rest)%nat by lia.
    rewrite <- Rplus_assoc. exact Ares.
Qed.

(** *** The normalized spectrum *)

Lemma approx_trans k j v r s :
  0 <= s -> approx k v r -> approx j r s -> approx (k + j) v s.
Proof.
  unfold approx. intros Hs [H1 H2] [H3 H4]. rewrite !pow_add.
  pose proof down_pos. pose proof up_pos.
  assert (0 < (1 - u52) ^ k) by (apply pow_lt; lra).
  assert (0 < (1 + u52) ^ k) by (apply pow_lt; lra).
  assert (0 < (1 - u52) ^ j) by (apply pow_lt; lra).
  assert (0 < (1 + u52) ^ j) by (apply pow_lt; lra).
  split; nra.
Qed.

Section Normalized.

Variable area : float.
Hypothesis area_normal : normal area.
Hypothesis area_inside : inside (-402) 421 (value area).

(** A point as "area" normalization rewrites it. *)
Definition divided (d : SpectralDataPoint float) : SpectralDataPoint float :=
  mkPoint (wavelength d) (intensity d / area)%float.

Lemma divided_level d :
  level (-200) 200 (intensity d) ->
  level (-700) 700 (intensity (divided d))
  /\ approx 1 (value (intensity (divided d))) (value (intensity d) / value area).
Proof.
  intros [Td Md]. simpl.
  assert (Mq: mag (-621) 602 (value (intensity d) / value area))
    by (apply (mag_div (-200) 200 (-402) 421); assumption).
  destruct (div_tame (intensity d) area Td area_normal) as [Tq Bq].
  { destruct Md as [Md|Md]; [left; exact Md|].
    destruct Mq as [Mq|Mq]; [|right; apply (inside_weaken (-621) 602); try lia; exact Mq].
    left. destruct area_inside as [Ha _]. pose proof (pow2_pos (-402)).
    unfold Rdiv in Mq. apply Rmult_integral in Mq. destruct Mq as [Mq|Mq]; [exact Mq|].
    exfalso. assert (0 < / value area) by (apply Rinv_0_lt_compat; lra). lra. }
  split; [split; [exact Tq|]|].
  - apply (mag_weaken (-622) 603); try lia.
    apply (mag_round (-621) 602 (value (intensity d) / value area)); assumption.
  - apply (approx_round 0 (value (intensity d) / value area));
      [apply (mag_nonneg _ _ _ Mq)|apply approx_refl|exact Bq].
Qed.

Lemma divided_levels data :
  levels (-200) 200 data -> levels (-700) 700 (map divided data).
Proof.
  unfold levels. intros H. induction H as [|d data Hd _ IH]; simpl; constructor.
  - apply (proj1 (divided_level d Hd)).
  - exact IH.
Qed.

Lemma divided_steps rest : forall prev,
    moderate_steps prev rest -> moderate_steps (divided prev) (map divided rest).
Proof.
  induction rest as [|cur rest IH]; intros prev H; simpl; [exact I|].
  destruct H as [H1 H2]. split; [exact H1|apply IH; exact H2].
Qed.

(** The exact area of the normalized spectrum is the exact area of the
    spectrum over the divisor, up to the rounding of the intensities. *)
Lemma divided_area rest : forall prev,
    levels (-200) 200 (prev :: rest) -> moderate_steps prev rest ->
    approx 1 (exact_area (divided prev) (map divided rest))
           (exact_area prev rest / value area).
Proof.
  induction rest as [|cur rest IH]; intros prev Hl Hs.
  - simpl. unfold approx. unfold Rdiv. rewrite !Rmult_0_l. lra.
  - inversion Hl as [|? ? Lp Lrest]; subst. inversion Lrest as [|? ? Lc _]; subst.
    destruct Hs as [Hdx Hs]. specialize (IH cur Lrest Hs).
    destruct (divided_level prev Lp) as [_ Ap].
    destruct (divided_level cur Lc) as [_ Ac].
    destruct (moderate_normal _ Hdx) as [_ [Rdx _]].
    pose proof (pow2_pos (-200)).
    cbn [map exact_area]. unfold trapezoid.
    change (wavelength (divided cur)) with (wavelength cur).
    change (wavelength (divided prev)) with (wavelength prev).
    set (dx := value (wavelength cur - wavelength prev)%float) in *.
    replace ((dx * ((value (intensity cur) + value (intensity prev)) / 2)
              + exact_area cur rest) / value area)
      with (dx / 2 * (value (intensity cur) / value area
                      + value (intensity prev) / value area)
            + exact_area cur rest / value area)
      by (destruct area_inside; pose proof (pow2_pos (-402)); field; lra).
    replace (dx * ((value (intensity (divided cur)) + value (intensity (divided prev))) / 2))
      with (dx / 2 * (value (intensity (divided cur)) + value (intensity (divided prev))))
      by field.
    apply approx_add; [|exact IH].
    apply approx_scale; [lra|]. apply approx_add; assumption.
Qed.

End Normalized.

Lemma well_scaled_levels data :
  Forall (fun d => strict_eq (intensity d) 0%float || moderate (intensity d) = true) data ->
  levels (-200) 200 data.
Proof.
  unfold levels. intros H. induction H as [|d data Hd _ IH]; constructor; [|exact IH].
  apply orb_true_iff in Hd. destruct Hd as [Hz|Hm].
  - destruct (strict_eq_zero _ Hz) as [s Hs]. split; [left; eauto|].
    left. apply (tame_value_zero _ s Hs).
  - destruct (moderate_normal _ Hm) as [Hn Hr]. split; [apply normal_tame; exact Hn|].
    right. exact Hr.
Qed.

Lemma levels_weaken a b a' b' data :
  (a' <= a)%Z -> (b <= b')%Z -> levels a b data -> levels a' b' data.
Proof.
  unfold levels. intros Ha Hb H. induction H as [|d data [Td Md] _ IH]; constructor; [|exact IH].
  split; [exact Td|apply (mag_weaken a b); assumption].
Qed.

Lemma count_bound n : (Z.of_nat n <= 2 ^ 20)%Z -> INR n <= pow2 20.
Proof.
  intros H. rewrite INR_IZR_INZ, (pow2_IZR 20) by lia. apply IZR_le. exact H.
Qed.

(** *** The bound *)

(** The final step: a value within [k] roundings of a ratio that is
    itself within [k] roundings of 1. *)
Lemma ratio_near_one k v E A :
  (Z.of_nat k <= 2 ^ 21)%Z -> 0 < E -> 0 < A ->
  approx k A E -> approx k v (E / A) ->
  Rabs (v - 1) <= INR k * pow2 (-50).
Proof.
  intros Hk HE HA [A1 A2] [V1 V2].
  pose proof (count_small k Hk) as Hsmall.
  pose proof (pow_down_bound k) as HP. pose proof (pow_up_bound k ltac:(lra)) as HQ.
  pose proof down_pos as Hd. pose proof up_pos as Hu.
  set (P := (1 - u52) ^ k) in *. set (Q := (1 + u52) ^ k) in *.
  assert (PP: 0 < P) by (apply pow_lt; lra).
  assert (PQ: 0 < Q) by (apply pow_lt; lra).
  remember (INR k * u52) as a eqn:Ea.
  replace (2 * INR k * u52) with (2 * a) in HQ by (rewrite Ea; ring).
  assert (Ha0: 0 <= a) by (rewrite Ea; pose proof (pos_INR k); pose proof u52_pos; nra).
  set (rho := E / A) in *.
  assert (Hrho: rho * A = E) by (subst rho; field; lra).
  assert (Hrho0: 0 < rho) by (subst rho; apply Rdiv_lt_0_compat; assumption).
  assert (R1: 1 <= rho * Q).
  { apply (Rmult_le_reg_l A); [exact HA|].
    replace (A * (rho * Q)) with (E * Q) by (rewrite <- Hrho; ring). lra. }
  assert (R2: rho * P <= 1).
  { apply (Rmult_le_reg_l A); [exact HA|].
    replace (A * (rho * P)) with (E * P) by (rewrite <- Hrho; ring). lra. }
  assert (B1: P <= v * Q).
  { apply (Rle_trans _ (rho * P * Q)); [|apply Rmult_le_compat_r; lra].
    replace (rho * P * Q) with (P * (rho * Q)) by ring.
    rewrite <- (Rmult_1_r P) at 1. apply Rmult_le_compat_l; lra. }
  assert (B2: v * P <= Q).
  { apply (Rle_trans _ (rho * Q * P)); [apply Rmult_le_compat_r; lra|].
    replace (rho * Q * P) with (Q * (rho * P)) by ring.
    rewrite <- (Rmult_1_r Q) at 2. apply Rmult_le_compat_l; lra. }
  assert (Hv0: 0 <= v) by nra.
  assert (Ha4: a <= / 4) by lra.
  assert (Up: v <= 1 + 4 * a).
  { destruct (Rle_lt_dec v (1 + 4 * a)) as [?|Hgt]; [assumption|exfalso].
    assert (v * (1 - a) <= v * P) by (apply Rmult_le_compat_l; lra).
    assert ((1 + 4 * a) * (1 - a) <= v * (1 - a)) by (apply Rmult_le_compat_r; lra).
    nra. }
  assert (Lo: 1 - 4 * a <= v).
  { assert (v * Q <= v * (1 + 2 * a)) by (apply Rmult_le_compat_l; lra).
    nra. }
  assert (Hfour: INR k * pow2 (-50) = 4 * a).
  { rewrite Ea. unfold u52. replace (-50)%Z with (2 + -52)%Z by lia. rewrite pow2_add.
    replace (pow2 2) with 4 by (unfold pow2; simpl; lra). ring. }
  rewrite Hfour. apply Rabs_le. lra.
Qed.

(** "area" normalization on a well-scaled spectrum, in binary64: the area
    of the result is within [(n + 3) * 2^-50] of 1, [n] being the number
    of points. *)
Lemma area_normalization_error data :
  well_scaled data ->
  strict_eq (Part002.trapezoidalIntegration data) 0%float = false ->
  let area' :=
    Part002.trapezoidalIntegration (Part002.normalizeSpectrum data area_method) in
  is_finite area' = true
  /\ Rabs (value area' - 1) <= INR (length data + 3) * pow2 (-50).
Proof.
  intros [Hlen [Hint Hsteps]] Hnz.
  destruct data as [|first rest]; [discriminate Hnz|].
  pose proof (well_scaled_levels _ Hint) as L200.
  pose proof (levels_weaken (-200) 200 (-700) 700 _ ltac:(lia) ltac:(lia) L200) as L700.
  destruct tame_zero as [T0 V0].
  cbn [length] in Hlen.
  set (n := length rest) in *.
  assert (Hn: INR n <= pow2 20) by (apply count_bound; lia).
  (* the area *)
  destruct (exact_area_mag (-200) 200 rest first L200 Hsteps) as [Elow [Enn Eup]].
  fold n in Eup. simpl Z.add in Eup. simpl Z.sub in Elow.
  set (E := exact_area first rest) in *.
  assert (Eup': E <= pow2 420).
  { replace 420%Z with (20 + 400)%Z by lia. rewrite pow2_add.
    pose proof (pow2_pos 400). nra. }
  destruct (loop_error rest first 0%float 3 0 L700 Hsteps T0 (Rle_refl 0)) as [TA AA].
  { rewrite V0. unfold approx. lra. }
  { rewrite Rplus_0_l. fold E. pose proof (pow2_le 420 950 ltac:(lia)). lra. }
  { lia. }
  { fold n. lia. }
  rewrite Rplus_0_l in AA. fold n E in AA.
  change (Part002.trapezoid_loop first rest 0%float)
    with (Part002.trapezoidalIntegration (first :: rest)) in TA, AA.
  set (A := Part002.trapezoidalIntegration (first :: rest)) in *.
  pose proof (tame_not_zero A TA Hnz) as NA.
  pose proof (normal_positive A NA) as PA. pose proof (pow2_pos (-1021)) as P1021.
  destruct (factors_small (3 + n) ltac:(lia)) as [F1 F2].
  assert (Epos: 0 < E).
  { destruct AA as [_ AA]. destruct (Rle_lt_or_eq_dec _ _ Enn) as [?|He]; [assumption|].
    rewrite <- He in AA. lra. }
  assert (Elow': pow2 (-401) <= E) by (destruct Elow; lra).
  assert (IA: inside (-402) 421 (value A)).
  { destruct AA as [AA1 AA2]. unfold inside.
    pose proof (pow2_half (-401)) as H1. simpl Z.sub in H1.
    pose proof (pow2_double 420) as H2. simpl Z.add in H2.
    rewrite H1, H2. split; nra. }
  (* the normalized spectrum *)
  assert (Hnorm: Part002.normalizeSpectrum (first :: rest) area_method
                 = map (divided A) (first :: rest)).
  { unfold Part002.normalizeSpectrum.
    change (is0 (Part002.trapezoidalIntegration (first :: rest)))
      with (strict_eq A 0%float).
    rewrite Hnz. reflexivity. }
  intros area'. subst area'. rewrite Hnorm. cbn [map Part002.trapezoidalIntegration].
  pose proof (divided_levels A NA IA _ L200) as L'.
  pose proof (divided_steps A rest first Hsteps) as S'.
  pose proof (divided_area A NA IA rest first L200 Hsteps) as AE. fold E in AE.
  destruct (exact_area_mag (-700) 700 (map (divided A) rest) (divided A first) L' S')
    as [_ [Enn' Eup'']].
  rewrite length_map in Eup''. fold n in Eup''. simpl Z.add in Eup''.
  destruct (loop_error (map (divided A) rest) (divided A first) 0%float 3 0 L' S' T0
              (Rle_refl 0)) as [TA' AA'].
  { rewrite V0. unfold approx. lra. }
  { rewrite Rplus_0_l. pose proof (pow2_add 20 900) as Hp. simpl Z.add in Hp.
    pose proof (pow2_le 920 950 ltac:(lia)). pose proof (pow2_pos 900). nra. }
  { lia. }
  { rewrite length_map. fold n. lia. }
  rewrite Rplus_0_l, length_map in AA'. fold n in AA'.
  split; [apply tame_finite; exact TA'|].
  assert (Hq: 0 <= E / value A) by (apply Rlt_le, Rdiv_lt_0_compat; lra).
  pose proof (approx_trans _ _ _ _ _ Hq AA' AE) as Atot.
  replace (3 + n + 1)%nat with (n + 4)%nat in Atot by lia.
  pose proof (approx_weaken (3 + n) (n + 4) _ _ Enn ltac:(lia) AA) as AA4.
  replace (length (first :: rest) + 3)%nat with (n + 4)%nat by (simpl; fold n; lia).
  apply (ratio_near_one (n + 4) _ E (value A)); try assumption; try lra. lia.
Qed.

Lemma count_within n :
  (Z.of_nat n <= 2 ^ 20)%Z -> INR (n + 3) * pow2 (-50) <= pow2 (-29).
Proof.
  intros H. replace (-29)%Z with (21 + -50)%Z by lia. rewrite pow2_add.
  assert (Hn: INR (n + 3) <= pow2 21).
  { rewrite INR_IZR_INZ, (pow2_IZR 21) by lia. apply IZR_le.
    rewrite Nat2Z.inj_add. change (2 ^ 21)%Z with 2097152%Z.
    change (2 ^ 20)%Z with 1048576%Z in H. lia. }
  pose proof (pow2_pos (-50)). nra.
Qed.

Lemma leb_ltb_trans (a b c : float) :
  (a <=? b)%float = true -> (b <? c)%float = true -> (a <? c)%float = true.
Proof.
  intros H1 H2.
  destruct (leb_not_nan _ _ H1) as [Ha Hb], (ltb_not_nan _ _ H2) as [_ Hc].
  by_keys.
Qed.

End Reals64.

(** ** The claims *)

Import Binary64 Arrays.

(** *** C1: the end-to-end scenario *)

(** C1, as stated, fails: on the scenario the half-maximum walk stops at
    502 and 506 (0.3 is not above the half maximum 0.45), so the width is
    4 and not 8; and the binary64 difference 0.9 - 0.3 is not 0.6. *)
Lemma scenario_as_specified_fails : ~ scenario_as_specified.
Proof.
  intros [pk [H [_ [_ [Hf _]]]]].
  vm_compute in H. injection H as <-. simpl in Hf.
  revert Hf. apply strict_eq_false_neq; reflexivity.
Qed.

(** C1, amended: on the scenario spectrum with min_height 0.05 and
    prominence threshold 0.1, both copies of [detectPeaks] return exactly
    one peak, at position 504 with amplitude 0.9; the half-maximum walk
    stops at indices 1 and 3 (wavelengths 502 and 506), giving fwhm 4; the
    prominence is the binary64 difference 0.9 - 0.3, which is
    0.6000000000000001. *)
Theorem scenario_peak :
  exists pk,
    Part002.detectPeaks scenario 0.1 0.05 = [pk]
    /\ ScientificTs.detectPeaks scenario 0.1 0.05 = [pk]
    /\ position pk = 504 /\ amplitude pk = 0.9
    /\ Part002.walk_left scenario (0.9 / 2) 2 = 1%nat
    /\ Part002.walk_right scenario (0.9 / 2) 2 2 = 3%nat
    /\ fwhm pk = 506 - 502 /\ fwhm pk = 4
    /\ prominence pk = 0.9 - 0.3 /\ prominence pk = 0.6000000000000001
    /\ strict_eq (prominence pk) 0.6 = false.
Proof.
  exists (mkPeak 504 0.9 4 3.1999999999999997 0.6000000000000001).
  repeat split; vm_compute; reflexivity.
Qed.

(** *** C2: the order of the pipeline *)

(** C2: in both copies [preprocessSpectrum] runs outlier removal, noise
    reduction, baseline correction and normalization in this order, each
    applied stage on the output of the one before it; a stage whose
    sub-config is absent, or outlier removal when not enabled, is skipped;
    the "als" baseline method is a skipped stage, and nothing is raised. *)
Theorem preprocessSpectrum_stages :
  (forall (P : PowApprox) data params,
      Part002.preprocessSpectrum data params
      = run_in_order
          (pipeline Part002.removeOutliers Part002.savitzkyGolayFilter
                    Part002.polynomialBaselineCorrection Part002.normalizeSpectrum params)
          data)
  /\ (forall (P : PowApprox) data params,
         ScientificTs.preprocessSpectrum data params
         = run_in_order
             (pipeline ScientificTs.removeOutliers ScientificTs.savitzkyGolayFilter
                       ScientificTs.polynomialBaselineCorrection
                       ScientificTs.normalizeSpectrum params)
             data)
  /\ (forall (P : PowApprox) data nr nm o lam pp degree,
         Part002.preprocessSpectrum
           data (mkParams nr (Some (mkBaselineCorrection als degree lam pp)) nm o)
         = Part002.preprocessSpectrum data (mkParams nr None nm o)
         /\ ScientificTs.preprocessSpectrum
              data (mkParams nr (Some (mkBaselineCorrection als degree lam pp)) nm o)
            = ScientificTs.preprocessSpectrum data (mkParams nr None nm o))
  /\ (forall (P : PowApprox) data thr,
         Part002.preprocessSpectrum data (mkParams None None None None) = data
         /\ Part002.preprocessSpectrum
              data (mkParams None None None (Some (mkOutlierRemoval false thr))) = data
         /\ ScientificTs.preprocessSpectrum data (mkParams None None None None) = data
         /\ ScientificTs.preprocessSpectrum
              data (mkParams None None None (Some (mkOutlierRemoval false thr))) = data).
Proof.
  repeat split; try reflexivity.
  - intros P data [[nr|] [[[|] [[|d]|] lam pp]|] [nm|] [[[|] thr]|]]; reflexivity.
  - intros P data [[nr|] [[[|] [[|d]|] lam pp]|] [nm|] [[[|] thr]|]]; reflexivity.
Qed.

(** *** C3: degenerate spectra *)

(** C3: on an empty spectrum [calculateStatistics] returns the all-zero
    record and [detectPeaks] returns no peak; [detectPeaks] returns no
    peak on any spectrum of at most two points.  Both are total functions:
    nothing is raised. *)
Theorem empty_and_short_spectra :
  (forall P : PowApprox, Part002.calculateStatistics [] = mkStatistics 0 0 0 0 0)
  /\ (forall prominence minHeight, Part002.detectPeaks [] prominence minHeight = [])
  /\ (forall data prominence minHeight,
         (length data <= 2)%nat -> Part002.detectPeaks data prominence minHeight = []).
Proof.
  split; [reflexivity|]. split; [reflexivity|].
  intros data prominence minHeight Hlen. unfold Part002.detectPeaks.
  replace (length data - 2)%nat with 0%nat by lia. reflexivity.
Qed.

Lemma empty_and_short_spectra_witness :
  (length two_points <= 2)%nat /\ Part002.detectPeaks two_points 0.1 0.05 = [].
Proof.
  split; [simpl; lia|].
  apply (proj2 (proj2 empty_and_short_spectra)). simpl; lia.
Defined.

(** *** C4: a sequence against itself *)

Section PerfectFit.
Context {P : PowApprox}.

Lemma square_of_zero : Math_pow 0 2 = 0.
Proof. reflexivity. Qed.

(** Against itself a finite sequence leaves no residual, from any index. *)
Lemma residual_of_self rest : forall before,
    finite_numbers rest ->
    reduce_from (fun sum val i => sum + Math_pow (val - get (before ++ rest) i) 2)
                (length before) rest 0 = 0.
Proof.
  induction rest as [|v rest IH]; intros before Hf; cbn [reduce_from]; [reflexivity|].
  inversion Hf as [|? ? Hv Hrest]; subst.
  rewrite get_middle, sub_diag by assumption. rewrite square_of_zero.
  change (0 + 0) with 0.
  specialize (IH (before ++ [v]) Hrest).
  rewrite <- app_assoc, length_app in IH. simpl in IH.
  rewrite Nat.add_1_r in IH. exact IH.
Qed.

Lemma ss_residual_self observed :
  finite_numbers observed -> Part002.ss_residual observed observed = 0.
Proof.
  intros Hf. exact (residual_of_self observed [] Hf).
Qed.

End PerfectFit.

(** C4, as stated, fails: a constant observed sequence has total sum of
    squares 0, and the guard of [calculateRSquared] then returns 0, not 1,
    whatever the implementation of [Math.pow]. *)
Lemma perfect_fit_as_specified_fails : ~ perfect_fit_as_specified.
Proof.
  intros [P H]. destruct (H [1]) as [Hr _]; [discriminate|].
  revert Hr. apply not_eq_sym, strict_eq_false_neq; reflexivity.
Qed.

(** C4, amended: for every non-empty observed sequence of finite numbers
    (an array holds fewer than 2^32 of them) and the prediction equal to
    it element for element, [calculateRMSE] returns exactly 0, and
    [calculateRSquared] returns exactly 1 when the total sum of squares is
    positive and 0 when it is zero. *)
Theorem perfect_fit :
  forall (P : PowApprox) observed,
    observed <> [] ->
    finite_numbers observed ->
    (Z.of_nat (length observed) < 2 ^ 32)%Z ->
    Part002.calculateRMSE observed observed = 0
    /\ ((0 <? Part002.ss_total observed) = true ->
        Part002.calculateRSquared observed observed = 1)
    /\ (strict_eq (Part002.ss_total observed) 0 = true ->
        Part002.calculateRSquared observed observed = 0).
Proof.
  intros P observed Hne Hf Hlen.
  destruct observed as [|v rest]; [congruence|].
  unfold Part002.calculateRMSE, Part002.calculateRSquared.
  rewrite ss_residual_self by assumption.
  repeat split.
  - rewrite zero_div_length; [reflexivity|simpl; lia|].
    change (2 ^ 63)%Z with (2 ^ 32 * 2 ^ 31)%Z. lia.
  - intros Hpos. rewrite (positive_not_zero _ Hpos), (zero_div_pos _ Hpos). reflexivity.
  - intros ->. reflexivity.
Qed.

Lemma perfect_fit_witness :
  Part002.calculateRMSE (P := by_multiplication) [1; 2] [1; 2] = 0
  /\ Part002.calculateRSquared (P := by_multiplication) [1; 2] [1; 2] = 1
  /\ Part002.calculateRSquared (P := by_multiplication) [3; 3] [3; 3] = 0.
Proof.
  assert (F12: finite_numbers [1; 2]) by (repeat constructor).
  assert (F33: finite_numbers [3; 3]) by (repeat constructor).
  assert (L: (Z.of_nat 2 < 2 ^ 32)%Z) by reflexivity.
  destruct (perfect_fit by_multiplication [1; 2] ltac:(discriminate) F12 L) as [H1 [H2 _]].
  destruct (perfect_fit by_multiplication [3; 3] ltac:(discriminate) F33 L) as [_ [_ H3]].
  split; [exact H1|]. split; [apply H2; reflexivity|apply H3; reflexivity].
Defined.

(** *** C5: normalization *)

Import Reals64.

(** C5, as stated, fails on binary64 for every tolerance below 1: the
    area of [cancelling] is 3.3e-16, which is not 0, and the area of its
    normalization is -1.5, at a distance 2.5 from 1. *)
Lemma unit_area_as_specified_fails : ~ unit_area_as_specified.
Proof.
  intros [[eps [Heps H]] _]. specialize (H cancelling eq_refl).
  replace (Math_abs
             (Part002.trapezoidalIntegration
                (Part002.normalizeSpectrum cancelling area_method) - 1))
    with 2.5 in H by (vm_compute; reflexivity).
  pose proof (leb_ltb_trans _ _ _ H Heps) as Habs.
  vm_compute in Habs. discriminate Habs.
Qed.

(** What the conditions of the amended statement keep out: the
    normalized area is -1.5 after a cancellation, 0 after an overflow of
    the area, and 0.75 after an underflow in it. *)
Lemma unit_area_failures :
  (strict_eq (Part002.trapezoidalIntegration cancelling) 0 = false
   /\ Part002.trapezoidalIntegration
        (Part002.normalizeSpectrum cancelling area_method) = -1.5)
  /\ (Part002.trapezoidalIntegration overflowing = infinity
      /\ Part002.trapezoidalIntegration
           (Part002.normalizeSpectrum overflowing area_method) = 0)
  /\ (strict_eq (Part002.trapezoidalIntegration underflowing) 0 = false
      /\ Part002.trapezoidalIntegration
           (Part002.normalizeSpectrum underflowing area_method) = 0.75).
Proof. repeat split; vm_compute; reflexivity. Qed.

(** C5, amended: on binary64, for every spectrum of at most [2^20]
    points whose intensities are each zero or between 1e-60 and 1e60,
    whose successive wavelength differences are between 1e-60 and 1e60,
    and whose trapezoidal integral is not 0, "area" normalization divides
    every intensity by that integral and yields a spectrum whose
    trapezoidal integral is a finite Number within [(n + 3) * 2^-50] of 1,
    [n] being the number of points (so within 2e-9); and "max"
    normalization when the maximum intensity is 0, and "area"
    normalization when the area is 0, return the input unchanged. *)
Theorem normalization :
  (forall data : Spectrum,
      well_scaled data ->
      strict_eq (Part002.trapezoidalIntegration data) 0 = false ->
      let normalized :=
        Part002.trapezoidalIntegration (Part002.normalizeSpectrum data area_method) in
      is_finite normalized = true
      /\ (Rabs (value normalized - 1) <= INR (length data + 3) * pow2 (-50))%R
      /\ (Rabs (value normalized - 1) <= pow2 (-29))%R)
  /\ (forall data : Spectrum,
         strict_eq (Part002.trapezoidalIntegration data) 0 = false ->
         Part002.normalizeSpectrum data area_method
         = map (fun d => mkPoint (wavelength d)
                                 (intensity d / Part002.trapezoidalIntegration data))
               data)
  /\ (forall (N : Type) (A : Arith N) (data : list (SpectralDataPoint N)),
         (is0 (max_of (map intensity data)) = true ->
          Part002.normalizeSpectrum data max_method = data)
         /\ (is0 (Part002.trapezoidalIntegration data) = true ->
             Part002.normalizeSpectrum data area_method = data)).
Proof.
  split; [|split].
  - intros data Hw Hnz normalized.
    destruct (area_normalization_error data Hw Hnz) as [Hf Hb].
    fold normalized in Hf, Hb. split; [exact Hf|]. split; [exact Hb|].
    eapply Rle_trans; [exact Hb|]. apply count_within. exact (proj1 Hw).
  - intros data Hz. unfold Part002.normalizeSpectrum.
    destruct data as [|d data]; [reflexivity|].
    change (is0 (Part002.trapezoidalIntegration (d :: data)))
      with (strict_eq (Part002.trapezoidalIntegration (d :: data)) 0).
    rewrite Hz. reflexivity.
  - intros N A data. unfold Part002.normalizeSpectrum. split; intros Hz.
    + destruct data; [reflexivity|]. rewrite Hz. reflexivity.
    + destruct data; [reflexivity|]. rewrite Hz. reflexivity.
Qed.

Lemma normalization_witness :
  (is_finite (Part002.trapezoidalIntegration
                (Part002.normalizeSpectrum integers_1_1_4 area_method)) = true
   /\ (Rabs (value (Part002.trapezoidalIntegration
                      (Part002.normalizeSpectrum integers_1_1_4 area_method)) - 1)
        <= INR (length integers_1_1_4 + 3) * pow2 (-50))%R
   /\ (Rabs (value (Part002.trapezoidalIntegration
                      (Part002.normalizeSpectrum integers_1_1_4 area_method)) - 1)
        <= pow2 (-29))%R)
  /\ Part002.normalizeSpectrum integers_1_1_4 area_method
     = [mkPoint 1 (1 / 3.5); mkPoint 2 (1 / 3.5); mkPoint 3 (4 / 3.5)]
  /\ Part002.normalizeSpectrum flat_zero max_method = flat_zero
  /\ Part002.normalizeSpectrum flat_zero area_method = flat_zero.
Proof.
  destruct normalization as [H1 [H2 H3]].
  split; [|split].
  - apply (H1 integers_1_1_4); [|reflexivity].
    split; [vm_compute; discriminate|]. split; [|repeat split].
    repeat constructor.
  - rewrite H2 by reflexivity. reflexivity.
  - destruct (H3 float binary64 flat_zero) as [H4 H5].
    split; [apply H4; reflexivity|apply H5; reflexivity].
Defined.

(** *** C6: outlier removal *)

Section Outliers.
Context {P : PowApprox}.

Lemma mean_of_population values : Part002.mean_of values = population_mean values.
Proof.
  unfold Part002.mean_of, Part002.sum_of, population_mean, total, reduce.
  rewrite (reduce_from_fold PrimFloat.add). reflexivity.
Qed.

Lemma std_of_population values :
  Math_sqrt (Part002.variance_of values) = population_std values.
Proof.
  unfold Part002.variance_of, population_std, total, reduce.
  rewrite mean_of_population, fold_left_map_sum.
  rewrite (reduce_from_fold (fun s v => s + Math_pow (v - population_mean values) 2)).
  reflexivity.
Qed.

End Outliers.

(** C6: for every non-empty spectrum, with the population mean and
    standard deviation of its intensities, the revised [removeOutliers]
    returns the input unchanged when std == 0 and otherwise exactly the
    points with [|intensity - mean| <= threshold * std], in their order;
    its output is a subsequence of the input and never longer.  The first
    copy has no std == 0 case and returns the points the test keeps: on
    [tiny_step], where std is 0, it returns no point at all. *)
Theorem removeOutliers_keeps_within :
  (forall (P : PowApprox) data threshold,
      data <> [] ->
      let mean := population_mean (map intensity data) in
      let std := population_std (map intensity data) in
      (strict_eq std 0 = false ->
       Part002.removeOutliers data threshold = filter (within threshold mean std) data)
      /\ (strict_eq std 0 = true -> Part002.removeOutliers data threshold = data)
      /\ subsequence (Part002.removeOutliers data threshold) data
      /\ incl (Part002.removeOutliers data threshold) data
      /\ (length (Part002.removeOutliers data threshold) <= length data)%nat
      /\ ScientificTs.removeOutliers data threshold
         = filter (within threshold mean std) data
      /\ subsequence (ScientificTs.removeOutliers data threshold) data
      /\ (length (ScientificTs.removeOutliers data threshold) <= length data)%nat)
  /\ (strict_eq (population_std (P := by_multiplication) (map intensity tiny_step)) 0 = true
      /\ Part002.removeOutliers (P := by_multiplication) tiny_step 3 = tiny_step
      /\ ScientificTs.removeOutliers (P := by_multiplication) tiny_step 3 = []).
Proof.
  split; [|repeat split].
  intros P data threshold Hne mean std.
  assert (Hcode: Part002.removeOutliers data threshold
                 = if strict_eq std 0 then data
                   else filter (within threshold mean std) data).
  { destruct data as [|d rest]; [congruence|].
    unfold Part002.removeOutliers. rewrite std_of_population, mean_of_population.
    reflexivity. }
  assert (Hsub: subsequence (Part002.removeOutliers data threshold) data).
  { rewrite Hcode. destruct (strict_eq std 0);
      [apply subsequence_refl|apply filter_subsequence]. }
  assert (Hfirst: ScientificTs.removeOutliers data threshold
                  = filter (within threshold mean std) data).
  { unfold ScientificTs.removeOutliers.
    change (reduce (fun a b _ => a + b) (map intensity data) 0)
      with (Part002.sum_of (map intensity data)).
    fold (Part002.mean_of (map intensity data)).
    fold (Part002.variance_of (map intensity data)).
    rewrite std_of_population, mean_of_population. reflexivity. }
  repeat split.
  - intros Hz. rewrite Hcode, Hz. reflexivity.
  - intros Hz. rewrite Hcode, Hz. reflexivity.
  - exact Hsub.
  - apply subsequence_incl, Hsub.
  - apply subsequence_length, Hsub.
  - exact Hfirst.
  - rewrite Hfirst. apply filter_subsequence.
  - rewrite Hfirst. apply subsequence_length, filter_subsequence.
Qed.

Lemma removeOutliers_keeps_within_witness :
  Part002.removeOutliers (P := by_multiplication) with_spike 3 = firstn 10 with_spike
  /\ Part002.removeOutliers (P := by_multiplication) flat_zero 3 = flat_zero.
Proof.
  destruct (proj1 removeOutliers_keeps_within
                  by_multiplication with_spike 3 ltac:(discriminate))
    as [H1 _].
  destruct (proj1 removeOutliers_keeps_within
                  by_multiplication flat_zero 3 ltac:(discriminate))
    as [_ [H2 _]].
  split; [rewrite H1 by reflexivity; reflexivity|apply H2; reflexivity].
Defined.

(** *** C7: width and position of detected peaks *)

(** C7, as stated, fails: three points at wavelength Infinity are sorted,
    the middle one is a peak, and its width Infinity - Infinity is NaN,
    which is not [>= 0]. *)
Lemma peaks_within_as_specified_fails : ~ peaks_within_as_specified.
Proof.
  intros H.
  destruct (H at_infinity 0.1 0.05 (mkPeak infinity 1 nan 0 1)) as [Hf _].
  - repeat constructor.
  - left. reflexivity.
  - discriminate Hf.
Qed.

Section Walks.

Lemma walk_left_le data halfMax : forall i, (Part002.walk_left data halfMax i <= i)%nat.
Proof.
  induction i as [|i IH]; simpl; [lia|].
  destruct (gtb _ _); lia.
Qed.

Lemma walk_right_bounds data halfMax : forall room i,
    (i <= Part002.walk_right data halfMax i room <= i + room)%nat.
Proof.
  induction room as [|room IH]; intros i; simpl; [lia|].
  destruct (gtb _ _); [specialize (IH (S i))|]; lia.
Qed.

Lemma wavelength_le_trans a b c :
  wavelength_le a b -> wavelength_le b c -> wavelength_le a c.
Proof. unfold wavelength_le. apply leb_trans. Qed.

Lemma ascending_pairs data :
  ascending data -> finite_wavelengths data ->
  forall i j, (i <= j < length data)%nat ->
              wavelength_le (at_index data i) (at_index data j).
Proof.
  intros Hs Hf. apply Sorted_StronglySorted in Hs; [|exact wavelength_le_trans].
  induction Hs as [|d rest Hrest IH Hd]; intros i j Hij; simpl in Hij; [lia|].
  inversion Hf as [|? ? Fd Frest]; subst.
  unfold at_index. destruct j as [|j].
  - replace i with 0%nat by lia. simpl.
    apply leb_refl, is_finite_not_nan, Fd.
  - destruct i as [|i]; simpl.
    + rewrite Forall_forall in Hd. apply Hd, nth_In. lia.
    + apply (IH Frest). lia.
Qed.

Lemma at_index_finite data i :
  finite_wavelengths data -> (i < length data)%nat ->
  is_finite (wavelength (at_index data i)) = true.
Proof.
  intros Hf Hi. unfold finite_wavelengths in Hf. rewrite Forall_forall in Hf.
  apply Hf, nth_In, Hi.
Qed.

Lemma calculateFWHM_nonneg data i :
  ascending data -> finite_wavelengths data -> (i < length data)%nat ->
  (0 <=? Part002.calculateFWHM data i) = true.
Proof.
  intros Hs Hf Hi. unfold Part002.calculateFWHM.
  set (halfMax := intensity (at_index data i) / 2).
  pose proof (walk_left_le data halfMax i) as Hl.
  pose proof (walk_right_bounds data halfMax (length data - 1 - i) i) as Hr.
  apply sub_nonneg.
  - apply at_index_finite; [assumption|lia].
  - apply at_index_finite; [assumption|lia].
  - apply ascending_pairs; [assumption|assumption|lia].
Qed.

(** What [detectPeaks] returns was pushed by the scan at an interior index. *)
Lemma detectPeaks_origin data prominence minHeight pk :
  In pk (Part002.detectPeaks data prominence minHeight) ->
  exists i, (1 <= i)%nat /\ (i + 1 < length data)%nat
            /\ position pk = wavelength (at_index data i)
            /\ amplitude pk = intensity (at_index data i)
            /\ fwhm pk = Part002.calculateFWHM data i.
Proof.
  unfold Part002.detectPeaks. intros H.
  apply filter_In in H. destruct H as [H _].
  apply in_flat_map in H. destruct H as [i [Hi Hpk]].
  apply in_seq in Hi. exists i.
  unfold Part002.candidate in Hpk.
  destruct (_ && _) in Hpk; [|contradiction].
  destruct Hpk as [<-|[]]. simpl. repeat split; lia.
Qed.

End Walks.

(** C7, amended: for every spectrum with finite wavelengths sorted
    ascending, and any detection parameters, every peak returned by
    [detectPeaks] has [fwhm >= 0] and a position between the smallest and
    the largest wavelength of the input. *)
Theorem peaks_within :
  forall data prominence minHeight pk,
    ascending data ->
    finite_wavelengths data ->
    In pk (Part002.detectPeaks data prominence minHeight) ->
    (0 <=? fwhm pk) = true
    /\ (Math_min (map wavelength data) <=? position pk) = true
    /\ (position pk <=? Math_max (map wavelength data)) = true.
Proof.
  intros data threshold minHeight pk Hs Hf Hin.
  destruct (detectPeaks_origin _ _ _ _ Hin) as [i [H1 [H2 [Hp [_ Hw]]]]].
  split.
  - rewrite Hw. apply calculateFWHM_nonneg; [assumption|assumption|lia].
  - rewrite Hp. apply Math_min_max_bounds.
    + unfold numbers. rewrite Forall_map.
      eapply Forall_impl; [|exact Hf]. intros d. apply is_finite_not_nan.
    + apply in_map, nth_In. lia.
Qed.

Lemma peaks_within_witness :
  let pk := mkPeak 504 0.9 4 3.1999999999999997 0.6000000000000001 in
  (0 <=? fwhm pk) = true
  /\ (Math_min (map wavelength scenario) <=? position pk) = true
  /\ (position pk <=? Math_max (map wavelength scenario)) = true.
Proof.
  apply (peaks_within scenario 0.1 0.05).
  - repeat constructor.
  - repeat constructor.
  - left. reflexivity.
Defined.

(** *** C8: the Voigt model *)

(** C8: whatever the imported functions are, for every spectrum and
    detection parameters the analysis with the "voigt" model produces the
    fitted data of the "gaussian" model, and with it the same R-squared
    and RMSE: when peaks are detected the fitted data is exactly
    [fitGaussian data detectedPeaks]. *)
Theorem voigt_is_gaussian :
  forall detectPeaks fitGaussian fitLorentzian calculateRSquared calculateRMSE
         calculateStatistics data prominence minHeight,
    let analyze :=
      handleAnalyze detectPeaks fitGaussian fitLorentzian calculateRSquared
                    calculateRMSE calculateStatistics data in
    fitted (analyze voigt_model prominence minHeight)
    = fitted (analyze gaussian_model prominence minHeight)
    /\ scores (analyze voigt_model prominence minHeight)
       = scores (analyze gaussian_model prominence minHeight)
    /\ fitted (analyze voigt_model prominence minHeight)
       = match data, detectPeaks data prominence minHeight with
         | _ :: _, (_ :: _) as detectedPeaks => Some (fitGaussian data detectedPeaks)
         | _, _ => None
         end.
Proof.
  intros detectPeaks fitGaussian fitLorentzian calculateRSquared calculateRMSE
         calculateStatistics data threshold minHeight analyze.
  subst analyze. unfold handleAnalyze.
  destruct data as [|d data]; [repeat split|].
  destruct (detectPeaks (d :: data) threshold minHeight); repeat split.
Qed.

(** *** C9: zero width *)

(** C9: in the revised copy [gaussian] and [lorentzian] return 0 at zero
    width ([+0] and [-0] are the Numbers that [=== 0]); in the first copy,
    which has no guard, both divide by zero and return NaN at the centre. *)
Theorem zero_width :
  (forall (P : PowApprox) (E : ExpApprox) x amplitude center,
      Part002.gaussian x amplitude center 0 = 0
      /\ Part002.gaussian x amplitude center (-0) = 0
      /\ Part002.lorentzian x amplitude center 0 = 0
      /\ Part002.lorentzian x amplitude center (-0) = 0)
  /\ (forall (P : PowApprox) (E : ExpApprox),
         ScientificTs.gaussian 504 0.9 504 0 = nan
         /\ ScientificTs.lorentzian 504 0.9 504 0 = nan).
Proof.
  split; intros; repeat split.
Qed.

(** *** C10: the two copies *)

Section Copies.
Context {P : PowApprox} {E : ExpApprox} {L : LogApprox}.

Lemma trapezoid_loop_same rest : forall prev acc,
    Part002.trapezoid_loop prev rest acc = ScientificTs.trapezoid_loop prev rest acc.
Proof.
  induction rest as [|cur rest IH]; intros prev acc; simpl; [reflexivity|apply IH].
Qed.

Lemma trapezoidalIntegration_same data :
  Part002.trapezoidalIntegration data = ScientificTs.trapezoidalIntegration data.
Proof.
  destruct data; [reflexivity|apply trapezoid_loop_same].
Qed.

Lemma walk_left_same data halfMax i :
  Part002.walk_left data halfMax i = ScientificTs.walk_left data halfMax i.
Proof.
  induction i as [|i IH]; simpl; [reflexivity|]. rewrite IH. reflexivity.
Qed.

Lemma walk_right_same data halfMax room : forall i,
    Part002.walk_right data halfMax i room = ScientificTs.walk_right data halfMax i room.
Proof.
  induction room as [|room IH]; intros i; simpl; [reflexivity|]. rewrite IH. reflexivity.
Qed.

Lemma calculateFWHM_same data i :
  Part002.calculateFWHM data i = ScientificTs.calculateFWHM data i.
Proof.
  unfold Part002.calculateFWHM, ScientificTs.calculateFWHM.
  rewrite walk_left_same, walk_right_same. reflexivity.
Qed.

Lemma calculatePeakArea_same data i width :
  Part002.calculatePeakArea data i width = ScientificTs.calculatePeakArea data i width.
Proof.
  unfold Part002.calculatePeakArea, ScientificTs.calculatePeakArea.
  apply trapezoidalIntegration_same.
Qed.

Lemma candidate_same data minHeight i :
  strict_eq (intensity (at_index data i)) minHeight = false ->
  Part002.candidate data minHeight i = ScientificTs.candidate data minHeight i.
Proof.
  intros Hne. unfold Part002.candidate, ScientificTs.candidate.
  rewrite geb_gtb_or_eq, Hne, orb_false_r.
  rewrite calculateFWHM_same, calculatePeakArea_same. reflexivity.
Qed.

Lemma detectPeaks_same data prominence minHeight :
  Forall (fun d => strict_eq (intensity d) minHeight = false) data ->
  Part002.detectPeaks data prominence minHeight
  = ScientificTs.detectPeaks data prominence minHeight.
Proof.
  intros Hne. unfold Part002.detectPeaks, ScientificTs.detectPeaks. f_equal.
  rewrite !flat_map_concat_map. f_equal. apply map_ext_in.
  intros i Hi. apply in_seq in Hi. apply candidate_same.
  rewrite Forall_forall in Hne. apply Hne, nth_In. lia.
Qed.

End Copies.

(** Where the two copies part, on concrete inputs: a peak exactly as high
    as [minHeight], the edges of the smoothing window, zero width at the
    centre, a constant observed sequence, an empty spectrum, a spectrum of
    maximum 0. *)
Lemma copies_differ :
  forall (P : PowApprox) (E : ExpApprox),
    Part002.detectPeaks one_peak 0.1 1 = [mkPeak 2 1 2 1 1]
    /\ ScientificTs.detectPeaks one_peak 0.1 1 = []
    /\ Part002.savitzkyGolayFilter ramp 3 2
       = [mkPoint 1 1.5; mkPoint 2 2; mkPoint 3 2.5]
    /\ ScientificTs.savitzkyGolayFilter ramp 3 2 = ramp
    /\ Part002.gaussian 2 1 2 0 = 0 /\ ScientificTs.gaussian 2 1 2 0 = nan
    /\ Part002.lorentzian 2 1 2 0 = 0 /\ ScientificTs.lorentzian 2 1 2 0 = nan
    /\ Part002.calculateRSquared [1; 1] [1; 1] = 0
    /\ ScientificTs.calculateRSquared [1; 1] [1; 1] = nan
    /\ Part002.calculateRMSE [] [] = 0 /\ ScientificTs.calculateRMSE [] [] = nan
    /\ Part002.calculateStatistics [] = mkStatistics 0 0 0 0 0
    /\ ScientificTs.calculateStatistics [] = mkStatistics nan nan neg_infinity infinity 0
    /\ Part002.normalizeSpectrum flat_zero max_method = flat_zero
    /\ ScientificTs.normalizeSpectrum flat_zero max_method
       = [mkPoint 500 nan; mkPoint 501 nan].
Proof.
  intros P E. repeat split.
Qed.

(** The baseline is a least-squares polynomial in the revised copy and the
    mean intensity in the first: on a ramp, with [Math.pow] by
    multiplication, a line is removed entirely by one and not by the other. *)
Lemma baseline_copies_differ :
  Part002.polynomialBaselineCorrection (P := by_multiplication) ramp 1
  = [mkPoint 1 0; mkPoint 2 0; mkPoint 3 0]
  /\ ScientificTs.polynomialBaselineCorrection (P := by_multiplication) ramp 1
     = [mkPoint 1 0; mkPoint 2 0; mkPoint 3 1].
Proof. split; vm_compute; reflexivity. Qed.

(** C10, as stated, fails: the first copy requires a peak to be strictly
    higher than [minHeight], the revised copy accepts a peak as high. *)
Lemma copies_agree_as_specified_fails : ~ copies_agree_as_specified.
Proof.
  intros [P [E [H _]]]. specialize (H one_peak 0.1 1).
  destruct (copies_differ P E) as [H1 [H2 _]]. congruence.
Qed.

(** C10, amended: the two copies agree away from the guards that the
    revised copy adds: [gaussian] and [lorentzian] at a width that is not
    0, [calculateRSquared] on a non-empty observed sequence whose total sum
    of squares is not 0, [calculateRMSE] and [calculateStatistics] on
    non-empty input, [normalizeSpectrum] when the divisor (the maximum, the
    area) is not 0, and [detectPeaks] when no intensity equals [minHeight]. *)
Theorem copies_agree_off_guards :
  forall (P : PowApprox) (E : ExpApprox),
    (forall x amplitude center width,
        strict_eq width 0 = false ->
        Part002.gaussian x amplitude center width
        = ScientificTs.gaussian x amplitude center width)
    /\ (forall x amplitude center width,
           strict_eq width 0 = false ->
           Part002.lorentzian x amplitude center width
           = ScientificTs.lorentzian x amplitude center width)
    /\ (forall observed predicted,
           observed <> [] ->
           strict_eq (Part002.ss_total observed) 0 = false ->
           Part002.calculateRSquared observed predicted
           = ScientificTs.calculateRSquared observed predicted)
    /\ (forall observed predicted,
           observed <> [] ->
           Part002.calculateRMSE observed predicted
           = ScientificTs.calculateRMSE observed predicted)
    /\ (forall data,
           data <> [] ->
           Part002.calculateStatistics data = ScientificTs.calculateStatistics data)
    /\ (forall data,
           strict_eq (Math_max (map intensity data)) 0 = false ->
           Part002.normalizeSpectrum data max_method
           = ScientificTs.normalizeSpectrum data max_method)
    /\ (forall data,
           strict_eq (Part002.trapezoidalIntegration data) 0 = false ->
           Part002.normalizeSpectrum data area_method
           = ScientificTs.normalizeSpectrum data area_method)
    /\ (forall data prominence minHeight,
           Forall (fun d => strict_eq (intensity d) minHeight = false) data ->
           Part002.detectPeaks data prominence minHeight
           = ScientificTs.detectPeaks data prominence minHeight).
Proof.
  intros P E. repeat split.
  - intros x amplitude center width Hw.
    unfold Part002.gaussian. rewrite Hw. reflexivity.
  - intros x amplitude center width Hw.
    unfold Part002.lorentzian. rewrite Hw. reflexivity.
  - intros [|v rest] predicted Hne Hz; [congruence|].
    unfold Part002.calculateRSquared. rewrite Hz. reflexivity.
  - intros [|v rest] predicted Hne; [congruence|]. reflexivity.
  - intros [|d rest] Hne; [congruence|].
    unfold Part002.calculateStatistics, ScientificTs.calculateStatistics.
    rewrite trapezoidalIntegration_same. reflexivity.
  - intros [|d rest] Hz; [reflexivity|].
    unfold Part002.normalizeSpectrum, ScientificTs.normalizeSpectrum.
    change (is0 (max_of (map intensity (d :: rest))))
      with (strict_eq (Math_max (map intensity (d :: rest))) 0).
    rewrite Hz. reflexivity.
  - intros [|d rest] Hz; [reflexivity|].
    unfold Part002.normalizeSpectrum, ScientificTs.normalizeSpectrum.
    change (is0 (Part002.trapezoidalIntegration (d :: rest)))
      with (strict_eq (Part002.trapezoidalIntegration (d :: rest)) 0).
    rewrite Hz, trapezoidalIntegration_same. reflexivity.
  - intros data prominence minHeight. apply detectPeaks_same.
Qed.

Lemma copies_agree_off_guards_witness :
  Part002.gaussian (P := by_multiplication) (E := by_series) 2 1 2 0.5
  = ScientificTs.gaussian (P := by_multiplication) (E := by_series) 2 1 2 0.5
  /\ Part002.calculateRSquared (P := by_multiplication) [1; 2] [1; 3]
     = ScientificTs.calculateRSquared (P := by_multiplication) [1; 2] [1; 3]
  /\ Part002.calculateStatistics (P := by_multiplication) scenario
     = ScientificTs.calculateStatistics (P := by_multiplication) scenario
  /\ Part002.normalizeSpectrum scenario max_method
     = ScientificTs.normalizeSpectrum scenario max_method
  /\ Part002.normalizeSpectrum scenario area_method
     = ScientificTs.normalizeSpectrum scenario area_method
  /\ Part002.detectPeaks scenario 0.1 0.05 = ScientificTs.detectPeaks scenario 0.1 0.05.
Proof.
  destruct (copies_agree_off_guards by_multiplication by_series)
    as [H1 [_ [H3 [_ [H5 [H6 [H7 H8]]]]]]].
  split; [apply H1; reflexivity|].
  split; [apply H3; [discriminate|reflexivity]|].
  split; [apply H5; discriminate|].
  split; [apply H6; reflexivity|].
  split; [apply H7; reflexivity|].
  apply H8. repeat constructor.
Defined.

(** * More properties of the engine and the pages *)

(** ** More on arrays *)

Section MapIndexed.
Context {A B : Type}.

Lemma mapi_from_length (f : A -> nat -> B) (a : list A) : forall i,
    length (mapi_from f i a) = length a.
Proof. induction a as [|v rest IH]; intros i; simpl; [reflexivity|rewrite IH; reflexivity]. Qed.

Lemma map_mapi_from {C : Type} (g : B -> C) (h : A -> C) (f : A -> nat -> B) (a : list A) :
  (forall v i, g (f v i) = h v) -> forall i, map g (mapi_from f i a) = map h a.
Proof.
  intros H. induction a as [|v rest IH]; intros i; simpl; [reflexivity|].
  rewrite H, IH. reflexivity.
Qed.

Lemma in_mapi_from (f : A -> nat -> B) (a : list A) y : forall i,
    In y (mapi_from f i a) ->
    exists v j, In v a /\ (i <= j < i + length a)%nat /\ y = f v j.
Proof.
  induction a as [|v rest IH]; intros i H; simpl in H; [contradiction|].
  destruct H as [<-|H].
  - exists v, i. simpl. repeat split; auto; lia.
  - destruct (IH _ H) as [w [j [Hw [Hj ->]]]].
    exists w, j. simpl. repeat split; auto; lia.
Qed.

Lemma mapi_from_ext (f g : A -> nat -> B) (a : list A) : forall i,
    (forall k v, nth_error a k = Some v -> f v (i + k)%nat = g v (i + k)%nat) ->
    mapi_from f i a = mapi_from g i a.
Proof.
  induction a as [|v rest IH]; intros i H; simpl; [reflexivity|].
  f_equal.
  - specialize (H 0%nat v eq_refl). rewrite Nat.add_0_r in H. exact H.
  - apply IH. intros k w Hk. specialize (H (S k) w Hk).
    rewrite Nat.add_succ_r in H. exact H.
Qed.

End MapIndexed.

Lemma mapi_from_id {A : Type} (a : list A) : forall i, mapi_from (fun v _ => v) i a = a.
Proof. induction a as [|v rest IH]; intros i; simpl; [reflexivity|rewrite IH; reflexivity]. Qed.

(** ** The wavelengths the filter returns *)

Lemma savitzkyGolayFilter_grid data windowLength polynomialOrder :
  map wavelength (Part002.savitzkyGolayFilter data windowLength polynomialOrder)
  = map wavelength data.
Proof.
  unfold Part002.savitzkyGolayFilter, mapi. apply map_mapi_from.
  intros v i. destruct (fold_left _ _ _). reflexivity.
Qed.

Lemma savitzkyGolayFilter_grid_first data windowLength polynomialOrder :
  map wavelength (ScientificTs.savitzkyGolayFilter data windowLength polynomialOrder)
  = map wavelength data.
Proof.
  unfold ScientificTs.savitzkyGolayFilter, mapi. apply map_mapi_from.
  intros v i. destruct (_ || _); reflexivity.
Qed.

(** ** More on Numbers *)

Lemma is_nan_eq x : is_nan x = true -> x = nan.
Proof. intros H. apply Prim2SF_inj. apply is_nan_spec in H. rewrite H. reflexivity. Qed.

Lemma add_nan_l y : nan + y = nan.
Proof. apply Prim2SF_inj. rewrite add_spec. reflexivity. Qed.

Lemma add_nan_r x : x + nan = nan.
Proof. apply Prim2SF_inj. rewrite add_spec. change (Prim2SF nan) with S754_nan.
  unfold SF64add, SFadd. destruct (Prim2SF x); reflexivity. Qed.

Lemma sub_nan_r x : x - nan = nan.
Proof. apply Prim2SF_inj. rewrite sub_spec. change (Prim2SF nan) with S754_nan.
  unfold SF64sub, SFsub. destruct (Prim2SF x); reflexivity. Qed.

Lemma sub_nan_l y : nan - y = nan.
Proof. apply Prim2SF_inj. rewrite sub_spec. reflexivity. Qed.

Lemma mul_nan_r x : x * nan = nan.
Proof. apply Prim2SF_inj. rewrite mul_spec. change (Prim2SF nan) with S754_nan.
  unfold SF64mul, SFmul. destruct (Prim2SF x); reflexivity. Qed.

Lemma div_nan_l y : nan / y = nan.
Proof. apply Prim2SF_inj. rewrite div_spec. reflexivity. Qed.

Lemma div_nan_r x : x / nan = nan.
Proof. apply Prim2SF_inj. rewrite div_spec. change (Prim2SF nan) with S754_nan.
  unfold SF64div, SFdiv. destruct (Prim2SF x); reflexivity. Qed.

Lemma leb_nan_r x : (x <=? nan) = false.
Proof. rewrite leb_spec. change (Prim2SF nan) with S754_nan.
  unfold SFleb, SFcompare. destruct (Prim2SF x) as [?|?| |? ? ?]; reflexivity. Qed.

Lemma Math_pow_nan {P : PowApprox} n : Math_pow nan (S n) = nan.
Proof. reflexivity. Qed.

(** [Math.sqrt] never returns a negative Number: its result is NaN, or
    [0 <= result] holds. *)
Lemma Math_sqrt_sign x : is_nan (Math_sqrt x) = true \/ (0 <=? Math_sqrt x) = true.
Proof.
  unfold Math_sqrt.
  destruct (is_nan (PrimFloat.sqrt x)) eqn:Hn; [left; reflexivity|right].
  apply nonneg_leb. apply is_nan_false in Hn. rewrite sqrt_spec in *.
  unfold SF64sqrt, SFsqrt in *.
  destruct (Prim2SF x) as [s|[]| |[] m e]; try congruence; try exact I.
  destruct (SFsqrt_core_binary prec emax (Z.pos m) e) as [[mz ez] lz] eqn:Hc.
  assert (Hz: (0 <= mz)%Z).
  { unfold SFsqrt_core_binary in Hc.
    match type of Hc with
    | context [Z.sqrtrem ?a] =>
        pose proof (Z.sqrtrem_sqrt a) as Hs; pose proof (Z.sqrt_nonneg a);
        destruct (Z.sqrtrem a) as [q r]
    end.
    simpl in Hs. inversion Hc; subst. assumption. }
  pose proof (Rounding.binary_round_aux_sign prec emax false mz ez lz Hz) as Hr.
  destruct (binary_round_aux prec emax false mz ez lz); try contradiction; subst; exact I.
Qed.

(** *** The sign of a difference *)

Lemma binary_round_sign s q e :
  (SpecFloat.emin prec emax <= e)%Z ->
  SFcompare (binary_round prec emax s q e) (S754_zero false)
  = Some (if s then Lt else Gt).
Proof.
  intros He. unfold binary_round.
  destruct (shl_align q e (fexp prec emax (Z.pos (digits2_pos q) + e))) as [mz ez] eqn:Hs.
  assert (Hd: (SpecFloat.emin prec emax < Zdigits2 (Z.pos mz) + ez)%Z).
  { unfold shl_align in Hs. simpl Zdigits2.
    pose proof (Pos2Z.is_pos (digits2_pos mz)).
    destruct (fexp prec emax (Z.pos (digits2_pos q) + e) - e)%Z eqn:Hd;
      inversion Hs; subst; clear Hs; try lia.
    unfold fexp in *. lia. }
  pose proof (Rounding.binary_round_aux_pos prec emax (eq_refl : (0 < prec)%Z)
                s (Z.pos mz) ez loc_Exact (Pos2Z.is_pos mz) Hd) as Hr.
  destruct (binary_round_aux prec emax s (Z.pos mz) ez loc_Exact);
    try contradiction; subst; reflexivity.
Qed.

Lemma binary_normalize_sign z e szero :
  (SpecFloat.emin prec emax <= e)%Z -> z <> 0%Z ->
  SFcompare (binary_normalize prec emax z e szero) (S754_zero false)
  = Some (Z.compare z 0).
Proof.
  intros He Hz. destruct z as [|q|q]; [congruence| |]; simpl;
    apply binary_round_sign; assumption.
Qed.

(** The difference of two Numbers that compare has the sign of the
    comparison: there is no underflow to zero in a subtraction. *)
Lemma sub_compare a b c :
  SFcompare (Prim2SF a) (Prim2SF b) = Some c -> c <> Eq ->
  SFcompare (Prim2SF (a - b)) (S754_zero false) = Some c.
Proof.
  rewrite sub_spec. unfold SF64sub.
  destruct (Prim2SF a) as [sa|sa| |sa ma ea] eqn:Ha;
    destruct (Prim2SF b) as [sb|sb| |sb mb eb] eqn:Hb;
    try (simpl; intros H; inversion H; subst; clear H; intros Hc;
         repeat match goal with s : bool |- _ => destruct s end;
         simpl in *; congruence).
  destruct (canonical a _ _ _ Ha) as [La [Ea Ca]].
  destruct (canonical b _ _ _ Hb) as [Lb [Eb Cb]].
  intros H Hc. unfold SFsub.
  assert (P1: (0 < Z.pos ma * 2 ^ (ea - Z.min ea eb))%Z)
    by (apply Z.mul_pos_pos; [lia|apply Z.pow_pos_nonneg; lia]).
  assert (P2: (0 < Z.pos mb * 2 ^ (eb - Z.min ea eb))%Z)
    by (apply Z.mul_pos_pos; [lia|apply Z.pow_pos_nonneg; lia]).
  match goal with
  | |- SFcompare (binary_normalize _ _ ?z _ _) _ = _ =>
      assert (Hz: Z.compare z 0 = c)
  end.
  { rewrite !shl_align_value by lia.
    simpl in H. injection H as H'. subst c. revert Hc.
    change (PosDef.Pos.compare_cont Eq ma mb) with (Pos.compare ma mb).
    destruct sa, sb; cbv [cond_Zopp];
      try (intros _; first [apply Z.compare_lt_iff; lia|apply Z.compare_gt_iff; lia]);
      (destruct (Z.compare_spec ea eb) as [He|He|He];
       [ subst eb; rewrite Z.min_id, Z.sub_diag, Z.pow_0_r in *;
         destruct (Pos.compare_spec ma mb); cbn [CompOpp]; intros Hc; try congruence;
         first [apply Z.compare_lt_iff; lia|apply Z.compare_gt_iff; lia]
       | rewrite Z.min_l, Z.sub_diag, Z.pow_0_r in * by lia;
         pose proof (aligned_lt ma ea mb eb La (Cb ltac:(lia)) He);
         intros _; first [apply Z.compare_lt_iff; lia|apply Z.compare_gt_iff; lia]
       | rewrite Z.min_r, Z.sub_diag, Z.pow_0_r in * by lia;
         pose proof (aligned_lt mb eb ma ea Lb (Ca ltac:(lia)) He);
         intros _; first [apply Z.compare_lt_iff; lia|apply Z.compare_gt_iff; lia] ]). }
  rewrite <- Hz. apply binary_normalize_sign.
  - unfold SpecFloat.emin, prec, emax. lia.
  - intros Hz0. rewrite Hz0 in Hz. simpl in Hz. congruence.
Qed.

Lemma sub_neg a b : (a <? b) = true -> (a - b <? 0) = true.
Proof.
  rewrite !ltb_spec, Prim2SF_zero. unfold SFltb. intros H.
  destruct (SFcompare (Prim2SF a) (Prim2SF b)) as [[]|] eqn:Hc; try discriminate.
  rewrite (sub_compare a b Lt Hc) by discriminate. reflexivity.
Qed.

Lemma sub_pos a b : (a <? b) = true -> (0 <? b - a) = true.
Proof.
  intros H. destruct (ltb_not_nan _ _ H) as [Na Nb].
  rewrite ltb_spec in *. rewrite Prim2SF_zero. unfold SFltb in *.
  destruct (SFcompare (Prim2SF a) (Prim2SF b)) as [[]|] eqn:Hc; try discriminate.
  assert (Hc': SFcompare (Prim2SF b) (Prim2SF a) = Some Gt).
  { apply is_nan_false in Na, Nb. revert Hc. clear.
    destruct (Prim2SF a) as [sa|sa| |sa ma ea], (Prim2SF b) as [sb|sb| |sb mb eb];
      simpl; try discriminate;
      repeat match goal with s : bool |- _ => destruct s end; simpl; try congruence;
      rewrite (Z.compare_antisym ea eb);
      change (PosDef.Pos.compare_cont Eq mb ma) with (Pos.compare mb ma);
      change (PosDef.Pos.compare_cont Eq ma mb) with (Pos.compare ma mb);
      rewrite (Pos.compare_antisym ma mb);
      destruct (ea ?= eb)%Z; simpl; try congruence;
      destruct (ma ?= mb)%positive; simpl; congruence. }
  pose proof (sub_compare b a Gt Hc' ltac:(discriminate)) as Hs.
  destruct (Prim2SF (b - a)) as [s|s| |s m e]; simpl in *; try discriminate;
    destruct s; simpl in *; try discriminate; reflexivity.
Qed.

Lemma Prim2SF_one : Prim2SF 1 = S754_finite false 4503599627370496 (-52).
Proof. reflexivity. Qed.

(** A finite Number other than zero divided by itself is exactly 1. *)
Lemma div_diag x : is_finite x = true -> strict_eq x 0 = false -> x / x = 1.
Proof.
  intros Fx Hx. apply Prim2SF_inj. rewrite div_spec, Prim2SF_one.
  unfold strict_eq in Hx. rewrite FloatAxioms.eqb_spec, Prim2SF_zero in Hx.
  destruct (is_finite_spec x Fx) as [[s Hs]|[s [m [e Hs]]]]; rewrite Hs in *.
  - destruct s; discriminate Hx.
  - clear Hx. unfold SF64div, SFdiv, SFdiv_core_binary.
    replace (Zdigits2 (Z.pos m) + e - (Zdigits2 (Z.pos m) + e))%Z with 0%Z by lia.
    rewrite Z.sub_diag.
    change (Z.min (fexp prec emax 0) 0) with (-53)%Z.
    change (0 - -53)%Z with 53%Z. cbv iota.
    rewrite Z.shiftl_mul_pow2 by lia.
    assert (Hd: Z.div_eucl (Z.pos m * 2 ^ 53) (Z.pos m) = (2 ^ 53, 0)%Z).
    { pose proof (Z.div_eucl_eq (Z.pos m * 2 ^ 53) (Z.pos m) ltac:(lia)) as H1.
      pose proof (Z.mod_pos_bound (Z.pos m * 2 ^ 53) (Z.pos m) ltac:(lia)) as H2.
      unfold Z.modulo in H2.
      pose proof (Z.div_mul (2 ^ 53) (Z.pos m) ltac:(lia)) as H3.
      pose proof (Z.mod_mul (2 ^ 53) (Z.pos m) ltac:(lia)) as H4.
      rewrite (Z.mul_comm (2 ^ 53)) in H3, H4.
      unfold Z.div in H3. unfold Z.modulo in H4.
      destruct (Z.div_eucl (Z.pos m * 2 ^ 53) (Z.pos m)) as [q r].
      simpl in H3, H4. subst. reflexivity. }
    rewrite Hd.
    assert (Hl: new_location (Z.pos m) 0 = loc_Exact).
    { unfold new_location, new_location_even, new_location_odd.
      destruct (Z.even (Z.pos m)); reflexivity. }
    rewrite Hl. destruct s; reflexivity.
Qed.

(** *** A quotient below one *)

Lemma Zdigits2_le q k : (0 <= q)%Z -> (0 <= k)%Z -> (q < 2 ^ k)%Z -> (Zdigits2 q <= k)%Z.
Proof.
  intros Hq Hk H. destruct (Z.eq_dec q 0) as [->|Hn]; [simpl; lia|].
  rewrite Rounding.Zdigits2_log2 by lia.
  assert (Z.log2 q < k)%Z by (apply Z.log2_lt_pow2; lia). lia.
Qed.

Lemma SFleb_finite_pos m1 e1 m2 e2 :
  (e1 < e2 \/ (e1 = e2 /\ Z.pos m1 <= Z.pos m2))%Z ->
  SFleb (S754_finite false m1 e1) (S754_finite false m2 e2) = true.
Proof.
  intros H. unfold SFleb, SFcompare.
  change (PosDef.Pos.compare_cont Eq m1 m2) with (Pos.compare m1 m2).
  destruct (Z.compare_spec e1 e2) as [He|He|He]; try reflexivity; try lia.
  destruct (Pos.compare_spec m1 m2); try reflexivity. lia.
Qed.

(** Rounding a value below one gives at most one: [q] and [e] stand for
    a value in [[q * 2^e, (q + 1) * 2^e]], with [(q + 1) * 2^e <= 1]. *)
Lemma binary_round_aux_le_one q e l :
  (0 <= q)%Z -> (e <= -53)%Z -> (q < 2 ^ (- e))%Z ->
  SFleb (binary_round_aux prec emax false q e l) (S754_finite false 4503599627370496 (-52))
  = true.
Proof.
  intros Hq He Hlt. unfold binary_round_aux, shr_fexp.
  set (n1 := (fexp prec emax (Zdigits2 q + e) - e)%Z).
  pose proof (Zdigits2_le q (- e) Hq ltac:(lia) Hlt) as Hd.
  destruct (Rounding.shr_spec q l e n1 Hq) as [H1 H1e].
  destruct (shr (shr_record_of_loc q l) e n1) as [r1 e1]. simpl in H1, H1e.
  assert (E1: (e1 <= -53)%Z).
  { subst e1 n1. unfold fexp, SpecFloat.emin, prec, emax. lia. }
  assert (N1: (0 <= Z.max 0 n1)%Z) by lia.
  assert (M1: (0 <= shr_m r1 < 2 ^ (- e1))%Z).
  { rewrite H1. split; [apply Z.div_pos; [lia|apply Z.pow_pos_nonneg; lia]|].
    apply Z.div_lt_upper_bound; [apply Z.pow_pos_nonneg; lia|].
    rewrite <- Z.pow_add_r by lia.
    replace (Z.max 0 n1 + - e1)%Z with (- e)%Z by lia. exact Hlt. }
  set (m2 := round_nearest_even (shr_m r1) (loc_of_shr_record r1)).
  pose proof (Rounding.round_nearest_even_bounds (shr_m r1) (loc_of_shr_record r1)) as Hb.
  fold m2 in Hb.
  assert (M2: (0 <= m2 <= 2 ^ (- e1))%Z) by lia.
  set (n2 := (fexp prec emax (Zdigits2 m2 + e1) - e1)%Z).
  destruct (Rounding.shr_spec m2 loc_Exact e1 n2 (proj1 M2)) as [H2 H2e].
  destruct (shr (shr_record_of_loc m2 loc_Exact) e1 n2) as [r2 e2]. simpl in H2, H2e.
  assert (D2: (Zdigits2 m2 + e1 <= 1)%Z).
  { pose proof (Zdigits2_le m2 (- e1 + 1) (proj1 M2) ltac:(lia)) as Hx.
    rewrite Z.pow_add_r in Hx by lia. change (2 ^ 1)%Z with 2%Z in Hx.
    assert (0 < 2 ^ (- e1))%Z by (apply Z.pow_pos_nonneg; lia). lia. }
  assert (E2: (e2 <= -52)%Z).
  { subst e2 n2. unfold fexp, SpecFloat.emin, prec, emax. lia. }
  assert (M3: (0 <= shr_m r2)%Z).
  { rewrite H2. apply Z.div_pos; [lia|apply Z.pow_pos_nonneg; lia]. }
  assert (M3': (e2 = -52 -> shr_m r2 <= 2 ^ 52)%Z).
  { intros Heq. rewrite H2.
    assert (Hn: (Z.max 0 n2 = -52 - e1)%Z) by lia.
    rewrite Hn.
    apply Z.div_le_upper_bound; [apply Z.pow_pos_nonneg; lia|].
    rewrite <- Z.pow_add_r by lia.
    replace (-52 - e1 + 52)%Z with (- e1)%Z by lia. lia. }
  destruct (shr_m r2) as [|m3|m3]; try lia; [reflexivity|].
  replace (e2 <=? emax - prec)%Z with true
    by (symmetry; apply Z.leb_le; unfold emax, prec; lia).
  apply SFleb_finite_pos.
  destruct (Z.eq_dec e2 (-52)) as [Heq|Hne]; [right|left; lia].
  split; [exact Heq|]. specialize (M3' Heq).
  change (2 ^ 52)%Z with (Z.pos 4503599627370496) in M3'. exact M3'.
Qed.

(** A Number divided by a positive finite Number that is at least as large
    is at most 1. *)
Lemma div_le_one x y :
  is_finite y = true -> (0 <? y) = true -> (x <=? y) = true -> (x / y <=? 1) = true.
Proof.
  intros Fy Py Hxy.
  destruct (x <? y) eqn:Hlt.
  2:{ (* x === y *)
    destruct (leb_not_nan _ _ Hxy) as [Nx Ny].
    assert (Hyx: (y <=? x) = true) by (apply not_ltb_leb; assumption).
    assert (Heq: Prim2SF x = Prim2SF y).
    { rewrite leb_spec in Hxy, Hyx. rewrite ltb_spec, Prim2SF_zero in Py.
      destruct (is_finite_spec y Fy) as [[s Hs]|[s [m [e Hs]]]]; rewrite Hs in *.
      - destruct s; discriminate Py.
      - destruct s; [discriminate Py|].
        destruct (Prim2SF x) as [sx|sx| |sx mx ex]; try discriminate;
          try (destruct sx; discriminate).
        unfold SFleb, SFcompare in Hxy, Hyx.
        destruct sx; [discriminate|].
        rewrite (Z.compare_antisym ex e) in Hyx.
        change (PosDef.Pos.compare_cont Eq m mx) with (Pos.compare m mx) in Hyx.
        change (PosDef.Pos.compare_cont Eq mx m) with (Pos.compare mx m) in Hxy.
        rewrite (Pos.compare_antisym mx m) in Hyx.
        destruct (Z.compare_spec ex e); simpl in *; try discriminate. subst.
        destruct (Pos.compare_spec mx m); simpl in *; try discriminate. subst.
        reflexivity. }
    apply Prim2SF_inj in Heq. subst y.
    rewrite div_diag; [reflexivity|assumption|apply positive_not_zero; assumption]. }
  clear Hxy. rewrite leb_spec, div_spec, Prim2SF_one.
  rewrite ltb_spec in Hlt, Py. rewrite Prim2SF_zero in Py.
  destruct (is_finite_spec y Fy) as [[s Hs]|[s [my [ey Hy]]]].
  { rewrite Hs in Py. destruct s; discriminate Py. }
  rewrite Hy in *. destruct s; [discriminate Py|]. clear Py.
  destruct (canonical y _ _ _ Hy) as [Ly [Ey Cy]].
  destruct (Prim2SF x) as [sx|sx| |sx mx ex] eqn:Hx; try discriminate.
  - destruct sx; reflexivity.
  - destruct sx; [reflexivity|discriminate].
  - destruct (canonical x _ _ _ Hx) as [Lx [Ex Cx]].
    unfold SF64div, SFdiv.
    destruct (SFdiv_core_binary prec emax (Z.pos mx) ex (Z.pos my) ey) as [[q e'] l] eqn:Hc.
    assert (Hq: (0 <= q)%Z).
    { unfold SFdiv_core_binary in Hc.
      match type of Hc with
      | context [Z.div_eucl ?a ?b] =>
          assert (Ha: (0 <= a)%Z);
          [|pose proof (Z.div_pos a b Ha ltac:(lia)) as Hd; unfold Z.div in Hd;
            destruct (Z.div_eucl a b) as [q0 r0]; inversion Hc; subst; exact Hd]
      end.
      match goal with
      | |- (0 <= match ?s with _ => _ end)%Z => destruct s; try lia
      end.
      apply Z.shiftl_nonneg. lia. }
    destruct sx.
    + (* a negative quotient *)
      pose proof (Rounding.binary_round_aux_sign prec emax true q e' l Hq) as Hr.
      simpl xorb.
      destruct (binary_round_aux prec emax true q e' l); try contradiction; subst; reflexivity.
    + simpl xorb. unfold SFltb, SFcompare in Hlt.
      assert (Hord: (ex <= ey /\ Z.pos mx < Z.pos my * 2 ^ (ey - ex))%Z).
      { destruct (Z.compare_spec ex ey) as [He|He|He]; try discriminate.
        - subst ey. rewrite Z.sub_diag, Z.pow_0_r.
          change (PosDef.Pos.compare_cont Eq mx my) with (Pos.compare mx my) in Hlt.
          destruct (Pos.compare_spec mx my); try discriminate. lia.
        - split; [lia|]. apply aligned_lt; [assumption|apply Cy; lia|assumption]. }
      destruct Hord as [Hee Hm].
      assert (Hdig: (Zdigits2 (Z.pos mx) + ex <= Zdigits2 (Z.pos my) + ey)%Z).
      { rewrite !Rounding.Zdigits2_log2 by lia.
        destruct (Z.eq_dec ex ey) as [->|Hne].
        - rewrite Z.sub_diag, Z.pow_0_r in Hm.
          pose proof (Z.log2_le_mono (Z.pos mx) (Z.pos my) ltac:(lia)). lia.
        - rewrite (Cy ltac:(lia)). lia. }
      set (e0 := Z.min (fexp prec emax (Zdigits2 (Z.pos mx) + ex - (Zdigits2 (Z.pos my) + ey)))
                       (ex - ey)).
      assert (He0: (e0 <= -53 /\ e0 <= ex - ey)%Z).
      { subst e0. unfold fexp, SpecFloat.emin, prec, emax. lia. }
      assert (Hcore: SFdiv_core_binary prec emax (Z.pos mx) ex (Z.pos my) ey
                     = ((Z.pos mx * 2 ^ (ex - ey - e0)) / Z.pos my, e0,
                        new_location (Z.pos my)
                          ((Z.pos mx * 2 ^ (ex - ey - e0)) mod Z.pos my))%Z).
      { unfold SFdiv_core_binary. cbv zeta. fold e0.
        assert (Hm': (match (ex - ey - e0)%Z with
                      | 0%Z => Z.pos mx
                      | Z.pos _ => Z.shiftl (Z.pos mx) (ex - ey - e0)
                      | Z.neg _ => 0%Z
                      end = Z.pos mx * 2 ^ (ex - ey - e0))%Z).
        { destruct (ex - ey - e0)%Z as [|p|p] eqn:Hs; try lia.
          rewrite Z.shiftl_mul_pow2 by lia. reflexivity. }
        rewrite Hm'. unfold Z.div, Z.modulo.
        destruct (Z.div_eucl (Z.pos mx * 2 ^ (ex - ey - e0)) (Z.pos my)) as [q0 r0].
        reflexivity. }
      rewrite Hcore in Hc. inversion Hc; subst q e' l. clear Hc.
      apply binary_round_aux_le_one; [exact Hq|lia|].
      apply Z.div_lt_upper_bound; [lia|].
      replace (- e0)%Z with ((ey - ex) + (ex - ey - e0))%Z by lia.
      rewrite Z.pow_add_r by lia.
      assert (Hp: (0 < 2 ^ (ex - ey - e0))%Z) by (apply Z.pow_pos_nonneg; lia).
      rewrite Z.mul_assoc.
      apply (proj1 (Z.mul_lt_mono_pos_r (2 ^ (ex - ey - e0)) (Z.pos mx)
                      (Z.pos my * 2 ^ (ey - ex)) Hp)).
      exact Hm.
Qed.

(** A quotient of a Number that is not negative by a positive finite one
    is not negative. *)
Lemma div_nonneg x y :
  is_finite y = true -> (0 <? y) = true -> (0 <=? x) = true -> (0 <=? x / y) = true.
Proof.
  intros Fy Py Hx. apply nonneg_leb. rewrite div_spec.
  rewrite ltb_spec, Prim2SF_zero in Py. rewrite leb_spec, Prim2SF_zero in Hx.
  destruct (is_finite_spec y Fy) as [[s Hs]|[s [my [ey Hy]]]].
  { rewrite Hs in Py. destruct s; discriminate Py. }
  rewrite Hy in *. destruct s; [discriminate Py|]. clear Py.
  destruct (Prim2SF x) as [sx|sx| |sx mx ex] eqn:Hx'; try discriminate;
    try (destruct sx; try discriminate; exact I).
  destruct sx; [discriminate|].
  unfold SF64div, SFdiv.
  destruct (SFdiv_core_binary prec emax (Z.pos mx) ex (Z.pos my) ey) as [[q e'] l] eqn:Hc.
  assert (Hq: (0 <= q)%Z).
  { unfold SFdiv_core_binary in Hc.
    match type of Hc with
    | context [Z.div_eucl ?a ?b] =>
        assert (Ha: (0 <= a)%Z);
        [|pose proof (Z.div_pos a b Ha ltac:(lia)) as Hd; unfold Z.div in Hd;
          destruct (Z.div_eucl a b) as [q0 r0]; inversion Hc; subst; exact Hd]
    end.
    match goal with
    | |- (0 <= match ?s with _ => _ end)%Z => destruct s; try lia
    end.
    apply Z.shiftl_nonneg. lia. }
  pose proof (Rounding.binary_round_aux_sign prec emax false q e' l Hq) as Hr.
  simpl xorb.
  destruct (binary_round_aux prec emax false q e' l); try contradiction; subst; exact I.
Qed.

Lemma at_index_mapi_from {B : Type} (f : SpectralDataPoint float -> nat -> B) (dflt : B)
      (data : Spectrum) : forall i k,
    (k < length data)%nat ->
    nth k (mapi_from f i data) dflt = f (at_index data k) (i + k)%nat.
Proof.
  induction data as [|d rest IH]; intros i k Hk; simpl in Hk; [lia|].
  destruct k as [|k]; simpl.
  - rewrite Nat.add_0_r. reflexivity.
  - unfold at_index in *. simpl. rewrite IH by lia. f_equal. lia.
Qed.

Lemma at_index_mapi (f : SpectralDataPoint float -> nat -> SpectralDataPoint float)
      (data : Spectrum) k :
  (k < length data)%nat -> at_index (mapi f data) k = f (at_index data k) k.
Proof. intros Hk. unfold at_index at 1, mapi. rewrite at_index_mapi_from by assumption. reflexivity. Qed.

Lemma at_index_outside (data : Spectrum) k : (length data <= k)%nat -> at_index data k = no_point.
Proof. intros Hk. unfold at_index. apply nth_overflow. exact Hk. Qed.

(** ** Smoothing *)

(** X1: Both copies of [savitzkyGolayFilter] use the window length only
    through the half window, and ignore the polynomial order: two calls
    with the same half window return the same spectrum. *)
Theorem smoothing_by_half_window :
  forall data w1 p1 w2 p2,
    half_window w1 = half_window w2 ->
    Part002.savitzkyGolayFilter data w1 p1 = Part002.savitzkyGolayFilter data w2 p2
    /\ ScientificTs.savitzkyGolayFilter data w1 p1
       = ScientificTs.savitzkyGolayFilter data w2 p2.
Proof.
  intros data w1 p1 w2 p2 H. unfold half_window in H.
  unfold Part002.savitzkyGolayFilter, ScientificTs.savitzkyGolayFilter,
    ScientificTs.polynomialSmooth.
  cbv zeta. rewrite H. split; reflexivity.
Qed.

Lemma smoothing_by_half_window_witness :
  half_window 4 = half_window 5
  /\ Part002.savitzkyGolayFilter ramp5 4 2 = Part002.savitzkyGolayFilter ramp5 5 3
  /\ ScientificTs.savitzkyGolayFilter ramp5 4 2 = ScientificTs.savitzkyGolayFilter ramp5 5 3.
Proof.
  split; [reflexivity|]. apply (smoothing_by_half_window ramp5 4 2 5 3). reflexivity.
Defined.

(** X2: The first copy of the filter copies the first and the last
    [halfWindow] points unchanged; a spectrum of at most [2 * halfWindow]
    points is returned as it is. *)
Theorem first_copy_smoothing_edges :
  forall data windowLength polynomialOrder,
    let halfWindow := half_window windowLength in
    let smoothed := ScientificTs.savitzkyGolayFilter data windowLength polynomialOrder in
    (forall i, (i < halfWindow \/ length data - halfWindow <= i)%nat ->
               at_index smoothed i = at_index data i)
    /\ ((length data <= 2 * halfWindow)%nat -> smoothed = data).
Proof.
  intros data windowLength polynomialOrder halfWindow smoothed.
  assert (Hedge: forall i, (i < halfWindow \/ length data - halfWindow <= i)%nat ->
                           ((i <? halfWindow)%nat
                            || (Z.of_nat (length data) - Z.of_nat halfWindow <=? Z.of_nat i)%Z)%bool
                           = true).
  { intros i [Hi|Hi]; apply orb_true_iff; [left; apply Nat.ltb_lt; exact Hi|].
    right. apply Z.leb_le. lia. }
  split.
  - intros i Hi. destruct (Nat.lt_ge_cases i (length data)) as [Hlt|Hge].
    + subst smoothed. unfold ScientificTs.savitzkyGolayFilter.
      rewrite at_index_mapi by assumption.
      fold (half_window windowLength). fold halfWindow.
      rewrite (Hedge i Hi). reflexivity.
    + rewrite !at_index_outside; try assumption; try reflexivity.
      subst smoothed. unfold ScientificTs.savitzkyGolayFilter, mapi.
      rewrite mapi_from_length. assumption.
  - intros Hshort. subst smoothed. unfold ScientificTs.savitzkyGolayFilter, mapi.
    fold (half_window windowLength). fold halfWindow.
    transitivity (mapi_from (fun (v : SpectralDataPoint float) (_ : nat) => v) 0 data);
      [|apply mapi_from_id].
    apply mapi_from_ext. intros k v Hk. simpl.
    rewrite Hedge; [reflexivity|].
    assert (k < length data)%nat.
    { destruct (Nat.lt_ge_cases k (length data)) as [Hlt|Hge]; [exact Hlt|].
      apply nth_error_None in Hge.
      pose proof (eq_trans (eq_sym Hge) Hk) as Habs. discriminate Habs. }
    lia.
Qed.

Lemma first_copy_smoothing_edges_witness :
  at_index (ScientificTs.savitzkyGolayFilter ramp5 3 2) 4 = at_index ramp5 4
  /\ ScientificTs.savitzkyGolayFilter (firstn 2 ramp5) 3 2 = firstn 2 ramp5.
Proof.
  split.
  - apply (proj1 (first_copy_smoothing_edges ramp5 3 2) 4%nat). right. simpl. lia.
  - apply (proj2 (first_copy_smoothing_edges (firstn 2 ramp5) 3 2)). simpl. lia.
Defined.

(** A slice inside the array, by its indices. *)
Lemma slice_indices (data : Spectrum) start n :
  (start + n <= length data)%nat ->
  firstn n (skipn start data) = map (at_index data) (seq start n).
Proof.
  revert start data. induction n as [|n IH]; intros start data H; [reflexivity|].
  simpl seq. simpl map.
  assert (Hs: skipn start data = at_index data start :: skipn (S start) data).
  { clear IH. revert data H. induction start as [|start IHs]; intros [|d rest] H;
      simpl in H; try lia; [reflexivity|].
    simpl skipn at 1. rewrite IHs by lia. reflexivity. }
  rewrite Hs, firstn_cons. f_equal. apply IH. lia.
Qed.

(** The window sum of the revised filter when the whole window is inside
    the array. *)
Lemma window_inside (data : Spectrum) i halfWindow :
  (halfWindow <= i)%nat -> (i + halfWindow < length data)%nat ->
  forall ks sum count,
    (forall k, In k ks -> (k <= 2 * halfWindow)%nat) ->
    fold_left
      (fun '(sum, count) j =>
         let ij := (Z.of_nat i + j)%Z in
         if ((0 <=? ij)%Z && (ij <? Z.of_nat (length data))%Z)%bool
         then (sum + intensity (at_index data (Z.to_nat ij)), S count)
         else (sum, count))
      (map (fun k => (Z.of_nat k - Z.of_nat halfWindow)%Z) ks) (sum, count)
    = (fold_left (fun s d => s + intensity d)
                 (map (fun k => at_index data (i - halfWindow + k)) ks) sum,
       (count + length ks)%nat).
Proof.
  intros Hlo Hhi. induction ks as [|k ks IH]; intros sum count Hks; simpl.
  - rewrite Nat.add_0_r. reflexivity.
  - assert (Hk: (k <= 2 * halfWindow)%nat) by (apply Hks; left; reflexivity).
    replace ((0 <=? Z.of_nat i + (Z.of_nat k - Z.of_nat halfWindow))%Z) with true
      by (symmetry; apply Z.leb_le; lia).
    replace ((Z.of_nat i + (Z.of_nat k - Z.of_nat halfWindow) <? Z.of_nat (length data))%Z)
      with true by (symmetry; apply Z.ltb_lt; lia).
    simpl andb. cbv iota.
    replace (Z.to_nat (Z.of_nat i + (Z.of_nat k - Z.of_nat halfWindow)))
      with (i - halfWindow + k)%nat by lia.
    rewrite IH by (intros k' Hk'; apply Hks; right; exact Hk').
    f_equal. lia.
Qed.

Lemma seq_from (a n : nat) : forall b,
    map (fun k => (a + k)%nat) (seq b n) = seq (a + b) n.
Proof.
  induction n as [|n IH]; intros b; simpl; [reflexivity|].
  rewrite IH. f_equal. f_equal. lia.
Qed.

Lemma get_constant {A : Type} (c : float) (l : list A) k :
  (k < length l)%nat -> get (map (fun _ => c) l) k = c.
Proof.
  revert k. induction l as [|v rest IH]; intros k Hk; simpl in Hk; [lia|].
  destruct k as [|k]; [reflexivity|]. unfold get in *. simpl. apply IH. lia.
Qed.

(** X3: Away from the edges the two copies of the filter agree: where the
    whole window is inside the spectrum, both return the mean of the
    [2 * halfWindow + 1] intensities of the window, summed from the left. *)
Theorem smoothing_copies_agree_inside :
  forall data windowLength polynomialOrder i,
    let halfWindow := half_window windowLength in
    (halfWindow <= i)%nat -> (i + halfWindow < length data)%nat ->
    at_index (Part002.savitzkyGolayFilter data windowLength polynomialOrder) i
    = at_index (ScientificTs.savitzkyGolayFilter data windowLength polynomialOrder) i
    /\ intensity (at_index (Part002.savitzkyGolayFilter data windowLength polynomialOrder) i)
       = fold_left (fun s d => s + intensity d)
                   (firstn (2 * halfWindow + 1) (skipn (i - halfWindow) data)) 0
         / of_nat (2 * halfWindow + 1).
Proof.
  intros data windowLength polynomialOrder i halfWindow Hlo Hhi.
  assert (Hi: (i < length data)%nat) by lia.
  unfold Part002.savitzkyGolayFilter, ScientificTs.savitzkyGolayFilter.
  rewrite !at_index_mapi by assumption.
  fold (half_window windowLength). fold halfWindow.
  unfold Part002.offsets.
  rewrite (window_inside data i halfWindow Hlo Hhi)
    by (intros k Hk; apply in_seq in Hk; lia).
  rewrite length_seq, Nat.add_0_l.
  replace ((i <? halfWindow)%nat) with false by (symmetry; apply Nat.ltb_ge; lia).
  replace ((Z.of_nat (length data) - Z.of_nat halfWindow <=? Z.of_nat i)%Z) with false
    by (symmetry; apply Z.leb_gt; lia).
  simpl orb. cbv iota.
  unfold ScientificTs.slice, ScientificTs.polynomialSmooth.
  replace (i + halfWindow + 1 - (i - halfWindow))%nat with (2 * halfWindow + 1)%nat by lia.
  rewrite slice_indices by lia.
  rewrite <- (map_map (fun k => (i - halfWindow + k)%nat) (at_index data)).
  rewrite seq_from, Nat.add_0_r.
  set (window := map (at_index data) (seq (i - halfWindow) (2 * halfWindow + 1))).
  assert (Hw: length window = (2 * halfWindow + 1)%nat)
    by (subst window; rewrite length_map, length_seq; reflexivity).
  rewrite get_constant by (rewrite length_map, Hw; lia).
  unfold reduce. rewrite reduce_from_fold, fold_left_map_sum, length_map, Hw.
  split; reflexivity.
Qed.

Lemma smoothing_copies_agree_inside_witness :
  at_index (Part002.savitzkyGolayFilter ramp5 3 2) 2
  = at_index (ScientificTs.savitzkyGolayFilter ramp5 3 2) 2
  /\ intensity (at_index (Part002.savitzkyGolayFilter ramp5 3 2) 2) = (0 + 2 + 4 + 8) / 3.
Proof.
  apply (smoothing_copies_agree_inside ramp5 3 2 2); vm_compute; lia.
Defined.

(** ** Baseline correction *)

(** [Math.max(0, x)] is NaN or not negative. *)
Lemma Math_max_0 x : is_nan (Math_max [0; x]) = true \/ (0 <=? Math_max [0; x]) = true.
Proof.
  destruct (is_nan x) eqn:Hn.
  - left. unfold Math_max. simpl. rewrite Hn. reflexivity.
  - right.
    assert (Hv: numbers [0; x]) by (repeat constructor; assumption).
    destruct (max_from_spec [0; x] neg_infinity eq_refl Hv) as [_ [_ H]].
    inversion H; subst. assumption.
Qed.

(** X4: Both copies of [polynomialBaselineCorrection] keep the wavelengths of
    the input, and no corrected intensity is negative: each is NaN or at
    least 0, whatever the fitted baseline. *)
Theorem baseline_never_negative :
  forall (P : PowApprox) data degree,
    map wavelength (Part002.polynomialBaselineCorrection data degree) = map wavelength data
    /\ Forall (fun d => never_negative (intensity d))
              (Part002.polynomialBaselineCorrection data degree)
    /\ map wavelength (ScientificTs.polynomialBaselineCorrection data degree)
       = map wavelength data
    /\ Forall (fun d => never_negative (intensity d))
              (ScientificTs.polynomialBaselineCorrection data degree).
Proof.
  intros P data degree. repeat split.
  - unfold Part002.polynomialBaselineCorrection. destruct data as [|d0 rest]; [reflexivity|].
    unfold mapi. apply map_mapi_from. reflexivity.
  - destruct data as [|d0 rest]; [constructor|].
    apply Forall_forall. unfold Part002.polynomialBaselineCorrection, mapi. intros d Hd.
    apply in_mapi_from in Hd. destruct Hd as [v [j [_ [_ ->]]]]. apply Math_max_0.
  - unfold ScientificTs.polynomialBaselineCorrection, mapi. apply map_mapi_from. reflexivity.
  - apply Forall_forall. unfold ScientificTs.polynomialBaselineCorrection, mapi. intros d Hd.
    apply in_mapi_from in Hd. destruct Hd as [v [j [_ [_ ->]]]]. apply Math_max_0.
Qed.

(** ** Normalization *)

(** [Math.max] of numbers returns one of them, or the value it started
    from. *)
Lemma max_from_in values : forall highest,
    numbers values ->
    max_from highest values = highest \/ In (max_from highest values) values.
Proof.
  induction values as [|v rest IH]; intros highest Hv; simpl; [left; reflexivity|].
  inversion Hv as [|? ? Nv Nrest]; subst. rewrite Nv.
  set (h1 := if Leibniz.eqb v 0 && Leibniz.eqb highest neg_zero then 0 else highest).
  assert (H1: h1 = highest \/ h1 = v).
  { subst h1. destruct (Leibniz.eqb v 0 && Leibniz.eqb highest neg_zero) eqn:Hz;
      [|left; reflexivity].
    apply andb_true_iff in Hz. destruct Hz as [Hz _].
    apply Leibniz.eqb_spec in Hz. right. congruence. }
  set (h2 := if gtb v h1 then v else h1).
  assert (H2: h2 = highest \/ h2 = v).
  { subst h2. destruct (gtb v h1); [right; reflexivity|exact H1]. }
  change (max_from h2 rest = highest
          \/ (v = max_from h2 rest \/ In (max_from h2 rest) rest)).
  destruct (IH h2 Nrest) as [H|H].
  - rewrite H. destruct H2 as [->| ->]; [left; reflexivity|right; left; reflexivity].
  - right. right. exact H.
Qed.

(** What "max" normalization computes when the maximum is positive and
    finite. *)
Lemma max_normalized data :
  let maxIntensity := Math_max (map intensity data) in
  numbers (map intensity data) ->
  is_finite maxIntensity = true ->
  (0 <? maxIntensity) = true ->
  Part002.normalizeSpectrum data max_method
  = map (fun d => mkPoint (wavelength d) (intensity d / maxIntensity)) data
  /\ In 1 (map intensity (Part002.normalizeSpectrum data max_method))
  /\ Forall (fun d => (intensity d <=? 1) = true)
            (Part002.normalizeSpectrum data max_method).
Proof.
  intros maxIntensity Hn Hf Hp.
  assert (Hz: strict_eq maxIntensity 0 = false) by (apply positive_not_zero; exact Hp).
  assert (Hdata: data <> []).
  { intros ->. subst maxIntensity. vm_compute in Hp. discriminate Hp. }
  assert (Hnorm: Part002.normalizeSpectrum data max_method
                 = map (fun d => mkPoint (wavelength d) (intensity d / maxIntensity)) data).
  { unfold Part002.normalizeSpectrum. destruct data as [|d0 rest]; [congruence|].
    change (is0 (max_of (map intensity (d0 :: rest)))) with (strict_eq maxIntensity 0).
    rewrite Hz. reflexivity. }
  rewrite Hnorm. repeat split.
  - apply in_map_iff.
    destruct (max_from_in (map intensity data) neg_infinity Hn) as [H|H].
    + exfalso. fold (Math_max (map intensity data)) in H. fold maxIntensity in H.
      rewrite H in Hf. discriminate Hf.
    + fold (Math_max (map intensity data)) in H. fold maxIntensity in H.
      apply in_map_iff in H. destruct H as [d [Hd Hin]].
      exists (mkPoint (wavelength d) (intensity d / maxIntensity)). split.
      * simpl. rewrite Hd. apply div_diag; assumption.
      * apply in_map_iff. exists d. split; [reflexivity|assumption].
  - apply Forall_forall. intros p Hp'. apply in_map_iff in Hp'.
    destruct Hp' as [d [<- Hin]]. simpl.
    apply div_le_one; try assumption.
    apply (Math_min_max_bounds (map intensity data) (intensity d) Hn).
    apply in_map. exact Hin.
Qed.

(** X5: Dividing by a positive finite maximum: after "max" normalization, in
    both copies, the points that held the maximum hold exactly 1, no
    intensity exceeds 1, and an intensity that was not negative is not
    negative. *)
Theorem max_normalization_range :
  forall data,
    let maxIntensity := Math_max (map intensity data) in
    numbers (map intensity data) ->
    is_finite maxIntensity = true ->
    (0 <? maxIntensity) = true ->
    Part002.normalizeSpectrum data max_method
    = ScientificTs.normalizeSpectrum data max_method
    /\ In 1 (map intensity (Part002.normalizeSpectrum data max_method))
    /\ Forall (fun d => (intensity d <=? 1) = true)
              (Part002.normalizeSpectrum data max_method)
    /\ (Forall (fun d => (0 <=? intensity d) = true) data ->
        Forall (fun d => (0 <=? intensity d) = true)
               (Part002.normalizeSpectrum data max_method)).
Proof.
  intros data maxIntensity Hn Hf Hp.
  destruct (max_normalized data Hn Hf Hp) as [Hnorm [Hone Hle]].
  split; [exact Hnorm|]. split; [exact Hone|]. split; [exact Hle|].
  intros Hpos. rewrite Hnorm. apply Forall_forall. intros p Hp'. apply in_map_iff in Hp'.
  destruct Hp' as [d [<- Hin]]. simpl.
  rewrite Forall_forall in Hpos. apply div_nonneg; auto.
Qed.

Lemma max_normalization_range_witness :
  Part002.normalizeSpectrum peak_650 max_method
  = ScientificTs.normalizeSpectrum peak_650 max_method
  /\ In 1 (map intensity (Part002.normalizeSpectrum peak_650 max_method))
  /\ Forall (fun d => (intensity d <=? 1) = true)
            (Part002.normalizeSpectrum peak_650 max_method)
  /\ (Forall (fun d => (0 <=? intensity d) = true) peak_650 ->
      Forall (fun d => (0 <=? intensity d) = true)
             (Part002.normalizeSpectrum peak_650 max_method)).
Proof.
  apply (max_normalization_range peak_650).
  - repeat constructor.
  - reflexivity.
  - reflexivity.
Defined.

(** ** Peak detection *)

(** [Math.min] of two numbers is one of them. *)
Lemma Math_min_pair a b :
  is_nan a = false -> is_nan b = false -> Math_min [a; b] = a \/ Math_min [a; b] = b.
Proof.
  intros Na Nb. unfold Math_min. cbn [min_from]. rewrite Na, Nb.
  replace (Leibniz.eqb infinity 0) with false by reflexivity.
  rewrite andb_false_r.
  destruct (Leibniz.eqb b neg_zero) eqn:Hz.
  - apply Leibniz.eqb_spec in Hz. subst b.
    destruct (a <? infinity) eqn:Ha.
    + destruct (Leibniz.eqb a 0) eqn:Hz; cbn [andb].
      * right. destruct (neg_zero <? neg_zero); reflexivity.
      * destruct (neg_zero <? a); [right|left]; reflexivity.
    + replace (Leibniz.eqb infinity 0) with false by reflexivity. cbn [andb].
      right. reflexivity.
  - cbn [andb]. destruct (a <? infinity) eqn:Ha.
    + destruct (b <? a); [right|left]; reflexivity.
    + destruct (b <? infinity) eqn:Hb; [right; reflexivity|].
      assert (Hinf: (infinity <=? a) = true)
        by (apply not_ltb_leb; assumption || reflexivity).
      left. rewrite leb_spec in Hinf. apply Prim2SF_inj.
      change (Prim2SF infinity) with (S754_infinity false) in *.
      destruct (Prim2SF a) as [s|s| |s m e]; try discriminate; destruct s; try discriminate.
      reflexivity.
Qed.

Section Scan.

Variable data : Spectrum.
Variables prominence minHeight : float.

Let prev i := intensity (at_index data (i - 1)).
Let curr i := intensity (at_index data i).
Let next i := intensity (at_index data (i + 1)).

(** What the scan of the revised copy pushed for a peak it returns. *)
Lemma detectPeaks_scan pk :
  In pk (Part002.detectPeaks data prominence minHeight) ->
  exists i, (1 <= i)%nat /\ (i + 1 < length data)%nat
            /\ (prev i <? curr i) = true /\ (next i <? curr i) = true
            /\ (minHeight <=? curr i) = true
            /\ (prominence <=? Types.prominence pk) = true
            /\ pk = mkPeak (wavelength (at_index data i)) (curr i)
                           (Part002.calculateFWHM data i)
                           (Part002.calculatePeakArea data i (Part002.calculateFWHM data i))
                           (curr i - Math_min [prev i; next i]).
Proof.
  unfold Part002.detectPeaks. intros H.
  apply filter_In in H. destruct H as [H Hprom].
  apply in_flat_map in H. destruct H as [i [Hi Hpk]].
  apply in_seq in Hi. exists i.
  unfold Part002.candidate in Hpk. fold (prev i) (curr i) (next i) in Hpk.
  destruct (gtb (curr i) (prev i) && gtb (curr i) (next i) && geb (curr i) minHeight) eqn:Hc;
    [|contradiction].
  apply andb_true_iff in Hc. destruct Hc as [Hc H3].
  apply andb_true_iff in Hc. destruct Hc as [H1 H2].
  destruct Hpk as [<-|[]]. repeat split; try assumption; lia.
Qed.

(** The same for the first copy, which asks for a height above [minHeight]. *)
Lemma detectPeaks_scan_first pk :
  In pk (ScientificTs.detectPeaks data prominence minHeight) ->
  exists i, (1 <= i)%nat /\ (i + 1 < length data)%nat
            /\ (prev i <? curr i) = true /\ (next i <? curr i) = true
            /\ (minHeight <? curr i) = true
            /\ (prominence <=? Types.prominence pk) = true
            /\ pk = mkPeak (wavelength (at_index data i)) (curr i)
                           (ScientificTs.calculateFWHM data i)
                           (ScientificTs.calculatePeakArea data i
                              (ScientificTs.calculateFWHM data i))
                           (curr i - Math_min [prev i; next i]).
Proof.
  unfold ScientificTs.detectPeaks. intros H.
  apply filter_In in H. destruct H as [H Hprom].
  apply in_flat_map in H. destruct H as [i [Hi Hpk]].
  apply in_seq in Hi. exists i.
  unfold ScientificTs.candidate in Hpk. fold (prev i) (curr i) (next i) in Hpk.
  destruct (gtb (curr i) (prev i) && gtb (curr i) (next i) && gtb (curr i) minHeight) eqn:Hc;
    [|contradiction].
  apply andb_true_iff in Hc. destruct Hc as [Hc H3].
  apply andb_true_iff in Hc. destruct Hc as [H1 H2].
  destruct Hpk as [<-|[]]. repeat split; try assumption; lia.
Qed.

(** The prominence of a strict local maximum is positive. *)
Lemma local_maximum_prominence i :
  (prev i <? curr i) = true -> (next i <? curr i) = true ->
  (0 <? curr i - Math_min [prev i; next i]) = true.
Proof.
  intros H1 H2.
  destruct (ltb_not_nan _ _ H1) as [Np _], (ltb_not_nan _ _ H2) as [Nn _].
  destruct (Math_min_pair (prev i) (next i) Np Nn) as [-> | ->]; apply sub_pos; assumption.
Qed.

End Scan.

(** X6: Every peak [detectPeaks] returns, in both copies, sits at an interior
    point whose intensity is strictly above both neighbours and at least
    [minHeight] (above it, in the first copy); its amplitude is that
    intensity and its position the wavelength of the point; its prominence
    is at least the threshold, and is positive whatever the threshold. *)
Theorem detected_peaks_are_local_maxima :
  forall data prominence minHeight pk,
    (In pk (Part002.detectPeaks data prominence minHeight) ->
     exists i, (1 <= i)%nat /\ (i + 1 < length data)%nat
               /\ position pk = wavelength (at_index data i)
               /\ amplitude pk = intensity (at_index data i)
               /\ (intensity (at_index data (i - 1)) <? amplitude pk) = true
               /\ (intensity (at_index data (i + 1)) <? amplitude pk) = true
               /\ (minHeight <=? amplitude pk) = true
               /\ (prominence <=? Types.prominence pk) = true
               /\ (0 <? Types.prominence pk) = true)
    /\ (In pk (ScientificTs.detectPeaks data prominence minHeight) ->
        exists i, (1 <= i)%nat /\ (i + 1 < length data)%nat
                  /\ position pk = wavelength (at_index data i)
                  /\ amplitude pk = intensity (at_index data i)
                  /\ (intensity (at_index data (i - 1)) <? amplitude pk) = true
                  /\ (intensity (at_index data (i + 1)) <? amplitude pk) = true
                  /\ (minHeight <? amplitude pk) = true
                  /\ (prominence <=? Types.prominence pk) = true
                  /\ (0 <? Types.prominence pk) = true).
Proof.
  intros data prominence minHeight pk. split; intros H.
  - destruct (detectPeaks_scan data prominence minHeight pk H)
      as [i [H1 [H2 [H3 [H4 [H5 [H6 ->]]]]]]].
    exists i. simpl. repeat split; try assumption.
    apply local_maximum_prominence; assumption.
  - destruct (detectPeaks_scan_first data prominence minHeight pk H)
      as [i [H1 [H2 [H3 [H4 [H5 [H6 ->]]]]]]].
    exists i. simpl. repeat split; try assumption.
    apply local_maximum_prominence; assumption.
Qed.

(** ** Where peaks can be *)

Lemma leb_not_ltb a b : (a <=? b) = true -> (b <? a) = false.
Proof.
  intros H. destruct (b <? a) eqn:Hlt; [|reflexivity]. exfalso.
  destruct (leb_not_nan _ _ H) as [Ha Hb]. by_keys.
Qed.

Lemma flat_map_none {A B : Type} (f : A -> list B) (l : list A) :
  (forall x, In x l -> f x = []) -> flat_map f l = [].
Proof.
  induction l as [|x l IH]; intros H; simpl; [reflexivity|].
  rewrite (H x) by (left; reflexivity). apply IH. intros y Hy. apply H. right. exact Hy.
Qed.

Lemma ltb_asym a b : (a <? b) = true -> (b <? a) = false.
Proof. intros H. apply leb_not_ltb, ltb_leb, H. Qed.

(** X7: A spectrum whose intensity never decreases, or never increases, from
    one point to the next has no peak, in either copy and whatever the
    thresholds. *)
Theorem monotone_has_no_peaks :
  forall data prominence minHeight,
    never_falls data \/ never_rises data ->
    Part002.detectPeaks data prominence minHeight = []
    /\ ScientificTs.detectPeaks data prominence minHeight = [].
Proof.
  intros data prominence minHeight Hm.
  assert (Hc: forall i, In i (seq 1 (length data - 2)) ->
                        (intensity (at_index data (i - 1)) <? intensity (at_index data i)) = false
                        \/ (intensity (at_index data (i + 1)) <? intensity (at_index data i)) = false).
  { intros i Hi. apply in_seq in Hi. destruct Hm as [Hm|Hm].
    - right. apply leb_not_ltb, Hm. lia.
    - left. apply leb_not_ltb.
      specialize (Hm (i - 1)%nat). replace (i - 1 + 1)%nat with i in Hm by lia.
      apply Hm. lia. }
  split.
  - unfold Part002.detectPeaks.
    replace (flat_map (Part002.candidate data minHeight) (seq 1 (length data - 2)))
      with (@nil Peak); [reflexivity|].
    symmetry. apply flat_map_none. intros i Hi.
    unfold Part002.candidate, gtb. destruct (Hc i Hi) as [-> | ->];
      rewrite ?andb_false_r; reflexivity.
  - unfold ScientificTs.detectPeaks.
    replace (flat_map (ScientificTs.candidate data minHeight) (seq 1 (length data - 2)))
      with (@nil Peak); [reflexivity|].
    symmetry. apply flat_map_none. intros i Hi.
    unfold ScientificTs.candidate, gtb. destruct (Hc i Hi) as [-> | ->];
      rewrite ?andb_false_r; reflexivity.
Qed.

Lemma monotone_has_no_peaks_witness :
  (never_falls ramp5 \/ never_rises ramp5)
  /\ Part002.detectPeaks ramp5 0 0 = []
  /\ ScientificTs.detectPeaks ramp5 0 0 = [].
Proof.
  assert (H: never_falls ramp5 \/ never_rises ramp5).
  { left. intros i Hi. simpl in Hi.
    do 4 (destruct i as [|i]; [reflexivity|]). lia. }
  split; [exact H|]. apply (monotone_has_no_peaks ramp5 0 0 H).
Defined.

Section PeakCount.
Context {X : Type}.
Variable f : nat -> list X.
Hypothesis at_most_one : forall i, (length (f i) <= 1)%nat.
Hypothesis not_adjacent : forall i, f i <> [] -> f (S i) = [].

(** A scan that pushes at most one item per index, and never at two
    successive indices, pushes at most [(n + 1) / 2] items over [n]
    indices. *)
Lemma alternating_count : forall n a,
    (length (flat_map f (seq a n)) <= (n + 1) / 2)%nat
    /\ (length (flat_map f (seq a (S n))) <= (S n + 1) / 2)%nat.
Proof.
  induction n as [|n IH]; intros a.
  - split; simpl; [lia|]. rewrite app_nil_r. apply at_most_one.
  - split; [apply IH|].
    change (seq a (S (S n))) with (a :: S a :: seq (S (S a)) n).
    cbn [flat_map]. rewrite !length_app.
    destruct (IH (S a)) as [_ H1]. destruct (IH (S (S a))) as [H0 _].
    cbn [seq flat_map] in H1. rewrite length_app in H1.
    pose proof (at_most_one a) as Ha.
    destruct (f a) as [|x l] eqn:Hfa.
    + simpl length. 
      assert ((S n + 1) / 2 <= (S (S n) + 1) / 2)%nat
        by (apply Nat.Div0.div_le_mono; lia).
      lia.
    + rewrite (not_adjacent a) by (rewrite Hfa; discriminate).
      simpl length in *.
      replace (S (S n) + 1)%nat with (n + 1 + 1 * 2)%nat by lia.
      rewrite Nat.div_add by lia. lia.
Qed.

End PeakCount.

Lemma skipn_at_index (data : Spectrum) a :
  (a < length data)%nat -> skipn a data = at_index data a :: skipn (S a) data.
Proof.
  revert a. induction data as [|d rest IH]; intros a Ha; simpl in Ha; [lia|].
  destruct a as [|a]; [reflexivity|]. simpl. apply IH. lia.
Qed.

Lemma subsequence_skipn {A : Type} (l : list A) a : subsequence (skipn a l) l.
Proof.
  revert a. induction l as [|x l IH]; intros a.
  - rewrite skipn_nil. constructor.
  - destruct a as [|a]; simpl; [apply subsequence_refl|constructor; apply IH].
Qed.

Lemma subsequence_trans {A : Type} (l1 l2 l3 : list A) :
  subsequence l1 l2 -> subsequence l2 l3 -> subsequence l1 l3.
Proof.
  intros H12 H23. revert l1 H12.
  induction H23 as [|x l2 l3 _ IH|x l2 l3 _ IH]; intros l1 H12.
  - exact H12.
  - inversion H12; subst; constructor; apply IH; assumption.
  - constructor. apply IH. exact H12.
Qed.

Lemma subsequence_nil_l {A : Type} (l : list A) : subsequence [] l.
Proof. induction l; constructor; assumption. Qed.

Section ScanOrder.
Variable data : Spectrum.
Variable f : nat -> list Peak.
Variable keep : Peak -> bool.
Hypothesis shape :
  forall i, f i = [] \/ exists pk, f i = [pk] /\ position pk = wavelength (at_index data i).

Lemma scan_in_order : forall n a,
    (a + n <= length data)%nat ->
    subsequence (map position (filter keep (flat_map f (seq a n))))
                (map wavelength (skipn a data)).
Proof.
  induction n as [|n IH]; intros a Ha.
  - simpl. apply subsequence_nil_l.
  - cbn [seq flat_map]. rewrite skipn_at_index by lia. cbn [map].
    destruct (shape a) as [-> | [pk [-> Hp]]].
    + simpl app. constructor. apply IH. lia.
    + simpl app. cbn [filter]. destruct (keep pk).
      * cbn [map]. rewrite Hp. constructor. apply IH. lia.
      * constructor. apply IH. lia.
Qed.

End ScanOrder.

Lemma candidate_shape data minHeight i :
  Part002.candidate data minHeight i = []
  \/ exists pk, Part002.candidate data minHeight i = [pk]
                /\ position pk = wavelength (at_index data i).
Proof.
  unfold Part002.candidate. destruct (_ && _); [right|left; reflexivity].
  eexists. split; reflexivity.
Qed.

Lemma candidate_shape_first data minHeight i :
  ScientificTs.candidate data minHeight i = []
  \/ exists pk, ScientificTs.candidate data minHeight i = [pk]
                /\ position pk = wavelength (at_index data i).
Proof.
  unfold ScientificTs.candidate. destruct (_ && _); [right|left; reflexivity].
  eexists. split; reflexivity.
Qed.

Lemma candidate_not_adjacent data minHeight i :
  Part002.candidate data minHeight i <> [] -> Part002.candidate data minHeight (S i) = [].
Proof.
  unfold Part002.candidate. intros H.
  destruct (gtb (intensity (at_index data i)) (intensity (at_index data (i - 1)))
            && gtb (intensity (at_index data i)) (intensity (at_index data (i + 1)))
            && geb (intensity (at_index data i)) minHeight) eqn:Hc; [|contradiction].
  apply andb_true_iff in Hc. destruct Hc as [Hc _].
  apply andb_true_iff in Hc. destruct Hc as [_ Hn].
  replace (S i - 1)%nat with i by lia. replace (i + 1)%nat with (S i) in Hn by lia.
  unfold gtb in *. rewrite (ltb_asym _ _ Hn). reflexivity.
Qed.

Lemma candidate_not_adjacent_first data minHeight i :
  ScientificTs.candidate data minHeight i <> []
  -> ScientificTs.candidate data minHeight (S i) = [].
Proof.
  unfold ScientificTs.candidate. intros H.
  destruct (gtb (intensity (at_index data i)) (intensity (at_index data (i - 1)))
            && gtb (intensity (at_index data i)) (intensity (at_index data (i + 1)))
            && gtb (intensity (at_index data i)) minHeight) eqn:Hc; [|contradiction].
  apply andb_true_iff in Hc. destruct Hc as [Hc _].
  apply andb_true_iff in Hc. destruct Hc as [_ Hn].
  replace (S i - 1)%nat with i by lia. replace (i + 1)%nat with (S i) in Hn by lia.
  unfold gtb in *. rewrite (ltb_asym _ _ Hn). reflexivity.
Qed.

Lemma filter_length_le {A : Type} (keep : A -> bool) (l : list A) :
  (length (filter keep l) <= length l)%nat.
Proof. apply subsequence_length, filter_subsequence. Qed.

(** X8: In both copies the peaks come in the order of the spectrum: their
    positions are a subsequence of the wavelengths of the input; and since
    two neighbouring points are never both peaks, a spectrum of [n] points
    has at most [(n - 1) / 2] peaks. *)
Theorem peaks_in_spectrum_order :
  forall data prominence minHeight,
    (subsequence (map position (Part002.detectPeaks data prominence minHeight))
                 (map wavelength data)
     /\ (length (Part002.detectPeaks data prominence minHeight) <= (length data - 1) / 2)%nat)
    /\ (subsequence (map position (ScientificTs.detectPeaks data prominence minHeight))
                    (map wavelength data)
        /\ (length (ScientificTs.detectPeaks data prominence minHeight)
            <= (length data - 1) / 2)%nat).
Proof.
  intros data prominence minHeight.
  destruct (Nat.le_gt_cases (length data) 1) as [Hl|Hl].
  { unfold Part002.detectPeaks, ScientificTs.detectPeaks.
    replace (length data - 2)%nat with 0%nat by lia. simpl.
    repeat split; try apply subsequence_nil_l; lia. }
  assert (Hn: ((length data - 2 + 1) / 2 <= (length data - 1) / 2)%nat)
    by (apply Nat.Div0.div_le_mono; lia).
  assert (Hs: forall l, subsequence l (map wavelength (skipn 1 data)) ->
                        subsequence l (map wavelength data)).
  { intros l Hl'. apply (subsequence_trans _ _ _ Hl').
    destruct data as [|d rest]; simpl; [constructor|]. constructor. apply subsequence_refl. }
  split; split.
  - unfold Part002.detectPeaks.
    apply Hs. apply scan_in_order; [apply candidate_shape|lia].
  - unfold Part002.detectPeaks.
    etransitivity; [apply filter_length_le|].
    etransitivity; [|exact Hn].
    apply (alternating_count (Part002.candidate data minHeight)).
    + intros i. destruct (candidate_shape data minHeight i) as [-> | [pk [-> _]]]; simpl; lia.
    + apply candidate_not_adjacent.
  - unfold ScientificTs.detectPeaks.
    apply Hs. apply scan_in_order; [apply candidate_shape_first|lia].
  - unfold ScientificTs.detectPeaks.
    etransitivity; [apply filter_length_le|].
    etransitivity; [|exact Hn].
    apply (alternating_count (ScientificTs.candidate data minHeight)).
    + intros i. destruct (candidate_shape_first data minHeight i) as [-> | [pk [-> _]]];
        simpl; lia.
    + apply candidate_not_adjacent_first.
Qed.

(** ** Deviations and ranges *)

(** X9: The root mean squared error is never negative, in either copy: it is
    a square root, or the 0 of the empty case. *)
Theorem rmse_never_negative :
  forall (P : PowApprox) observed predicted,
    never_negative (Part002.calculateRMSE observed predicted)
    /\ never_negative (ScientificTs.calculateRMSE observed predicted).
Proof.
  intros P observed predicted. split.
  - unfold Part002.calculateRMSE. destruct observed; [right; reflexivity|apply Math_sqrt_sign].
  - unfold ScientificTs.calculateRMSE.
    destruct observed; try (right; reflexivity); apply Math_sqrt_sign.
Qed.

(** X10: On a non-empty spectrum without NaN intensities, the minimum and the
    maximum that [calculateStatistics] reports bound every intensity, the
    minimum is at most the maximum, and the standard deviation is never
    negative; the two copies report the same record. *)
Theorem statistics_ranges :
  forall (P : PowApprox) data,
    data <> [] -> numbers (map intensity data) ->
    let s := Part002.calculateStatistics data in
    (forall d, In d data ->
               (min_intensity s <=? intensity d) = true
               /\ (intensity d <=? max_intensity s) = true)
    /\ (min_intensity s <=? max_intensity s) = true
    /\ never_negative (std_intensity s)
    /\ ScientificTs.calculateStatistics data = s.
Proof.
  intros P data Hne Hn s.
  destruct data as [|d0 rest]; [congruence|].
  assert (Hb: forall d, In d (d0 :: rest) ->
                        (min_intensity s <=? intensity d) = true
                        /\ (intensity d <=? max_intensity s) = true).
  { intros d Hd. apply Math_min_max_bounds; [exact Hn|]. apply in_map. exact Hd. }
  split; [exact Hb|]. split; [|split].
  - destruct (Hb d0 (or_introl eq_refl)) as [H1 H2]. exact (leb_trans _ _ _ H1 H2).
  - apply Math_sqrt_sign.
  - reflexivity.
Qed.

Lemma statistics_ranges_witness :
  (min_intensity (Part002.calculateStatistics (P := by_multiplication) peak_650)
   <=? max_intensity (Part002.calculateStatistics (P := by_multiplication) peak_650)) = true
  /\ never_negative
       (std_intensity (Part002.calculateStatistics (P := by_multiplication) peak_650)).
Proof.
  destruct (statistics_ranges by_multiplication peak_650 ltac:(discriminate)
                              ltac:(repeat constructor)) as [_ [H1 [H2 _]]].
  split; [exact H1|exact H2].
Defined.
(** ** A NaN among the intensities *)

Section Poisoned.
Context {P : PowApprox}.

Lemma fold_add_nan (g : float -> float) (values : list float) :
  fold_left (fun s v => s + g v) values nan = nan.
Proof.
  induction values as [|v rest IH]; simpl; [reflexivity|]. rewrite add_nan_l. exact IH.
Qed.

Lemma total_nan values : In nan values -> total values = nan.
Proof.
  unfold total. generalize 0. induction values as [|v rest IH]; intros acc H; [contradiction|].
  simpl. destruct H as [->|H].
  - rewrite add_nan_r.
    rewrite <- (fold_add_nan (fun v => v) rest) at 2.
    reflexivity.
  - apply IH. exact H.
Qed.

Lemma population_mean_nan values : In nan values -> population_mean values = nan.
Proof. intros H. unfold population_mean. rewrite (total_nan _ H). apply div_nan_l. Qed.

Lemma population_std_nan values : In nan values -> population_std values = nan.
Proof.
  intros H. unfold population_std. rewrite (population_mean_nan _ H).
  replace (total (map (fun x => Math_pow (x - nan) 2) values)) with nan;
    [rewrite div_nan_l; reflexivity|].
  symmetry. apply total_nan.
  destruct values as [|v rest]; [contradiction|]. left.
  rewrite sub_nan_r. reflexivity.
Qed.

Lemma filter_none {A : Type} (keep : A -> bool) (l : list A) :
  (forall x, keep x = false) -> filter keep l = [].
Proof.
  intros H. induction l as [|x l IH]; simpl; [reflexivity|]. rewrite H. exact IH.
Qed.

End Poisoned.

(** X11: One NaN intensity anywhere in the spectrum makes [removeOutliers], in
    both copies, drop every point: the mean and the standard deviation
    are NaN, and no deviation compares as within a NaN bound. *)
Theorem one_nan_empties_the_spectrum :
  forall (P : PowApprox) data threshold,
    (exists d, In d data /\ is_nan (intensity d) = true) ->
    Part002.removeOutliers data threshold = []
    /\ ScientificTs.removeOutliers data threshold = [].
Proof.
  intros P data threshold [d [Hd Hn]].
  assert (Hin: In nan (map intensity data)).
  { rewrite <- (is_nan_eq _ Hn). apply in_map. exact Hd. }
  assert (H1: Part002.removeOutliers data threshold
               = filter (within threshold (population_mean (map intensity data)) nan) data).
  { destruct data as [|d0 rest]; [contradiction|].
    unfold Part002.removeOutliers.
    rewrite std_of_population, mean_of_population, (population_std_nan _ Hin).
    reflexivity. }
  assert (H2: ScientificTs.removeOutliers data threshold
              = filter (within threshold (population_mean (map intensity data)) nan) data).
  { unfold ScientificTs.removeOutliers.
    change (reduce (fun a b _ => a + b) (map intensity data) 0)
      with (Part002.sum_of (map intensity data)).
    fold (Part002.mean_of (map intensity data)).
    fold (Part002.variance_of (map intensity data)).
    rewrite std_of_population, mean_of_population, (population_std_nan _ Hin).
    reflexivity. }
  rewrite H1, H2.
  assert (Hf: filter (within threshold (population_mean (map intensity data)) nan) data = []).
  { apply filter_none. intros x. unfold within. rewrite mul_nan_r. apply leb_nan_r. }
  rewrite Hf. split; reflexivity.
Qed.

Lemma one_nan_empties_the_spectrum_witness :
  (exists d, In d with_gap /\ is_nan (intensity d) = true)
  /\ Part002.removeOutliers (P := by_multiplication) with_gap 3 = []
  /\ ScientificTs.removeOutliers (P := by_multiplication) with_gap 3 = [].
Proof.
  assert (H: exists d, In d with_gap /\ is_nan (intensity d) = true).
  { exists (mkPoint 501 nan). split; [right; left; reflexivity|reflexivity]. }
  split; [exact H|]. apply (one_nan_empties_the_spectrum by_multiplication with_gap 3 H).
Defined.

(** ** The wavelength grid through the pipeline *)

Lemma subsequence_map {A B : Type} (f : A -> B) (l l' : list A) :
  subsequence l l' -> subsequence (map f l) (map f l').
Proof. induction 1; simpl; constructor; assumption. Qed.

Section Grid.
Context {P : PowApprox}.

Lemma removeOutliers_grid data threshold :
  subsequence (map wavelength (Part002.removeOutliers data threshold)) (map wavelength data).
Proof.
  apply subsequence_map. unfold Part002.removeOutliers.
  destruct data as [|d rest]; [constructor|].
  destruct (strict_eq _ _); [apply subsequence_refl|apply filter_subsequence].
Qed.

Lemma removeOutliers_grid_first data threshold :
  subsequence (map wavelength (ScientificTs.removeOutliers data threshold))
              (map wavelength data).
Proof. apply subsequence_map, filter_subsequence. Qed.

Lemma baseline_grid data degree :
  map wavelength (Part002.polynomialBaselineCorrection data degree) = map wavelength data.
Proof.
  unfold Part002.polynomialBaselineCorrection. destruct data as [|d0 rest]; [reflexivity|].
  unfold mapi. apply map_mapi_from. reflexivity.
Qed.

Lemma baseline_grid_first data degree :
  map wavelength (ScientificTs.polynomialBaselineCorrection data degree)
  = map wavelength data.
Proof.
  unfold ScientificTs.polynomialBaselineCorrection, mapi. apply map_mapi_from. reflexivity.
Qed.

Lemma normalizeSpectrum_grid data method :
  map wavelength (Part002.normalizeSpectrum data method) = map wavelength data.
Proof.
  unfold Part002.normalizeSpectrum. destruct data as [|d0 rest]; [reflexivity|].
  destruct method; match goal with |- context [if ?c then _ else _] => destruct c end;
    try reflexivity; rewrite map_map; reflexivity.
Qed.

Lemma normalizeSpectrum_grid_first data method :
  map wavelength (ScientificTs.normalizeSpectrum data method) = map wavelength data.
Proof.
  unfold ScientificTs.normalizeSpectrum. destruct method; rewrite map_map; reflexivity.
Qed.

(** The three stages after outlier removal, on any input. *)
Lemma later_stages_grid data nr bc nm :
  map wavelength (Part002.preprocessSpectrum data (mkParams nr bc nm None))
  = map wavelength data.
Proof.
  unfold Part002.preprocessSpectrum. cbn [outlier_removal noise_reduction baseline_correction].
  destruct nm as [method|]; cbn -[Part002.normalizeSpectrum Part002.savitzkyGolayFilter
                                   Part002.polynomialBaselineCorrection];
    rewrite ?normalizeSpectrum_grid;
    (destruct bc as [[[|] degree lam pp]|];
     cbn -[Part002.normalizeSpectrum Part002.savitzkyGolayFilter
           Part002.polynomialBaselineCorrection];
     rewrite ?baseline_grid;
     (destruct nr as [[w order]|];
      cbn -[Part002.normalizeSpectrum Part002.savitzkyGolayFilter
            Part002.polynomialBaselineCorrection];
      rewrite ?savitzkyGolayFilter_grid; reflexivity)).
Qed.

Lemma later_stages_grid_first data nr bc nm :
  map wavelength (ScientificTs.preprocessSpectrum data (mkParams nr bc nm None))
  = map wavelength data.
Proof.
  unfold ScientificTs.preprocessSpectrum.
  destruct nm as [method|]; cbn -[ScientificTs.normalizeSpectrum ScientificTs.savitzkyGolayFilter
                                   ScientificTs.polynomialBaselineCorrection];
    rewrite ?normalizeSpectrum_grid_first;
    (destruct bc as [[[|] degree lam pp]|];
     cbn -[ScientificTs.normalizeSpectrum ScientificTs.savitzkyGolayFilter
           ScientificTs.polynomialBaselineCorrection];
     rewrite ?baseline_grid_first;
     (destruct nr as [[w order]|];
      cbn -[ScientificTs.normalizeSpectrum ScientificTs.savitzkyGolayFilter
            ScientificTs.polynomialBaselineCorrection];
      rewrite ?savitzkyGolayFilter_grid_first; reflexivity)).
Qed.

End Grid.

(** X12: The pipeline never moves or invents a wavelength: in both copies the
    wavelengths of the output of [preprocessSpectrum] are a subsequence of
    those of the input, whatever the parameters; and without outlier
    removal they are exactly those of the input, point for point. *)
Theorem preprocessing_keeps_grid :
  forall (P : PowApprox) data nr bc nm o,
    subsequence (map wavelength (Part002.preprocessSpectrum data (mkParams nr bc nm o)))
                (map wavelength data)
    /\ map wavelength (Part002.preprocessSpectrum data (mkParams nr bc nm None))
       = map wavelength data
    /\ subsequence (map wavelength (ScientificTs.preprocessSpectrum data (mkParams nr bc nm o)))
                   (map wavelength data)
    /\ map wavelength (ScientificTs.preprocessSpectrum data (mkParams nr bc nm None))
       = map wavelength data.
Proof.
  intros P data nr bc nm o.
  split; [|split; [apply later_stages_grid|split; [|apply later_stages_grid_first]]].
  - destruct o as [[[|] thr]|].
    + change (Part002.preprocessSpectrum data (mkParams nr bc nm (Some (mkOutlierRemoval true thr))))
        with (Part002.preprocessSpectrum (Part002.removeOutliers data thr)
                                         (mkParams nr bc nm None)).
      rewrite later_stages_grid. apply removeOutliers_grid.
    + change (Part002.preprocessSpectrum data (mkParams nr bc nm (Some (mkOutlierRemoval false thr))))
        with (Part002.preprocessSpectrum data (mkParams nr bc nm None)).
      rewrite later_stages_grid. apply subsequence_refl.
    + rewrite later_stages_grid. apply subsequence_refl.
  - destruct o as [[[|] thr]|].
    + change (ScientificTs.preprocessSpectrum data
                (mkParams nr bc nm (Some (mkOutlierRemoval true thr))))
        with (ScientificTs.preprocessSpectrum (ScientificTs.removeOutliers data thr)
                                              (mkParams nr bc nm None)).
      rewrite later_stages_grid_first. apply removeOutliers_grid_first.
    + change (ScientificTs.preprocessSpectrum data
                (mkParams nr bc nm (Some (mkOutlierRemoval false thr))))
        with (ScientificTs.preprocessSpectrum data (mkParams nr bc nm None)).
      rewrite later_stages_grid_first. apply subsequence_refl.
    + rewrite later_stages_grid_first. apply subsequence_refl.
Qed.

(** ** The accuracy of the trapezoid rule *)

Module Accuracy.
Local Open Scope R_scope.

(** Rounding a positive integer multiple of a power of two whose value is
    in the normal range: the result is within the factor [1 +- u52]. *)
Lemma binary_round_rel p ez :
  pow2 (-1020) <= IZR (Z.pos p) * pow2 ez <= pow2 1022 ->
  exists m e,
    binary_round prec emax false p ez = S754_finite false m e
    /\ (-1074 < e)%Z
    /\ IZR (Z.pos p) * pow2 ez * (1 - u52) <= IZR (Z.pos m) * pow2 e
       <= IZR (Z.pos p) * pow2 ez * (1 + u52).
Proof.
  intros Hr. unfold binary_round.
  change (Z.pos (digits2_pos p)) with (Zdigits2 (Z.pos p)).
  pose proof (digits_bounds (Z.pos p) ltac:(lia)) as Hd.
  assert (Hd0: (0 < Zdigits2 (Z.pos p))%Z) by (simpl; lia).
  set (d := Zdigits2 (Z.pos p)) in *.
  pose proof (pow2_pos ez) as Pez.
  destruct (Z_le_gt_dec 53 d) as [Hbig|Hsmall].
  - assert (Hsh: shl_align p ez (fexp prec emax (d + ez)) = (p, ez)).
    { unfold shl_align. destruct (fexp prec emax (d + ez) - ez)%Z eqn:E; try reflexivity.
      unfold fexp, SpecFloat.emin, prec, emax in E. lia. }
    rewrite Hsh. apply round_rel.
    + assert (2 ^ 52 <= 2 ^ (d - 1))%Z by (apply Z.pow_le_mono_r; lia). lia.
    + rewrite plus_IZR. split; nra.
    + exact Hr.
  - assert (Hlow: (-1021 < d + ez)%Z).
    { apply pow2_lt_inv. pose proof (pow2_lt (-1021) (-1020) ltac:(lia)).
      rewrite pow2_add, (pow2_IZR d) by lia.
      assert (IZR (Z.pos p) < IZR (2 ^ d)) by (apply IZR_lt; lia). nra. }
    assert (Hf: fexp prec emax (d + ez) = (d + ez - 53)%Z)
      by (unfold fexp, SpecFloat.emin, prec, emax; lia).
    assert (Hsh: shl_align p ez (fexp prec emax (d + ez))
                 = (shift_pos (Z.to_pos (53 - d)) p, (d + ez - 53)%Z)).
    { unfold shl_align. rewrite Hf.
      replace (d + ez - 53 - ez)%Z with (Z.neg (Z.to_pos (53 - d))); [reflexivity|].
      rewrite <- Pos2Z.opp_pos, Z2Pos.id by lia. lia. }
    rewrite Hsh. set (q := shift_pos (Z.to_pos (53 - d)) p).
    assert (Hq: Z.pos q = (Z.pos p * 2 ^ (53 - d))%Z).
    { subst q. rewrite shift_pos_correct.
      change (Z.pow_pos 2 (Z.to_pos (53 - d))) with (2 ^ Z.pos (Z.to_pos (53 - d)))%Z.
      rewrite Z2Pos.id by lia. lia. }
    assert (Hx: IZR (Z.pos q) * pow2 (d + ez - 53) = IZR (Z.pos p) * pow2 ez).
    { rewrite Hq, mult_IZR, <- pow2_IZR by lia.
      rewrite Rmult_assoc, <- pow2_add. do 2 f_equal. lia. }
    rewrite <- Hx in *.
    apply round_rel.
    + rewrite Hq.
      assert (2 ^ (d - 1) * 2 ^ (53 - d) = 2 ^ 52)%Z
        by (rewrite <- Z.pow_add_r by lia; f_equal; lia).
      assert (0 < 2 ^ (53 - d))%Z by (apply Z.pow_pos_nonneg; lia). nia.
    + rewrite plus_IZR. pose proof (pow2_pos (d + ez - 53)). split; nra.
    + exact Hr.
Qed.

(** The difference of two moderate Numbers, when it is moderate itself:
    one rounding of the difference of the real numbers. *)
Lemma sub_rel a b :
  moderate a = true -> moderate b = true -> moderate (a - b) = true ->
  0 < value a - value b
  /\ (value a - value b) * (1 - u52) <= value (a - b) <= (value a - value b) * (1 + u52).
Proof.
  intros Ha Hb Hab.
  destruct (moderate_normal a Ha) as [[ma [ea [Pa Ea]]] Ra].
  destruct (moderate_normal b Hb) as [[mb [eb [Pb Eb]]] Rb].
  destruct (moderate_normal _ Hab) as [[mc [ec [Pc Ec]]] Rc].
  destruct (tame_value_normal a ma ea Pa Ea) as [Va _].
  destruct (tame_value_normal b mb eb Pb Eb) as [Vb _].
  destruct (tame_value_normal _ mc ec Pc Ec) as [Vc _].
  destruct (normal_mantissa a ma ea Pa Ea) as [Ma _].
  destruct (normal_mantissa b mb eb Pb Eb) as [Mb _].
  assert (Hsub: Prim2SF (a - b)
                = binary_normalize prec emax
                    (Z.pos ma * 2 ^ (ea - Z.min ea eb) - Z.pos mb * 2 ^ (eb - Z.min ea eb))
                    (Z.min ea eb) false).
  { rewrite sub_spec, Pa, Pb. unfold SF64sub, SFsub. cbv [cond_Zopp].
    rewrite !shl_align_value by lia. reflexivity. }
  assert (Hexp: forall m e, (Z.pos m < 2 ^ 53)%Z ->
                            pow2 (-200) <= IZR (Z.pos m) * pow2 e -> (-253 < e)%Z).
  { intros m e Hm Hv. apply pow2_lt_inv.
    apply IZR_lt in Hm. rewrite <- pow2_IZR in Hm by lia.
    pose proof (pow2_add 53 (-253)) as Hp. simpl Z.add in Hp.
    pose proof (pow2_pos e). pose proof (pow2_pos (-253)). pose proof (pow2_pos 53).
    destruct (Rlt_le_dec (pow2 (-253)) (pow2 e)) as [?|Hle]; [assumption|exfalso].
    assert (IZR (Z.pos m) * pow2 e < pow2 53 * pow2 (-253)) by nra. lra. }
  assert (Hea: (-253 < ea)%Z) by (apply (Hexp ma); [lia|rewrite <- Va; lra]).
  assert (Heb: (-253 < eb)%Z) by (apply (Hexp mb); [lia|rewrite <- Vb; lra]).
  set (ez := Z.min ea eb) in *.
  set (z := (Z.pos ma * 2 ^ (ea - ez) - Z.pos mb * 2 ^ (eb - ez))%Z) in *.
  assert (Hzv: IZR z * pow2 ez = value a - value b).
  { subst z. rewrite minus_IZR, !mult_IZR, Va, Vb.
    rewrite <- !pow2_IZR by lia.
    replace ea with ((ea - ez) + ez)%Z at 2 by lia.
    replace eb with ((eb - ez) + ez)%Z at 2 by lia.
    rewrite !pow2_add. ring. }
  pose proof (pow2_pos ez) as Pez.
  destruct z as [|pz|pz] eqn:Ez.
  - simpl in Hsub. rewrite Pc in Hsub. discriminate.
  - simpl binary_normalize in Hsub.
    assert (Hone: 1 <= IZR (Z.pos pz)) by (apply IZR_le; lia).
    destruct (binary_round_rel pz ez) as [m [e [Hres [He Hbd]]]].
    { rewrite Hzv. split.
      - rewrite <- Hzv. pose proof (pow2_le (-1020) ez ltac:(lia)). nra.
      - pose proof (pow2_le 200 1022 ltac:(lia)). pose proof (pow2_pos (-200)). lra. }
    rewrite Hres in Hsub. rewrite Pc in Hsub. injection Hsub as -> ->.
    rewrite Vc, <- Hzv. split; [nra|exact Hbd].
  - exfalso. simpl binary_normalize in Hsub.
    pose proof (binary_round_sign true pz ez) as Hs.
    rewrite <- Hsub, Pc in Hs.
    specialize (Hs ltac:(unfold SpecFloat.emin, prec, emax; lia)). discriminate Hs.
Qed.

Lemma trapezoid_real prev cur :
  moderate (wavelength prev) = true -> moderate (wavelength cur) = true ->
  moderate (wavelength cur - wavelength prev) = true ->
  0 <= value (intensity cur) + value (intensity prev) ->
  0 <= real_trapezoid prev cur /\ approx 1 (trapezoid prev cur) (real_trapezoid prev cur).
Proof.
  intros Hp Hc Hd Hs. destruct (sub_rel _ _ Hc Hp Hd) as [Hpos [H1 H2]].
  unfold real_trapezoid, trapezoid, approx. simpl pow. split; [nra|]. split; nra.
Qed.

Lemma exact_area_real rest : forall prev,
    levels (-200) 200 (prev :: rest) -> moderate_steps prev rest ->
    moderate_wavelengths (prev :: rest) ->
    0 <= real_area_from prev rest
    /\ approx 1 (exact_area prev rest) (real_area_from prev rest).
Proof.
  induction rest as [|cur rest IH]; intros prev Hl Hs Hw.
  - simpl. split; [lra|]. unfold approx. lra.
  - inversion Hl as [|? ? [Tp _] Lrest]; subst. inversion Lrest as [|? ? [Tc _] _]; subst.
    inversion Hw as [|? ? Wp Wrest]; subst. inversion Wrest as [|? ? Wc _]; subst.
    destruct Hs as [Hdx Hs].
    destruct (IH cur Lrest Hs Wrest) as [Rnn Ra].
    pose proof (tame_nonneg _ Tp). pose proof (tame_nonneg _ Tc).
    destruct (trapezoid_real prev cur Wp Wc Hdx ltac:(lra)) as [Tnn Ta].
    cbn [exact_area real_area_from]. split; [lra|]. apply approx_add; assumption.
Qed.

(** From accumulated factors to a relative error. *)
Lemma approx_relative k v r :
  (Z.of_nat k <= 2 ^ 21)%Z -> 0 <= r -> approx k v r ->
  Rabs (v - r) <= INR k * pow2 (-51) * r.
Proof.
  intros Hk Hr [H1 H2]. pose proof (count_small k Hk) as Hc.
  pose proof (pow_down_bound k) as Hd. pose proof (pow_up_bound k ltac:(lra)) as Hu.
  pose proof (pos_INR k) as Hn. pose proof u52_pos as Hp.
  assert (H51: pow2 (-51) = 2 * u52).
  { unfold u52. replace (-51)%Z with (-52 + 1)%Z by lia. apply pow2_double. }
  rewrite H51. apply Rabs_le. split; nra.
Qed.

Lemma integration_error first rest :
  well_scaled (first :: rest) -> moderate_wavelengths (first :: rest) ->
  tame (Part002.trapezoid_loop first rest 0%float)
  /\ 0 <= real_area_from first rest
  /\ approx (length rest + 4) (value (Part002.trapezoid_loop first rest 0%float))
            (real_area_from first rest).
Proof.
  intros [Hlen [Hint Hsteps]] Hw.
  pose proof (well_scaled_levels _ Hint) as L200.
  pose proof (levels_weaken (-200) 200 (-700) 700 _ ltac:(lia) ltac:(lia) L200) as L700.
  destruct tame_zero as [T0 V0].
  cbn [length] in Hlen. set (n := length rest) in *.
  assert (Hn: INR n <= pow2 20) by (apply count_bound; lia).
  destruct (exact_area_mag (-200) 200 rest first L200 Hsteps) as [_ [Enn Eup]].
  fold n in Eup. simpl Z.add in Eup.
  assert (Eup': exact_area first rest <= pow2 420).
  { replace 420%Z with (20 + 400)%Z by lia. rewrite pow2_add.
    pose proof (pow2_pos 400). nra. }
  destruct (loop_error rest first 0%float 3 0 L700 Hsteps T0 (Rle_refl 0)) as [TA AA].
  { rewrite V0. unfold approx. lra. }
  { rewrite Rplus_0_l. pose proof (pow2_le 420 950 ltac:(lia)). lra. }
  { lia. }
  { fold n. lia. }
  rewrite Rplus_0_l in AA. fold n in AA.
  destruct (exact_area_real rest first L200 Hsteps Hw) as [Rnn RA].
  split; [exact TA|]. split; [exact Rnn|].
  replace (n + 4)%nat with (3 + n + 1)%nat by lia.
  apply (approx_trans _ _ _ _ _ Rnn AA RA).
Qed.

End Accuracy.

(** X13: On a spectrum of at most 2^20 points whose wavelengths, successive
    steps and non-zero intensities are all between 1e-60 and 1e60, the
    binary64 trapezoid rule is accurate: its result is finite and differs
    from the trapezoid sum of the same points in real numbers by at most
    [(n + 3) * 2^-51] of that sum, [n] being the number of points. *)
Theorem integration_accuracy :
  forall data,
    well_scaled data -> moderate_wavelengths data ->
    is_finite (Part002.trapezoidalIntegration data) = true
    /\ (0 <= real_area data)%R
    /\ (Rabs (value (Part002.trapezoidalIntegration data) - real_area data)
        <= INR (length data + 3) * pow2 (-51) * real_area data)%R.
Proof.
  intros data Hs Hw. destruct data as [|first rest].
  - split; [reflexivity|]. split; [apply Rle_refl|].
    destruct tame_zero as [_ V0].
    change (Part002.trapezoidalIntegration []) with 0. cbn [real_area].
    rewrite V0, Rminus_diag, Rabs_R0, Rmult_0_r. apply Rle_refl.
  - destruct (Accuracy.integration_error first rest Hs Hw) as [TA [Rnn AA]].
    change (Part002.trapezoidalIntegration (first :: rest))
      with (Part002.trapezoid_loop first rest 0).
    cbn [real_area length].
    split; [apply tame_finite; exact TA|]. split; [exact Rnn|].
    replace (S (length rest) + 3)%nat with (length rest + 4)%nat by lia.
    apply Accuracy.approx_relative; [|exact Rnn|exact AA].
    destruct Hs as [Hlen _]. cbn [length] in Hlen.
    change (2 ^ 20)%Z with 1048576%Z in Hlen. change (2 ^ 21)%Z with 2097152%Z. lia.
Qed.

Lemma integration_accuracy_witness :
  well_scaled visible_band /\ moderate_wavelengths visible_band
  /\ is_finite (Part002.trapezoidalIntegration visible_band) = true
  /\ (Rabs (value (Part002.trapezoidalIntegration visible_band) - real_area visible_band)
      <= INR (length visible_band + 3) * pow2 (-51) * real_area visible_band)%R.
Proof.
  assert (Hs: well_scaled visible_band).
  { split; [simpl; lia|]. split; [repeat constructor|].
    simpl. repeat split; vm_compute; reflexivity. }
  assert (Hw: moderate_wavelengths visible_band) by (repeat constructor).
  split; [exact Hs|]. split; [exact Hw|].
  destruct (integration_accuracy visible_band Hs Hw) as [H1 [_ H2]].
  split; [exact H1|exact H2].
Defined.

(** ** The comparison page *)




(** X15: The page reports an enhancement only if the second sample peaks
    higher: when the first sample's highest intensity is positive and
    finite and the second's is not above it, the ratio is at most 1 and
    the label is not "Luminescence Enhancement".  With fewer than two
    samples there is no comparison. *)
Theorem enhancement_needs_a_higher_peak :
  (forall sample1 sample2 others c,
      ComparePage.calculateComparison (sample1 :: sample2 :: others) = Some c ->
      is_finite (Math_max (map intensity sample1)) = true ->
      (0 <? Math_max (map intensity sample1)) = true ->
      (Math_max (map intensity sample2) <=? Math_max (map intensity sample1)) = true ->
      (ComparePage.intensityRatio c <=? 1) = true
      /\ ComparePage.change (ComparePage.intensityRatio c)
         <> ComparePage.LuminescenceEnhancement)
  /\ ComparePage.calculateComparison [] = None
  /\ (forall sample1, ComparePage.calculateComparison [sample1] = None).
Proof.
  split; [|split; reflexivity].
  intros sample1 sample2 others c Hc Hf Hp Hle.
  injection Hc as <-. cbn [ComparePage.intensityRatio].
  pose proof (div_le_one _ _ Hf Hp Hle) as Hr. split; [exact Hr|].
  unfold ComparePage.change, gtb. rewrite (leb_not_ltb _ _ Hr).
  destruct (_ <? 1); discriminate.
Qed.

Lemma enhancement_needs_a_higher_peak_witness :
  exists c,
    ComparePage.calculateComparison [ramp; peak_650] = Some c
    /\ (ComparePage.intensityRatio c <=? 1) = true
    /\ ComparePage.change (ComparePage.intensityRatio c)
       <> ComparePage.LuminescenceEnhancement.
Proof.
  eexists. split; [reflexivity|].
  apply (proj1 enhancement_needs_a_higher_peak ramp peak_650 [] _ eq_refl);
    reflexivity.
Defined.

(** ** The comparison chart *)






Lemma row_of_samples_with_data samples wl :
  (forall s, In s samples -> s <> []) -> exists values, ComparisonChart.closest_intensities samples wl = Some values.
Proof.
  induction samples as [|s rest IH]; intros H; simpl; [eauto|].
  destruct s as [|d s]; [exfalso; apply (H []); [left; reflexivity|reflexivity]|].
  destruct IH as [values ->]; [intros s' Hs'; apply H; right; exact Hs'|].
  simpl. eauto.
Qed.

Lemma row_of_sample_without_data samples wl :
  In [] samples -> ComparisonChart.closest_intensities samples wl = None.
Proof.
  induction samples as [|s rest IH]; intros H; [contradiction|].
  destruct H as [->|H]; [reflexivity|]. simpl.
  destruct (ComparisonChart.closest s wl); [|reflexivity]. rewrite (IH H). reflexivity.
Qed.




(** X17: A sample without data makes the chart raise as soon as its loop runs,
    that is when some other sample has a point and no wavelength is NaN:
    the closest point is taken by a [reduce] without initial value.  When
    no sample has any data the loop does not run and the chart is empty. *)
Theorem chart_raises_on_sample_without_data :
  (forall samples fuel,
      In [] samples ->
      flat_map (map wavelength) samples <> [] ->
      numbers (flat_map (map wavelength) samples) ->
      ComparisonChart.chartData (S fuel) samples = ComparisonChart.TypeError)
  /\ (forall samples fuel,
         samples <> [] -> (forall s, In s samples -> s = []) ->
         ComparisonChart.chartData (S fuel) samples = ComparisonChart.Rendered []).
Proof.
  split.
  - intros samples fuel Hin Hne Hn.
    destruct samples as [|s0 rest] eqn:Es; [contradiction|]. rewrite <- Es in *.
    assert (Hc: ComparisonChart.chartData (S fuel) samples
                = ComparisonChart.loop
                    (S fuel) samples (Math_min (flat_map (map wavelength) samples))
                    (Math_max (flat_map (map wavelength) samples))
                    ((Math_max (flat_map (map wavelength) samples)
                      - Math_min (flat_map (map wavelength) samples)) / 500) [])
      by (rewrite Es; reflexivity).
    rewrite Hc. cbn [ComparisonChart.loop].
    destruct (flat_map (map wavelength) samples) as [|v0 all] eqn:Ea; [congruence|].
    destruct (Math_min_max_bounds (v0 :: all) v0 Hn (or_introl eq_refl)) as [Hlo Hhi].
    rewrite (leb_trans _ _ _ Hlo Hhi), (row_of_sample_without_data samples _ Hin).
    reflexivity.
  - intros samples fuel Hne Hall.
    assert (Ha: flat_map (map wavelength) samples = []).
    { apply flat_map_none. intros s Hs. rewrite (Hall s Hs). reflexivity. }
    destruct samples as [|s0 rest] eqn:Es; [congruence|]. rewrite <- Es in *.
    unfold ComparisonChart.chartData. rewrite Es at 1. rewrite Ha. reflexivity.
Qed.

Lemma chart_raises_on_sample_without_data_witness :
  ComparisonChart.chartData 1 one_without_data = ComparisonChart.TypeError
  /\ ComparisonChart.chartData 1 [[]; []] = ComparisonChart.Rendered [].
Proof.
  split.
  - apply (proj1 chart_raises_on_sample_without_data one_without_data 0%nat).
    + right. left. reflexivity.
    + discriminate.
    + repeat constructor.
  - apply (proj2 chart_raises_on_sample_without_data [[]; []] 0%nat).
    + discriminate.
    + intros s [<-|[<-|[]]]; reflexivity.
Defined.

(** ** The analysis page *)




(** ** Too few points for a baseline *)

Lemma mul_nan_l y : nan * y = nan.
Proof. apply Prim2SF_inj. rewrite mul_spec. reflexivity. Qed.

(** X19: The least-squares system of a single point is singular for a
    polynomial of degree 2, the default of the pipeline: elimination
    divides zero by zero, every coefficient is NaN, and the revised
    [polynomialBaselineCorrection] returns the point with a NaN intensity,
    whatever its intensity was.  The same happens to [two_points]. *)
Theorem baseline_of_one_point_is_nan :
  (forall (P : PowApprox) w i,
      Part002.polynomialBaselineCorrection [mkPoint w i] 2 = [mkPoint w nan])
  /\ (forall (P : PowApprox) w i,
         Part002.preprocessSpectrum
           [mkPoint w i]
           (mkParams None (Some (mkBaselineCorrection polynomial None None None)) None None)
         = [mkPoint w nan])
  /\ map intensity
         (Part002.polynomialBaselineCorrection (P := by_multiplication) two_points 2)
     = [nan; nan].
Proof.
  assert (H: forall (P : PowApprox) w i,
             Part002.polynomialBaselineCorrection [mkPoint w i] 2 = [mkPoint w nan]).
  { intros P w i. unfold Part002.polynomialBaselineCorrection.
    unfold mapi, mapi_from, map.
    set (coeffs := Part002.polyfit _ _ _). vm_compute in coeffs. subst coeffs.
    cbn [length seq fold_left get nth wavelength intensity].
    repeat first [rewrite div_nan_r|rewrite div_nan_l|rewrite mul_nan_r|rewrite mul_nan_l
                 |rewrite add_nan_r|rewrite add_nan_l|rewrite sub_nan_r|rewrite sub_nan_l].
    reflexivity. }
  split; [exact H|]. split; [|vm_compute; reflexivity].
  intros P w i. exact (H P w i).
Qed.

(** ** Dividing by one *)

Lemma div_by_power_exact m k :
  (0 <= k)%Z -> Z.div_eucl (Z.pos m * 2 ^ k) (2 ^ k) = (Z.pos m, 0%Z).
Proof.
  intros Hk. assert (Hp: (0 < 2 ^ k)%Z) by (apply Z.pow_pos_nonneg; lia).
  pose proof (Z.div_mul (Z.pos m) (2 ^ k) ltac:(lia)) as H3.
  pose proof (Z.mod_mul (Z.pos m) (2 ^ k) ltac:(lia)) as H4.
  unfold Z.div in H3. unfold Z.modulo in H4.
  destruct (Z.div_eucl (Z.pos m * 2 ^ k) (2 ^ k)) as [q r].
  simpl in H3, H4. subst. reflexivity.
Qed.

(** Every Number divided by 1 is itself: the quotient is exact. *)
Lemma div_one x : x / 1 = x.
Proof.
  apply Prim2SF_inj. rewrite div_spec, Prim2SF_one.
  destruct (Prim2SF x) as [s|s| |s m e] eqn:Hx; try (destruct s; reflexivity); try reflexivity.
  destruct (canonical x s m e Hx) as [Hlog [Hmin Hnorm]].
  assert (Hmax: (e <= 971)%Z).
  { pose proof (Prim2SF_valid x) as Hv. rewrite Hx in Hv.
    unfold SpecFloat.valid_binary, bounded in Hv.
    apply andb_true_iff in Hv. destruct Hv as [_ Hv]. apply Z.leb_le in Hv.
    unfold emax, prec in Hv. lia. }
  assert (Hd: Zdigits2 (Z.pos m) = (Z.log2 (Z.pos m) + 1)%Z)
    by (apply Rounding.Zdigits2_log2; lia).
  unfold SF64div, SFdiv, SFdiv_core_binary.
  change (Zdigits2 (Z.pos 4503599627370496)) with 53%Z.
  rewrite Hd.
  destruct (Z.eq_dec e (-1074)) as [->|Hne].
  - (* the lowest exponent *)
    replace (Z.min (fexp prec emax (Z.log2 (Z.pos m) + 1 + -1074 - (53 + -52))) (-1074 - -52))
      with (-1074)%Z by (unfold fexp, SpecFloat.emin, prec, emax; lia).
    change (-1074 - -52 - -1074)%Z with 52%Z. cbv iota.
    rewrite Z.shiftl_mul_pow2 by lia.
    change (Z.pos 4503599627370496) with (2 ^ 52)%Z.
    rewrite (div_by_power_exact m 52) by lia.
    change (new_location (2 ^ 52) 0) with loc_Exact.
    unfold binary_round_aux, shr_fexp. rewrite Hd.
    replace (fexp prec emax (Z.log2 (Z.pos m) + 1 + -1074) - -1074)%Z with 0%Z
      by (unfold fexp, SpecFloat.emin, prec, emax; lia).
    cbn [shr shr_record_of_loc shr_m loc_of_shr_record round_nearest_even].
    rewrite Hd.
    replace (fexp prec emax (Z.log2 (Z.pos m) + 1 + -1074) - -1074)%Z with 0%Z
      by (unfold fexp, SpecFloat.emin, prec, emax; lia).
    cbn [shr shr_record_of_loc shr_m]. destruct s; reflexivity.
  - specialize (Hnorm ltac:(lia)). rewrite Hnorm in *.
    replace (Z.min (fexp prec emax (52 + 1 + e - (53 + -52))) (e - -52))
      with (e - 1)%Z by (unfold fexp, SpecFloat.emin, prec, emax; lia).
    replace (e - -52 - (e - 1))%Z with 53%Z by lia. cbv iota.
    rewrite Z.shiftl_mul_pow2 by lia.
    replace (Z.pos m * 2 ^ 53)%Z with (Z.pos m~0 * 2 ^ 52)%Z by lia.
    change (Z.pos 4503599627370496) with (2 ^ 52)%Z.
    rewrite (div_by_power_exact (m~0) 52) by lia.
    change (new_location (2 ^ 52) 0) with loc_Exact.
    unfold binary_round_aux, shr_fexp.
    assert (Hd2: Zdigits2 (Z.pos m~0) = 54%Z).
    { rewrite Rounding.Zdigits2_log2 by lia.
      rewrite Pos2Z.inj_xO, Z.log2_double by lia. lia. }
    rewrite Hd2.
    replace (fexp prec emax (54 + (e - 1)) - (e - 1))%Z with 1%Z
      by (unfold fexp, SpecFloat.emin, prec, emax; lia).
    cbn [shr shr_record_of_loc shr_m loc_of_shr_record round_nearest_even
         SpecFloat.iter_pos shr_1 orb shr_r shr_s].
    rewrite Hd.
    replace (fexp prec emax (52 + 1 + (e - 1 + 1)) - (e - 1 + 1))%Z with 0%Z
      by (unfold fexp, SpecFloat.emin, prec, emax; lia).
    cbn [shr shr_record_of_loc shr_m].
    replace (e - 1 + 1 <=? emax - prec)%Z with true
      by (symmetry; apply Z.leb_le; unfold emax, prec; lia).
    replace (e - 1 + 1)%Z with e by lia. destruct s; reflexivity.
Qed.

(** ** Normalizing twice *)

Lemma SFleb_antisym_pos m1 e1 m2 e2 :
  SFleb (S754_finite false m1 e1) (S754_finite false m2 e2) = true ->
  SFleb (S754_finite false m2 e2) (S754_finite false m1 e1) = true ->
  m1 = m2 /\ e1 = e2.
Proof.
  intros H1 H2.
  apply Order.SFleb_key in H1; try discriminate. apply Order.SFleb_key in H2; try discriminate.
  unfold Order.key, Order.lex_le in H1, H2. split; [|lia].
  assert (Z.pos m1 = Z.pos m2) by lia. congruence.
Qed.

Lemma leb_antisym_one y : (1 <=? y) = true -> (y <=? 1) = true -> y = 1.
Proof.
  rewrite !leb_spec, Prim2SF_one. intros H1 H2. apply Prim2SF_inj. rewrite Prim2SF_one.
  destruct (Prim2SF y) as [s|s| |s m e]; try discriminate H1; try (destruct s; discriminate).
  destruct s; [discriminate H1|].
  destruct (SFleb_antisym_pos _ _ _ _ H1 H2) as [<- <-]. reflexivity.
Qed.

(** X20: "max" normalization is idempotent in the revised copy: once the
    maximum is 1, normalizing again divides every intensity by 1 and
    gives the same spectrum back, exactly. *)
Theorem max_normalization_idempotent :
  forall data,
    numbers (map intensity data) ->
    is_finite (Math_max (map intensity data)) = true ->
    (0 <? Math_max (map intensity data)) = true ->
    Math_max (map intensity (Part002.normalizeSpectrum data max_method)) = 1
    /\ Part002.normalizeSpectrum (Part002.normalizeSpectrum data max_method) max_method
       = Part002.normalizeSpectrum data max_method.
Proof.
  intros data Hn Hf Hp.
  destruct (max_normalized data Hn Hf Hp) as [_ [Hone Hle]].
  set (once := Part002.normalizeSpectrum data max_method) in *.
  assert (Hn1: numbers (map intensity once)).
  { apply Forall_forall. intros v Hv. apply in_map_iff in Hv. destruct Hv as [d [<- Hd]].
    rewrite Forall_forall in Hle. exact (proj1 (leb_not_nan _ _ (Hle d Hd))). }
  assert (Hmax: Math_max (map intensity once) = 1).
  { destruct (Math_min_max_bounds (map intensity once) 1 Hn1 Hone) as [_ Hhi].
    apply leb_antisym_one; [exact Hhi|].
    destruct (max_from_in (map intensity once) neg_infinity Hn1) as [H|H].
    - unfold Math_max in Hhi. rewrite H in Hhi. discriminate Hhi.
    - apply in_map_iff in H. destruct H as [d [Hd Hin]].
      rewrite Forall_forall in Hle. unfold Math_max. rewrite <- Hd. apply Hle, Hin. }
  split; [exact Hmax|].
  unfold Part002.normalizeSpectrum at 1.
  destruct once as [|d0 rest] eqn:Eo; [reflexivity|]. rewrite <- Eo in *.
  change (max_of (map intensity once)) with (Math_max (map intensity once)).
  rewrite Hmax. change (is0 1) with false. cbv iota.
  rewrite <- (map_id once) at 2. apply map_ext. intros [w i]. simpl.
  rewrite div_one. reflexivity.
Qed.

Lemma max_normalization_idempotent_witness :
  Math_max (map intensity (Part002.normalizeSpectrum peak_650 max_method)) = 1
  /\ Part002.normalizeSpectrum (Part002.normalizeSpectrum peak_650 max_method) max_method
     = Part002.normalizeSpectrum peak_650 max_method.
Proof.
  apply (max_normalization_idempotent peak_650).
  - repeat constructor.
  - reflexivity.
  - reflexivity.
Defined.

(** ** The chart of spectra that span a range *)

Module ChartLoop.
Local Open Scope R_scope.

Lemma normal_500 : normal 500%float /\ value 500%float = 500.
Proof.
  split; [exists 8796093022208000%positive, (-44)%Z; split; [reflexivity|lia]|].
  unfold value. change (Prim2SF 500%float) with (S754_finite false 8796093022208000 (-44)).
  unfold SF2R. cbv [cond_Zopp].
  replace (IZR (Z.pos 8796093022208000)) with (500 * pow2 44).
  - rewrite Rmult_assoc, <- pow2_add. change (pow2 (44 + -44)) with 1. lra.
  - rewrite pow2_IZR by lia. rewrite <- mult_IZR. reflexivity.
Qed.

Lemma normal_1048576 : normal 1048576%float /\ value 1048576%float = pow2 20.
Proof.
  split; [exists 4503599627370496%positive, (-32)%Z; split; [reflexivity|lia]|].
  unfold value. change (Prim2SF 1048576%float) with (S754_finite false 4503599627370496 (-32)).
  unfold SF2R. cbv [cond_Zopp].
  replace (IZR (Z.pos 4503599627370496)) with (pow2 52)
    by (rewrite pow2_IZR by lia; reflexivity).
  rewrite <- pow2_add. reflexivity.
Qed.

(** The order of tame Numbers is the order of the real numbers they
    stand for. *)
Lemma leb_value x y :
  tame x -> tame y -> (x <=? y)%float = true -> value x <= value y.
Proof.
  intros Hx Hy H. pose proof (tame_nonneg y Hy) as Py.
  destruct Hx as [[sx Hx]|[mx [ex [Hx Hex]]]].
  { rewrite (tame_value_zero x sx Hx). exact Py. }
  destruct Hy as [[sy Hy]|[my [ey [Hy Hey]]]].
  { exfalso. rewrite leb_spec, Hx, Hy in H. destruct sy; discriminate H. }
  destruct (normal_mantissa x mx ex Hx Hex) as [[Mx1 Mx2] _].
  destruct (normal_mantissa y my ey Hy Hey) as [[My1 My2] _].
  destruct (tame_value_normal x mx ex Hx Hex) as [-> _].
  destruct (tame_value_normal y my ey Hy Hey) as [-> _].
  rewrite leb_spec, Hx, Hy in H.
  apply Order.SFleb_key in H; try discriminate.
  unfold Order.key, Order.lex_le in H.
  pose proof (pow2_pos ex) as Pex. pose proof (pow2_pos ey) as Pey.
  assert (Hc: (ex < ey \/ (ex = ey /\ Z.pos mx <= Z.pos my))%Z) by lia.
  apply IZR_lt in Mx2. apply IZR_le in My1. rewrite <- pow2_IZR in Mx2, My1 by lia.
  destruct Hc as [He|[-> Hm]].
  - pose proof (pow2_le (ex + 1) ey ltac:(lia)) as Hp. rewrite pow2_double in Hp.
    pose proof (pow2_double 52) as H53. simpl Z.add in H53.
    pose proof (pow2_pos 52). nra.
  - apply IZR_le in Hm. nra.
Qed.

Section Loop.

Variable samples : list Spectrum.
Variables maxWavelength step : float.
Variables first gain : R.

Hypothesis with_data : forall s, In s samples -> s <> [].
Hypothesis tame_max : tame maxWavelength.
Hypothesis tame_step : tame step.
Hypothesis not_huge : value maxWavelength + value step <= pow2 1022.
Hypothesis rounding_is_small :
  u52 * (value maxWavelength + value step) <= value step - gain.

(** Each turn of the loop moves the wavelength up by at least [gain]:
    after enough turns it is past the largest wavelength. *)
Lemma loop_renders : forall fuel k wl chartData,
    tame wl -> first + INR k * gain <= value wl ->
    value maxWavelength - first < INR (k + fuel) * gain ->
    exists rows,
      ComparisonChart.loop (S fuel) samples wl maxWavelength step chartData
      = ComparisonChart.Rendered rows
      /\ (length rows <= length chartData + fuel)%nat.
Proof.
  induction fuel as [|fuel IH]; intros k wl chartData Tw Hk Hf.
  - exists chartData. cbn [ComparisonChart.loop]. split; [|lia].
    destruct (wl <=? maxWavelength)%float eqn:Hle; [exfalso|reflexivity].
    pose proof (leb_value _ _ Tw tame_max Hle). rewrite Nat.add_0_r in Hf. lra.
  - cbn [ComparisonChart.loop].
    change (ComparisonChart.loop (S fuel)) with (ComparisonChart.loop (S fuel)).
    destruct (wl <=? maxWavelength)%float eqn:Hle; [|exists chartData; split; [reflexivity|lia]].
    pose proof (leb_value _ _ Tw tame_max Hle) as Hv.
    destruct (row_of_samples_with_data samples wl with_data) as [values ->].
    pose proof (tame_nonneg _ tame_step) as Ps. pose proof (tame_nonneg _ Tw) as Pw.
    destruct (add_tame wl step Tw tame_step ltac:(lra)) as [Tw' [Hlo _]].
    pose proof u52_pos as Hu.
    destruct (IH (S k) (wl + step)%float
                 (chartData ++ [ComparisonChart.mkDataPoint wl values]) Tw')
      as [rows [Hr Hlen]].
    + rewrite S_INR. nra.
    + replace (S k + fuel)%nat with (k + S fuel)%nat by lia. exact Hf.
    + exists rows. split; [exact Hr|]. rewrite length_app in Hlen. simpl in Hlen. lia.
Qed.

End Loop.

Lemma loop_with_more_fuel samples maxWavelength step rows : forall fuel wl chartData more,
    ComparisonChart.loop fuel samples wl maxWavelength step chartData
    = ComparisonChart.Rendered rows ->
    ComparisonChart.loop (fuel + more) samples wl maxWavelength step chartData
    = ComparisonChart.Rendered rows.
Proof.
  induction fuel as [|fuel IH]; intros wl chartData more H; [discriminate H|].
  cbn [ComparisonChart.loop Nat.add] in *.
  destruct (wl <=? maxWavelength)%float; [|exact H].
  destruct (ComparisonChart.closest_intensities samples wl); [|discriminate H].
  apply IH. exact H.
Qed.

(** The step of the chart, and what one turn gains, in real numbers. *)
Lemma step_of_range lo hi :
  moderate lo = true -> moderate hi = true -> moderate (hi - lo) = true ->
  (hi <=? 1048576 * (hi - lo))%float = true ->
  let step := ((hi - lo) / 500)%float in
  let gain := value step * (1 - pow2 (-21)) in
  tame step /\ 0 < gain
  /\ value hi + value step <= pow2 1022
  /\ u52 * (value hi + value step) <= value step - gain
  /\ value hi - value lo < INR 501 * gain.
Proof.
  intros Hlo Hhi Hd Hr step gain.
  destruct (Accuracy.sub_rel hi lo Hhi Hlo Hd) as [Hpos [D1 D2]].
  destruct (moderate_normal _ Hd) as [ND [RD1 RD2]].
  destruct (moderate_normal _ Hhi) as [NH [RH1 RH2]].
  destruct (moderate_normal _ Hlo) as [NL [RL1 RL2]].
  destruct normal_500 as [N500 V500]. destruct normal_1048576 as [N20 V20].
  set (D := value (hi - lo)%float) in *.
  pose proof u52_small as Hu. pose proof u52_pos as Pu.
  pose proof (pow2_pos (-200)) as P200.
  (* the step *)
  assert (Hq: pow2 (-1020) <= D / 500 <= pow2 1022).
  { pose proof (pow2_le (-1020) (-210) ltac:(lia)).
    pose proof (pow2_le 200 1022 ltac:(lia)).
    pose proof (pow2_add (-210) 10) as H10. simpl Z.add in H10.
    assert (pow2 10 = 1024) by (rewrite pow2_IZR by lia; reflexivity).
    pose proof (pow2_pos (-210)). split.
    - apply Rle_trans with (pow2 (-210)); [assumption|].
      apply Rmult_le_reg_r with 500; [lra|]. unfold Rdiv. rewrite Rmult_assoc, Rinv_l by lra. nra.
    - apply Rle_trans with D; [|lra].
      apply Rmult_le_reg_r with 500; [lra|]. unfold Rdiv. rewrite Rmult_assoc, Rinv_l by lra. nra. }
  destruct (div_tame (hi - lo)%float 500%float (normal_tame _ ND) N500) as [Ts [S1 S2]].
  { right. rewrite V500. exact Hq. }
  rewrite V500 in S1, S2. fold D in S1, S2. fold step in Ts, S1, S2.
  set (s := value step) in *.
  (* the range against the largest wavelength *)
  destruct (mul_tame 1048576%float (hi - lo)%float (normal_tame _ N20) (normal_tame _ ND))
    as [Tp [_ P2]].
  { right. rewrite V20. fold D.
    pose proof (pow2_add 20 (-200)) as Ha. simpl Z.add in Ha.
    pose proof (pow2_add 20 200) as Hb. simpl Z.add in Hb.
    pose proof (pow2_le (-1020) (-180) ltac:(lia)). pose proof (pow2_le 220 1022 ltac:(lia)).
    pose proof (pow2_pos 20). split; nra. }
  rewrite V20 in P2. fold D in P2.
  pose proof (leb_value _ _ (normal_tame _ NH) Tp Hr) as HM.
  assert (H20: pow2 20 = 1048576) by (rewrite pow2_IZR by lia; reflexivity).
  assert (H21: pow2 (-21) = / 2097152).
  { pose proof (pow2_add 21 (-21)) as E. simpl Z.add in E. change (pow2 0) with 1 in E.
    assert (pow2 21 = 2097152) by (rewrite pow2_IZR by lia; reflexivity).
    apply (Rmult_eq_reg_l (pow2 21)); [|lra]. rewrite <- E. rewrite H. field. }
  rewrite H20 in P2. assert (HM2: value hi <= 1048576 * D * (1 + u52)) by lra.
  pose proof (pow2_le 201 1022 ltac:(lia)) as Hbig.
  pose proof (pow2_double 200) as H201. simpl Z.add in H201.
  replace (INR 501) with 501 by (rewrite INR_IZR_INZ; reflexivity).
  subst gain. rewrite H21.
  clear Hq P2 HM. rewrite Hu in *.
  split; [exact Ts|]. repeat split; lra.
Qed.

End ChartLoop.

(** X21: When every sample has data and the wavelengths span a range that is
    not tiny against the largest one (the largest is at most 2^20 times
    the range, all three between 1e-60 and 1e60), the loop of the chart
    ends: within 502 turns it has left the range, whatever more fuel it is
    given, and the chart holds at most 501 rows. *)
Theorem chart_renders_a_range :
  forall samples,
    samples <> [] ->
    (forall s, In s samples -> s <> []) ->
    moderate (Math_min (flat_map (map wavelength) samples)) = true ->
    moderate (Math_max (flat_map (map wavelength) samples)) = true ->
    moderate (Math_max (flat_map (map wavelength) samples)
              - Math_min (flat_map (map wavelength) samples)) = true ->
    (Math_max (flat_map (map wavelength) samples)
     <=? 1048576 * (Math_max (flat_map (map wavelength) samples)
                    - Math_min (flat_map (map wavelength) samples))) = true ->
    exists rows,
      (length rows <= 501)%nat
      /\ forall more, ComparisonChart.chartData (502 + more) samples
                      = ComparisonChart.Rendered rows.
Proof.
  intros samples Hne Hdata Hlo Hhi Hd Hr.
  set (lo := Math_min (flat_map (map wavelength) samples)) in *.
  set (hi := Math_max (flat_map (map wavelength) samples)) in *.
  destruct (ChartLoop.step_of_range lo hi Hlo Hhi Hd Hr) as [Ts [Pg [Hh [Hs Hn]]]].
  destruct (moderate_normal _ Hhi) as [NH _]. destruct (moderate_normal _ Hlo) as [NL _].
  destruct (ChartLoop.loop_renders
              samples hi ((hi - lo) / 500) (value lo) _ Hdata (normal_tame _ NH) Ts Hh Hs
              501 0 lo [] (normal_tame _ NL)) as [rows [Hrows Hlen]].
  - simpl INR. rewrite Rmult_0_l, Rplus_0_r. apply Rle_refl.
  - exact Hn.
  - exists rows. split; [exact Hlen|]. intros more.
    destruct samples as [|s0 rest] eqn:Es; [congruence|]. rewrite <- Es in *.
    assert (Hc: forall fuel, ComparisonChart.chartData fuel samples
                             = ComparisonChart.loop fuel samples lo hi ((hi - lo) / 500) [])
      by (intros fuel; rewrite Es; reflexivity).
    rewrite Hc. apply ChartLoop.loop_with_more_fuel. exact Hrows.
Qed.

Lemma chart_renders_a_range_witness :
  exists rows,
    (length rows <= 501)%nat
    /\ forall more, ComparisonChart.chartData (502 + more) two_bands
                    = ComparisonChart.Rendered rows.
Proof.
  apply (chart_renders_a_range two_bands).
  - discriminate.
  - intros s [<-|[<-|[]]]; discriminate.
  - reflexivity.
  - reflexivity.
  - reflexivity.
  - reflexivity.
Defined.

(** ** The Lorentzian profile at its centre *)

Lemma zero_cases z s : Prim2SF z = S754_zero s -> z = 0 \/ z = neg_zero.
Proof.
  intros H. destruct s; [right|left]; apply Prim2SF_inj; rewrite H; reflexivity.
Qed.

Lemma zero_div_number w :
  is_nan w = false -> strict_eq w 0 = false -> exists s, Prim2SF (0 / w) = S754_zero s.
Proof.
  intros Hn Hz. apply is_nan_false in Hn.
  unfold strict_eq in Hz. rewrite FloatAxioms.eqb_spec, Prim2SF_zero in Hz.
  rewrite div_spec, Prim2SF_zero.
  destruct (Prim2SF w) as [s|s| |s m e]; try congruence.
  - destruct s; discriminate Hz.
  - eexists; reflexivity.
  - eexists; reflexivity.
Qed.

(** X22: In both copies the Lorentzian profile takes exactly its amplitude at
    its centre, for every finite centre and every width that is a number
    other than zero, and for every implementation of [Math.pow]. *)
Theorem lorentzian_at_centre :
  forall (P : PowApprox) center amplitude width,
    is_finite center = true -> is_nan width = false -> strict_eq width 0 = false ->
    Part002.lorentzian center amplitude center width = amplitude
    /\ ScientificTs.lorentzian center amplitude center width = amplitude.
Proof.
  intros P center amplitude width Hc Hn Hz.
  assert (H: amplitude / (1 + Math_pow ((center - center) / width) 2) = amplitude).
  { rewrite (sub_diag _ Hc).
    destruct (zero_div_number width Hn Hz) as [s Hs].
    destruct (zero_cases _ _ Hs) as [-> | ->];
      change (amplitude / 1 = amplitude); apply div_one. }
  split.
  - unfold Part002.lorentzian. rewrite Hz. exact H.
  - exact H.
Qed.

Lemma lorentzian_at_centre_witness :
  Part002.lorentzian (P := by_multiplication) 650 0.8 650 5 = 0.8
  /\ ScientificTs.lorentzian (P := by_multiplication) 650 0.8 650 5 = 0.8.
Proof.
  apply (lorentzian_at_centre by_multiplication 650 0.8 5); reflexivity.
Defined.
